(** * Wildcard / complement pattern search on an Aho-Corasick automaton

    A shallow embedding of the C++ program (Result, Transition, State,
    addResult, findTransition, extendForest, findFallback,
    forestIntoStateMachine, buildForestFromPattern, stepMatching and
    getTotalMatches) together with the proofs of its specification.

    Modelling conventions.
    - [size_t] is a 64-bit unsigned integer: a [Z] with the wrap-around
      written out ([wrap]).
    - [State *] and [Result *] are addresses into two arenas (the objects
      created by [new], in allocation order); [nullptr] is [None].  The
      match-record chains are shared between states through these addresses,
      exactly as in the source.
    - Undefined behaviour (a dangling or null dereference, a vector index out
      of range, a remainder by zero) and loops that do not finish are
      outcomes of their own, see [outcome]. *)

From Stdlib Require Import Strings.Byte.
From stdpp Require Import list.
From Stdlib Require Import Sorted.

Local Open Scope Z_scope.

(** ** Outcomes of a run *)

Inductive fault : Type :=
  | OutOfFuel      (* a loop was cut off by the model's step budget *)
  | BadPointer     (* dereference of an address that holds no object *)
  | OutOfRange     (* operator[] past the end of a vector *)
  | DivideByZero   (* x % 0 *)
  | WrapAround.    (* only raised by the trapping subtraction [sub_trap] *)

Inductive outcome (A : Type) : Type :=
  | Done (a : A)
  | Fail (e : fault).
Arguments Done {A} a.
Arguments Fail {A} e.

Definition bind {A B : Type} (m : outcome A) (k : A -> outcome B) : outcome B :=
  match m with
  | Done a => k a
  | Fail e => Fail e
  end.

Declare Scope outcome_scope.
Delimit Scope outcome_scope with outcome.
Notation "x <- m ;; k" := (bind m (fun x => k))
  (at level 100, m at next level, right associativity,
   format "'[v' x  <-  m  ;; '/' k ']'") : outcome_scope.
Local Open Scope outcome_scope.

(** ** Machine integers *)

Definition size_max : Z := 2 ^ 64.

Definition wrap (z : Z) : Z := z mod size_max.

(** Unsigned addition of [size_t]. *)
Definition uadd (a b : Z) : Z := wrap (a + b).

(** Unsigned subtraction as C++ defines it: modulo 2^64. *)
Definition sub_wrap (a b : Z) : outcome Z := Done (wrap (a - b)).

(** Unsigned subtraction that refuses to wrap. *)
Definition sub_trap (a b : Z) : outcome Z :=
  if bool_decide (b <= a) then Done (a - b) else Fail WrapAround.

(** [x % m] on [size_t]. *)
Definition urem (x m : Z) : outcome Z :=
  if bool_decide (m = 0) then Fail DivideByZero else Done (x mod m).

(** [v[i]] of a [std::vector]. *)
Definition vec_at {A : Type} (v : list A) (i : Z) : outcome A :=
  if bool_decide (0 <= i) then
    match v !! Z.to_nat i with
    | Some x => Done x
    | None => Fail OutOfRange
    end
  else Fail OutOfRange.

(** [v[i] = x] of a [std::vector]. *)
Definition vec_set {A : Type} (v : list A) (i : Z) (x : A) : outcome (list A) :=
  if bool_decide (0 <= i < Z.of_nat (length v)) then Done (<[Z.to_nat i := x]> v)
  else Fail OutOfRange.

(** ** The automaton's data *)

Global Instance byte_eq_dec : EqDecision byte := Byte.byte_eq_dec.

(** [struct Result { size_t pat_idx; size_t length; Result *next; }] *)
Record Result : Type := mkResult {
  pat_idx : Z;
  r_length : Z;
  next : option nat
}.

(** [struct Transition { char ch; State *dest; }] *)
Record Transition : Type := mkTransition {
  t_ch : byte;
  dest : nat
}.

(** [Result **]: the place a state's [results_back] points to, either the
    state's own [results] field or the [next] field of a record. *)
Inductive back : Type :=
  | BackOwn
  | BackNext (r : nat).

(** [struct State] *)
Record State : Type := mkState {
  transitions : list Transition;
  fallback : option nat;
  results : option nat;
  results_back : back
}.

(** [State {}] *)
Definition State_new : State :=
  {| transitions := []; fallback := None; results := None; results_back := BackOwn |}.

(** The objects allocated so far. *)
Record Heap : Type := mkHeap {
  states : list State;
  records : list Result
}.

Definition Heap_empty : Heap := {| states := []; records := [] |}.

Definition get_state (h : Heap) (s : nat) : outcome State :=
  match states h !! s with
  | Some st => Done st
  | None => Fail BadPointer
  end.

Definition get_record (h : Heap) (r : nat) : outcome Result :=
  match records h !! r with
  | Some x => Done x
  | None => Fail BadPointer
  end.

Definition set_state (h : Heap) (s : nat) (st : State) : outcome Heap :=
  if bool_decide (s < length (states h))%nat
  then Done {| states := <[s := st]> (states h); records := records h |}
  else Fail BadPointer.

Definition set_record (h : Heap) (r : nat) (x : Result) : outcome Heap :=
  if bool_decide (r < length (records h))%nat
  then Done {| states := states h; records := <[r := x]> (records h) |}
  else Fail BadPointer.

(** [new State {}] *)
Definition alloc_state (h : Heap) : Heap * nat :=
  ({| states := states h ++ [State_new]; records := records h |},
   length (states h)).

(** [new Result {pat_idx, length, nullptr}] *)
Definition alloc_record (h : Heap) (x : Result) : Heap * nat :=
  ({| states := states h; records := records h ++ [x] |},
   length (records h)).

(** [*stt->results_back = p]: store through the back pointer of [stt]. *)
Definition store_back (h : Heap) (stt : nat) (p : option nat) : outcome Heap :=
  st <- get_state h stt ;;
  match results_back st with
  | BackOwn =>
      set_state h stt
        {| transitions := transitions st; fallback := fallback st;
           results := p; results_back := results_back st |}
  | BackNext r =>
      x <- get_record h r ;;
      set_record h r {| pat_idx := pat_idx x; r_length := r_length x; next := p |}
  end.

(** [addResult] *)
Definition addResult (h : Heap) (stt : nat) (idx len : Z) : outcome Heap :=
  let '(h1, nr) := alloc_record h {| pat_idx := idx; r_length := len; next := None |} in
  h2 <- store_back h1 stt (Some nr) ;;
  st <- get_state h2 stt ;;
  set_state h2 stt
    {| transitions := transitions st; fallback := fallback st;
       results := results st; results_back := BackNext nr |}.

(** [findTransition]: the first transition on [c]. *)
Fixpoint findTransition_in (ts : list Transition) (c : byte) : option Transition :=
  match ts with
  | [] => None
  | t :: ts' => if bool_decide (t_ch t = c) then Some t else findTransition_in ts' c
  end.

Definition findTransition (st : State) (c : byte) : option Transition :=
  findTransition_in (transitions st) c.

(** The loop of [extendForest]: walk [chars] from [s], creating the states
    that are missing; returns the final state. *)
Fixpoint extendForest_walk (h : Heap) (s : nat) (chars : list byte)
  : outcome (Heap * nat) :=
  match chars with
  | [] => Done (h, s)
  | c :: rest =>
      st <- get_state h s ;;
      match findTransition st c with
      | Some t => extendForest_walk h (dest t) rest
      | None =>
          let '(h1, ns) := alloc_state h in
          h2 <- set_state h1 s
                  {| transitions := transitions st ++ [{| t_ch := c; dest := ns |}];
                     fallback := fallback st; results := results st;
                     results_back := results_back st |} ;;
          extendForest_walk h2 ns rest
      end
  end.

(** [extendForest(root, chars, len, idx)]; the pair [(chars, len)] of the
    source is the byte sequence [chars[0 .. len)]. *)
Definition extendForest (h : Heap) (root : nat) (chars : list byte) (idx : Z)
  : outcome Heap :=
  hs <- extendForest_walk h root chars ;;
  addResult hs.1 hs.2 idx (Z.of_nat (length chars)).

(** [findFallback]: follow [fallback] from [parent] until a state has a
    transition on [c]. *)
Fixpoint findFallback (fuel : nat) (h : Heap) (p : option nat) (c : byte)
  : outcome (option nat) :=
  match p with
  | None => Done None
  | Some a =>
      match fuel with
      | O => Fail OutOfFuel
      | S fuel' =>
          st <- get_state h a ;;
          match findTransition st c with
          | Some t => Done (Some (dest t))
          | None => findFallback fuel' h (fallback st) c
          end
      end
  end.

(** The body of [for (auto &t: s->transitions)] in [forestIntoStateMachine]. *)
Definition forest_link (fuel : nat) (root : nat) (sf : option nat)
    (hq : Heap * list nat) (t : Transition) : outcome (Heap * list nat) :=
  let '(h, q) := hq in
  let d := dest t in
  let q := q ++ [d] in
  df <- findFallback fuel h sf (t_ch t) ;;
  let f := match df with Some x => x | None => root end in
  dst <- get_state h d ;;
  h1 <- set_state h d
          {| transitions := transitions dst; fallback := Some f;
             results := results dst; results_back := results_back dst |} ;;
  fst <- get_state h1 f ;;
  h2 <- store_back h1 d (results fst) ;;
  Done (h2, q).

Fixpoint forest_links (fuel : nat) (root : nat) (sf : option nat)
    (hq : Heap * list nat) (ts : list Transition) : outcome (Heap * list nat) :=
  match ts with
  | [] => Done hq
  | t :: ts' =>
      hq1 <- forest_link fuel root sf hq t ;;
      forest_links fuel root sf hq1 ts'
  end.

(** The [while (!q.empty())] loop. *)
Fixpoint forest_bfs (fuel : nat) (budget : nat) (root : nat) (h : Heap) (q : list nat)
  : outcome Heap :=
  match q with
  | [] => Done h
  | s :: q' =>
      match budget with
      | O => Fail OutOfFuel
      | S budget' =>
          st <- get_state h s ;;
          hq <- forest_links fuel root (fallback st) (h, q') (transitions st) ;;
          forest_bfs fuel budget' root hq.1 hq.2
      end
  end.

(** [forestIntoStateMachine] *)
Definition forestIntoStateMachine (fuel : nat) (h : Heap) (root : nat) : outcome Heap :=
  forest_bfs fuel fuel root h [root].

(** ** Patterns *)

(** [struct PartInfo { size_t offset; const char *chars; size_t length; }];
    [chars] holds the [length] bytes the pointer designates. *)
Record PartInfo : Type := mkPartInfo {
  offset : Z;
  chars : list byte
}.

Definition part_length (p : PartInfo) : Z := Z.of_nat (length (chars p)).

(** [struct Complement { size_t index; char ch; }] *)
Record Complement : Type := mkComplement {
  index : Z;
  c_ch : byte
}.

(** [struct Pattern] *)
Record Pattern : Type := mkPattern {
  parts : list PartInfo;
  complement : list Complement;
  p_length : Z
}.

(** The first loop of [buildForestFromPattern], from index [i]. *)
Fixpoint build_parts (h : Heap) (root : nat) (i : Z) (ps : list PartInfo)
  : outcome Heap :=
  match ps with
  | [] => Done h
  | part :: ps' =>
      h1 <- extendForest h root (chars part) i ;;
      build_parts h1 root (i + 1) ps'
  end.

(** The second loop of [buildForestFromPattern], from index [i]. *)
Fixpoint build_complements (h : Heap) (root : nat) (n i : Z) (cs : list Complement)
  : outcome Heap :=
  match cs with
  | [] => Done h
  | c :: cs' =>
      h1 <- extendForest h root [c_ch c] (uadd n i) ;;
      build_complements h1 root n (i + 1) cs'
  end.

(** [buildForestFromPattern] *)
Definition buildForestFromPattern (pat : Pattern) : outcome (Heap * nat) :=
  let '(h0, root) := alloc_state Heap_empty in
  let n := Z.of_nat (length (parts pat)) in
  h1 <- build_parts h0 root 0 (parts pat) ;;
  h2 <- build_complements h1 root n 0 (complement pat) ;;
  Done (h2, root).

(** ** The scanner *)

(** [stepMatching]: the new value of [*cs] and the returned flag. *)
Fixpoint stepMatching (fuel : nat) (h : Heap) (cs : nat) (c : byte)
  : outcome (nat * bool) :=
  match fuel with
  | O => Fail OutOfFuel
  | S fuel' =>
      st <- get_state h cs ;;
      match findTransition st c with
      | Some t => Done (dest t, true)
      | None =>
          match fallback st with
          | Some f => stepMatching fuel' h f c
          | None => Done (cs, false)
          end
      end
  end.

(** The locals of [getTotalMatches] that live across iterations. *)
Record Scan : Type := mkScan {
  partial_matches : list Z;
  disabled : list bool;
  match_shift : Z;
  matches : list Z;
  cs : nat
}.

Section Scanner.

(** The semantics of unsigned subtraction: [sub_wrap] is the program. *)
Variable usub : Z -> Z -> outcome Z.

Variable pat : Pattern.
Variable str_len : Z.

Definition n_parts : Z := Z.of_nat (length (parts pat)).

(** The body of [for (Result *r = cs->results; r; r = r->next)] at text
    position [i]. *)
Definition scan_record (i : Z) (sc : Scan) (r : Result) : outcome Scan :=
  let is_complement := bool_decide (n_parts <= pat_idx r) in
  total_off <-
    (if is_complement then
       c_idx <- usub (pat_idx r) n_parts ;;
       c <- vec_at (complement pat) c_idx ;;
       Done (index c)
     else
       part <- vec_at (parts pat) (pat_idx r) ;;
       usub (uadd (offset part) (r_length r)) 1) ;;
  if bool_decide (i < total_off) then Done sc
  else
    start <- usub i total_off ;;
    if bool_decide (uadd start (p_length pat) > str_len) then Done sc
    else
      d <- usub (uadd (p_length pat) (match_shift sc)) total_off ;;
      idx <- urem d (p_length pat) ;;
      if is_complement then
        dis <- vec_set (disabled sc) idx true ;;
        Done {| partial_matches := partial_matches sc; disabled := dis;
                match_shift := match_shift sc; matches := matches sc; cs := cs sc |}
      else
        off <- vec_at (disabled sc) idx ;;
        if negb off then
          n <- vec_at (partial_matches sc) idx ;;
          pm <- vec_set (partial_matches sc) idx (uadd n 1) ;;
          Done {| partial_matches := pm; disabled := disabled sc;
                  match_shift := match_shift sc; matches := matches sc; cs := cs sc |}
        else Done sc.

(** [for (Result *r = p; r; r = r->next)] *)
Fixpoint scan_records (fuel : nat) (h : Heap) (i : Z) (sc : Scan) (p : option nat)
  : outcome Scan :=
  match p with
  | None => Done sc
  | Some a =>
      match fuel with
      | O => Fail OutOfFuel
      | S fuel' =>
          r <- get_record h a ;;
          sc1 <- scan_record i sc r ;;
          scan_records fuel' h i sc1 (next r)
      end
  end.

(** One iteration of [for (size_t i = 0; i < str_len; ++i)]; [c] is
    [str[i]]. *)
Definition scan_char (fuel : nat) (h : Heap) (i : Z) (sc : Scan) (c : byte)
  : outcome Scan :=
  pm <- vec_set (partial_matches sc) (match_shift sc) 0 ;;
  dis <- vec_set (disabled sc) (match_shift sc) false ;;
  stp <- stepMatching fuel h (cs sc) c ;;
  let cs1 := stp.1 in
  let found := stp.2 in
  let sc1 := {| partial_matches := pm; disabled := dis;
                match_shift := match_shift sc; matches := matches sc; cs := cs1 |} in
  sc2 <- (if found then
            st <- get_state h cs1 ;;
            scan_records fuel h i sc1 (results st)
          else Done sc1) ;;
  let shift1 := uadd (match_shift sc2) 1 in
  let shift2 := if bool_decide (shift1 = p_length pat) then 0 else shift1 in
  if bool_decide (uadd i 1 >= p_length pat) then
    off <- vec_at (disabled sc2) shift2 ;;
    if negb off then
      n <- vec_at (partial_matches sc2) shift2 ;;
      if bool_decide (n = n_parts) then
        start <- usub (uadd i 1) (p_length pat) ;;
        Done {| partial_matches := partial_matches sc2; disabled := disabled sc2;
                match_shift := shift2; matches := matches sc2 ++ [start];
                cs := cs sc2 |}
      else
        Done {| partial_matches := partial_matches sc2; disabled := disabled sc2;
                match_shift := shift2; matches := matches sc2; cs := cs sc2 |}
    else
      Done {| partial_matches := partial_matches sc2; disabled := disabled sc2;
              match_shift := shift2; matches := matches sc2; cs := cs sc2 |}
  else
    Done {| partial_matches := partial_matches sc2; disabled := disabled sc2;
            match_shift := shift2; matches := matches sc2; cs := cs sc2 |}.

(** The outer loop from position [i] over the rest of the text. *)
Fixpoint scan_loop (fuel : nat) (h : Heap) (i : Z) (sc : Scan) (rest : list byte)
  : outcome Scan :=
  match rest with
  | [] => Done sc
  | c :: rest' =>
      sc1 <- scan_char fuel h i sc c ;;
      scan_loop fuel h (i + 1) sc1 rest'
  end.

End Scanner.

(** [getTotalMatches], for a given semantics of subtraction. *)
Definition getTotalMatches_with (usub : Z -> Z -> outcome Z)
    (fuel : nat) (h : Heap) (root : nat) (pat : Pattern) (str : list byte)
  : outcome (list Z) :=
  let str_len := Z.of_nat (length str) in
  let sc0 := {| partial_matches := replicate (Z.to_nat (p_length pat)) 0;
                disabled := replicate (Z.to_nat (p_length pat)) false;
                match_shift := 0; matches := []; cs := root |} in
  sc <- scan_loop usub pat str_len fuel h 0 sc0 str ;;
  Done (matches sc).

(** [getTotalMatches] *)
Definition getTotalMatches := getTotalMatches_with sub_wrap.

(** What [main] does between reading the input and printing: build, compile,
    scan. *)
Definition search (fuel : nat) (pat : Pattern) (str : list byte) : outcome (list Z) :=
  hr <- buildForestFromPattern pat ;;
  h <- forestIntoStateMachine fuel hr.1 hr.2 ;;
  getTotalMatches fuel h hr.2 pat str.


(** ** Specification-level notions *)

(** The byte strings inserted into the trie, with their identifiers, in
    insertion order. *)
Fixpoint part_words (i : Z) (ps : list PartInfo) : list (Z * list byte) :=
  match ps with
  | [] => []
  | p :: ps' => (i, chars p) :: part_words (i + 1) ps'
  end.

Fixpoint complement_words (n i : Z) (cs : list Complement) : list (Z * list byte) :=
  match cs with
  | [] => []
  | c :: cs' => (uadd n i, [c_ch c]) :: complement_words n (i + 1) cs'
  end.

Definition pattern_words (pat : Pattern) : list (Z * list byte) :=
  part_words 0 (parts pat)
  ++ complement_words (Z.of_nat (length (parts pat))) 0 (complement pat).

(** The number of bytes in a list of words. *)
Fixpoint total_length (ws : list (Z * list byte)) : nat :=
  match ws with
  | [] => 0
  | iw :: ws' => length iw.2 + total_length ws'
  end.

(** A step budget that suffices for every loop on the automaton of [pat]:
    more than the number of states and more than the number of records. *)
Definition pattern_fuel (pat : Pattern) : nat :=
  2 + total_length (pattern_words pat) + length (pattern_words pat).

(** [seg h p ids q]: starting from the pointer [p], the records [ids] are
    linked through [next] in this order, and the last [next] (or [p] itself
    when [ids] is empty) holds [q]. *)
Fixpoint seg (h : Heap) (p : option nat) (ids : list nat) (q : option nat) : Prop :=
  match ids with
  | [] => p = q
  | r :: ids' => p = Some r /\ exists x, records h !! r = Some x /\ seg h (next x) ids' q
  end.

(** [chain h p xs]: the null-terminated list starting at [p] holds exactly the
    records [xs]. *)
Fixpoint chain (h : Heap) (p : option nat) (xs : list Result) : Prop :=
  match xs with
  | [] => p = None
  | x :: xs' => exists r, p = Some r /\ records h !! r = Some x /\ chain h (next x) xs'
  end.

(** The value stored in the place [results_back] designates. *)
Definition tail_ptr (h : Heap) (st : State) : option nat :=
  match results_back st with
  | BackOwn => results st
  | BackNext r => match records h !! r with Some x => next x | None => None end
  end.

Definition back_of (ids : list nat) : back :=
  match last ids with
  | None => BackOwn
  | Some r => BackNext r
  end.

(** The records a state owns carry the identifiers of the inserted words that
    end in this state, in insertion order. *)
Definition own_values (h : Heap) (ids : list nat) (w : list byte)
    (ws : list (Z * list byte)) : Prop :=
  Forall2 (fun r iw => exists x, records h !! r = Some x /\ pat_idx x = iw.1
                                 /\ r_length x = Z.of_nat (length w))
          ids (filter (fun iw => iw.2 = w) ws).

(** The trie invariant.  [paths] gives each state the byte string that leads
    to it from the root (state 0), [owns] the addresses of the records
    inserted at it, and [ws] the inserted words. *)
Record trie (h : Heap) (paths : list (list byte)) (owns : list (list nat))
    (ws : list (Z * list byte)) : Prop := {
  trie_len : length paths = length (states h);
  trie_olen : length owns = length (states h);
  trie_root : paths !! 0%nat = Some [];
  trie_nodup : NoDup paths;
  trie_short : forall s w, paths !! s = Some w -> (length w < length (states h))%nat;
  trie_trans : forall s st w t,
    states h !! s = Some st -> paths !! s = Some w -> t ∈ transitions st ->
    paths !! dest t = Some (w ++ [t_ch t]);
  trie_trans_nodup : forall s st,
    states h !! s = Some st -> NoDup (t_ch <$> transitions st);
  trie_parent : forall d w c,
    paths !! d = Some (w ++ [c]) ->
    exists s st, paths !! s = Some w /\ states h !! s = Some st
                 /\ {| t_ch := c; dest := d |} ∈ transitions st;
  trie_own_nodup : forall s ids, owns !! s = Some ids -> NoDup ids;
  trie_own_disj : forall s1 s2 ids1 ids2 r,
    owns !! s1 = Some ids1 -> owns !! s2 = Some ids2 ->
    r ∈ ids1 -> r ∈ ids2 -> s1 = s2;
  trie_own_valid : forall s ids r,
    owns !! s = Some ids -> r ∈ ids -> (r < length (records h))%nat;
  trie_own_back : forall s st ids,
    states h !! s = Some st -> owns !! s = Some ids -> results_back st = back_of ids;
  trie_own_seg : forall s st ids,
    states h !! s = Some st -> owns !! s = Some ids ->
    seg h (results st) ids (tail_ptr h st);
  trie_own_values : forall s ids w,
    owns !! s = Some ids -> paths !! s = Some w -> own_values h ids w ws;
  trie_words : forall iw, iw ∈ ws -> iw.2 ∈ paths
}.

(** Before compilation no state has a fallback and every record list ends in
    a null pointer. *)
Definition fresh (h : Heap) : Prop :=
  forall s st, states h !! s = Some st -> fallback st = None /\ tail_ptr h st = None.

(** The state created by [extendForest] for a missing transition. *)
Definition add_child (h : Heap) (s : nat) (st : State) (c : byte) : Heap :=
  {| states := <[s := {| transitions := transitions st
                                          ++ [{| t_ch := c; dest := length (states h) |}];
                         fallback := fallback st; results := results st;
                         results_back := results_back st |}]>
                 (states h ++ [State_new]);
     records := records h |}.

Definition with_next (x : Result) (p : option nat) : Result :=
  {| pat_idx := pat_idx x; r_length := r_length x; next := p |}.

(** The heap [addResult] produces. *)
Definition added (h : Heap) (s : nat) (st : State) (idx len : Z) : Heap :=
  let nr := length (records h) in
  let x := {| pat_idx := idx; r_length := len; next := None |} in
  match results_back st with
  | BackOwn =>
      {| states := <[s := {| transitions := transitions st; fallback := fallback st;
                             results := Some nr; results_back := BackNext nr |}]> (states h);
         records := records h ++ [x] |}
  | BackNext r =>
      match records h !! r with
      | Some y =>
          {| states := <[s := {| transitions := transitions st; fallback := fallback st;
                                 results := results st; results_back := BackNext nr |}]>
                         (states h);
             records := <[r := with_next y (Some nr)]> (records h ++ [x]) |}
      | None => h
      end
  end.

(** [u] is the longest proper suffix of [w] that is a path of the trie. *)
Definition is_lps (paths : list (list byte)) (w u : list byte) : Prop :=
  u `suffix_of` w /\ u <> w /\ u ∈ paths
  /\ forall v, v `suffix_of` w -> v <> w -> v ∈ paths -> (length v <= length u)%nat.

(** State [s] is compiled: the root keeps a null fallback and a
    null-terminated list; any other state falls back to the state of the
    longest proper suffix of its path, and its own records are followed by
    the list of that state. *)
Definition closed (h : Heap) (paths : list (list byte)) (s : nat) : Prop :=
  forall st w, states h !! s = Some st -> paths !! s = Some w ->
    (w = [] -> fallback st = None /\ tail_ptr h st = None)
    /\ (w <> [] ->
        exists f stf u, fallback st = Some f /\ states h !! f = Some stf
          /\ paths !! f = Some u /\ is_lps paths w u
          /\ tail_ptr h st = results stf).

Definition with_fallback (st : State) (f : option nat) : State :=
  {| transitions := transitions st; fallback := f;
     results := results st; results_back := results_back st |}.

Definition with_results (st : State) (p : option nat) : State :=
  {| transitions := transitions st; fallback := fallback st;
     results := p; results_back := results_back st |}.

(** The heap after [*stt->results_back = v]. *)
Definition stored (h : Heap) (s : nat) (st : State) (v : option nat) : Heap :=
  match results_back st with
  | BackOwn => {| states := <[s := with_results st v]> (states h); records := records h |}
  | BackNext r =>
      match records h !! r with
      | Some x => {| states := states h; records := <[r := with_next x v]> (records h) |}
      | None => h
      end
  end.

(** In the list [L] of the states met so far, every state comes after all
    states of smaller depth. *)
Definition level_ok (paths : list (list byte)) (L : list nat) : Prop :=
  forall i x y wx wy,
    L !! i = Some x -> paths !! x = Some wx -> paths !! y = Some wy ->
    (length wy < length wx)%nat -> exists j, (j < i)%nat /\ L !! j = Some y.

(** [L] holds every state of depth at most [n]. *)
Definition complete (paths : list (list byte)) (n : nat) (L : list nat) : Prop :=
  forall y wy, paths !! y = Some wy -> (length wy <= n)%nat -> y ∈ L.

(** The value [sf] of [s->fallback] read when the state with path [w] is
    taken from the queue. *)
Definition fallback_ok (paths : list (list byte)) (w : list byte) (sf : option nat)
  : Prop :=
  match sf with
  | None => w = []
  | Some f => exists u, paths !! f = Some u /\ is_lps paths w u
  end.

(** The invariant of the [while] loop: [D] are the states taken from the
    queue so far, [q] is the queue. *)
Record bfs_inv (h : Heap) (paths : list (list byte)) (D q : list nat) : Prop := {
  bi_nodup : NoDup (D ++ q);
  bi_root : 0%nat ∈ D ++ q;
  bi_origin : forall x, x ∈ D ++ q ->
    x = 0%nat \/ exists p st t, p ∈ D /\ states h !! p = Some st
                                /\ t ∈ transitions st /\ dest t = x;
  bi_children : forall p st t,
    p ∈ D -> states h !! p = Some st -> t ∈ transitions st -> dest t ∈ D ++ q;
  bi_level : level_ok paths (D ++ q);
  bi_closed : forall x, x ∈ D ++ q -> closed h paths x
}.

(** A compiled automaton over the words [ws]. *)
Definition automaton (h : Heap) (paths : list (list byte)) (owns : list (list nat))
    (ws : list (Z * list byte)) : Prop :=
  trie h paths owns ws /\ forall s, closed h paths s.

(** ** Reading the automaton *)

(** The state reached from [s] by following the transitions on the bytes of
    [w], if they all exist. *)
Fixpoint run (h : Heap) (s : nat) (w : list byte) : option nat :=
  match w with
  | [] => Some s
  | c :: w' =>
      match states h !! s with
      | Some st =>
          match findTransition st c with
          | Some t => run h (dest t) w'
          | None => None
          end
      | None => None
      end
  end.

Definition payload (x : Result) : Z * Z := (pat_idx x, r_length x).

(** The match records listed from [p], as [(pat_idx, length)] pairs:
    [for (Result *r = p; r; r = r->next)]. *)
Fixpoint collect (fuel : nat) (h : Heap) (p : option nat) : outcome (list (Z * Z)) :=
  match p with
  | None => Done []
  | Some a =>
      match fuel with
      | O => Fail OutOfFuel
      | S fuel' =>
          x <- get_record h a ;;
          l <- collect fuel' h (next x) ;;
          Done (payload x :: l)
      end
  end.

(** The states met from [s] by following [fallback] until it is null. *)
Fixpoint fallback_path (fuel : nat) (h : Heap) (s : nat) : outcome (list nat) :=
  match fuel with
  | O => Fail OutOfFuel
  | S fuel' =>
      st <- get_state h s ;;
      match fallback st with
      | None => Done [s]
      | Some f =>
          l <- fallback_path fuel' h f ;;
          Done (s :: l)
      end
  end.

(** The state the scanner is in after reading [text] from [s]. *)
Fixpoint scan_state (fuel : nat) (h : Heap) (s : nat) (text : list byte) : outcome nat :=
  match text with
  | [] => Done s
  | c :: text' =>
      r <- stepMatching fuel h s c ;;
      scan_state fuel h r.1 text'
  end.

(** [v] is the longest suffix of [t] that is a path of the trie. *)
Definition longest_suffix (paths : list (list byte)) (t v : list byte) : Prop :=
  v `suffix_of` t /\ v ∈ paths
  /\ forall v', v' `suffix_of` t -> v' ∈ paths -> (length v' <= length v)%nat.

(** The payload of the record inserted for a word. *)
Definition word_payload (iw : Z * list byte) : Z * Z := (iw.1, Z.of_nat (length iw.2)).

(** ** Well-formed patterns and what a match is *)

(** A literal fragment lies inside the pattern and is not empty. *)
Definition part_ok (len : Z) (p : PartInfo) : Prop :=
  0 <= offset p /\ chars p <> [] /\ offset p + part_length p <= len.

Definition complement_ok (len : Z) (c : Complement) : Prop :=
  0 <= index c < len.

(** No two literal fragments overlap. *)
Fixpoint parts_disjoint (ps : list PartInfo) : Prop :=
  match ps with
  | [] => True
  | p :: ps' =>
      Forall (fun q => offset p + part_length p <= offset q
                       \/ offset q + part_length q <= offset p) ps'
      /\ parts_disjoint ps'
  end.

(** The invariants of the data model. *)
Record Pattern_ok (pat : Pattern) : Prop := {
  ok_length : 0 < p_length pat;
  ok_parts : Forall (part_ok (p_length pat)) (parts pat);
  ok_complements : Forall (complement_ok (p_length pat)) (complement pat);
  ok_disjoint : parts_disjoint (parts pat);
  ok_distinct : NoDup (index <$> complement pat)
}.

(** The pattern's bookkeeping vectors and the text exist in memory: their
    sizes are below 2^63. *)
Definition in_memory (pat : Pattern) (str : list byte) : Prop :=
  p_length pat < 2 ^ 63 /\ Z.of_nat (length str) < 2 ^ 63.

(** The bytes of [text] from position [k] on start with [w]. *)
Definition at_pos (text : list byte) (k : Z) (w : list byte) : Prop :=
  0 <= k /\ take (length w) (drop (Z.to_nat k) text) = w.

(** The literal fragment [p] is present for the start offset [s]. *)
Definition part_at (text : list byte) (s : Z) (p : PartInfo) : Prop :=
  at_pos text (s + offset p) (chars p).

(** The forbidden character of [c] is present for the start offset [s]. *)
Definition complement_at (text : list byte) (s : Z) (c : Complement) : Prop :=
  0 <= s + index c /\ text !! Z.to_nat (s + index c) = Some (c_ch c).

(** The pattern occurs in [text] at start offset [s]. *)
Definition occurrence (pat : Pattern) (text : list byte) (s : Z) : Prop :=
  0 <= s /\ s + p_length pat <= Z.of_nat (length text)
  /\ Forall (part_at text s) (parts pat)
  /\ Forall (fun c => ~ complement_at text s c) (complement pat).

Global Instance occurrence_dec pat text s : Decision (occurrence pat text s).
Proof. unfold occurrence, part_at, complement_at, at_pos. apply _. Defined.

(** ** The bookkeeping of the scanner, abstractly *)

(** A semantics of subtraction that agrees with the integers whenever the
    result is not negative. *)
Definition usub_ok (usub : Z -> Z -> outcome Z) : Prop :=
  forall a b, 0 <= b <= a -> a < size_max -> usub a b = Done (a - b).

(** What a match record means to the scanner: whether it is a complement,
    and the offset in the pattern of the last byte of its word. *)
Definition event_of (pat : Pattern) (x : Z * Z) : option (bool * Z) :=
  let n := Z.of_nat (length (parts pat)) in
  if bool_decide (n <= x.1) then
    match complement pat !! Z.to_nat (x.1 - n) with
    | Some c => Some (true, index c)
    | None => None
    end
  else if bool_decide (0 <= x.1) then
    match parts pat !! Z.to_nat x.1 with
    | Some p => Some (false, offset p + x.2 - 1)
    | None => None
    end
  else None.

(** The effect of one record on the bookkeeping at text position [i]. *)
Definition apply_event (pat : Pattern) (str_len i : Z) (sc : Scan) (e : bool * Z) : Scan :=
  if bool_decide (i < e.2) then sc
  else if bool_decide (i - e.2 + p_length pat > str_len) then sc
  else
    let idx := Z.to_nat ((i - e.2) mod p_length pat) in
    if e.1 then
      {| partial_matches := partial_matches sc;
         disabled := <[idx := true]> (disabled sc);
         match_shift := match_shift sc; matches := matches sc; cs := cs sc |}
    else
      match disabled sc !! idx, partial_matches sc !! idx with
      | Some false, Some n =>
          {| partial_matches := <[idx := n + 1]> (partial_matches sc);
             disabled := disabled sc;
             match_shift := match_shift sc; matches := matches sc; cs := cs sc |}
      | _, _ => sc
      end.

(** The records the scanner meets at position [i]: one for each fragment
    and each complement character that ends there. *)
Definition events_at (pat : Pattern) (text : list byte) (i : Z) : list (bool * Z) :=
  ((fun p => (false, offset p + part_length p - 1))
     <$> filter (fun p => chars p `suffix_of` take (Z.to_nat (i + 1)) text) (parts pat))
  ++ ((fun c => (true, index c))
     <$> filter (fun c => [c_ch c] `suffix_of` take (Z.to_nat (i + 1)) text)
                (complement pat)).

(** A complement fired for start [s] at a position before [k]. *)
Definition fired_before (pat : Pattern) (text : list byte) (k s : Z) : Prop :=
  exists c, c ∈ complement pat /\ s + index c < k /\ complement_at text s c.

(** The fragments present for start [s] that end before position [k]. *)
Definition matched_before (pat : Pattern) (text : list byte) (k s : Z) : list PartInfo :=
  filter (fun p => s + offset p + part_length p - 1 < k /\ part_at text s p) (parts pat).

(** The slot of start [s] reflects the text before position [k]. *)
Definition slot_ok (pat : Pattern) (text : list byte) (k s : Z)
    (pm : list Z) (dis : list bool) : Prop :=
  exists d n,
    dis !! Z.to_nat (s mod p_length pat) = Some d
    /\ pm !! Z.to_nat (s mod p_length pat) = Some n
    /\ (d = true <-> fired_before pat text k s)
    /\ (d = false -> n = Z.of_nat (length (matched_before pat text k s))).

(** The slot of start [s] while the records of position [i] are processed;
    [E] lists the events handled so far at this position. *)
Definition slot_mid (pat : Pattern) (text : list byte) (i : Z) (E : list (bool * Z))
    (s : Z) (pm : list Z) (dis : list bool) : Prop :=
  exists d n,
    dis !! Z.to_nat (s mod p_length pat) = Some d
    /\ pm !! Z.to_nat (s mod p_length pat) = Some n
    /\ (d = true <-> fired_before pat text i s
                      \/ exists e, e ∈ E /\ e.1 = true /\ e.2 = i - s)
    /\ (d = false ->
        n = Z.of_nat (length (matched_before pat text i s))
            + Z.of_nat (length (filter (fun e : bool * Z => e.1 = false /\ e.2 = i - s) E))).

(** The invariant of the outer loop of [getTotalMatches] when [i] bytes
    have been read. *)
Record scan_inv (pat : Pattern) (text : list byte) (paths : list (list byte))
    (i : Z) (sc : Scan) : Prop := {
  si_pm : length (partial_matches sc) = Z.to_nat (p_length pat);
  si_dis : length (disabled sc) = Z.to_nat (p_length pat);
  si_shift : match_shift sc = i mod p_length pat;
  si_cs : exists v, paths !! cs sc = Some v
                    /\ longest_suffix paths (take (Z.to_nat i) text) v;
  si_matches : matches sc = filter (occurrence pat text) (seqZ 0 (i - p_length pat + 1));
  si_slots : forall s, 0 <= s -> i - p_length pat <= s < i ->
                       s + p_length pat <= Z.of_nat (length text) ->
                       slot_ok pat text i s (partial_matches sc) (disabled sc)
}.

(** The end of an iteration of the outer loop: advance [match_shift] and
    report the start whose window closes at position [i]. *)
Definition scan_emit (usub : Z -> Z -> outcome Z) (pat : Pattern) (i : Z) (sc2 : Scan)
  : outcome Scan :=
  let shift1 := uadd (match_shift sc2) 1 in
  let shift2 := if bool_decide (shift1 = p_length pat) then 0 else shift1 in
  if bool_decide (uadd i 1 >= p_length pat) then
    off <- vec_at (disabled sc2) shift2 ;;
    if negb off then
      n <- vec_at (partial_matches sc2) shift2 ;;
      if bool_decide (n = n_parts pat) then
        start <- usub (uadd i 1) (p_length pat) ;;
        Done {| partial_matches := partial_matches sc2; disabled := disabled sc2;
                match_shift := shift2; matches := matches sc2 ++ [start];
                cs := cs sc2 |}
      else
        Done {| partial_matches := partial_matches sc2; disabled := disabled sc2;
                match_shift := shift2; matches := matches sc2; cs := cs sc2 |}
    else
      Done {| partial_matches := partial_matches sc2; disabled := disabled sc2;
              match_shift := shift2; matches := matches sc2; cs := cs sc2 |}
  else
    Done {| partial_matches := partial_matches sc2; disabled := disabled sc2;
            match_shift := shift2; matches := matches sc2; cs := cs sc2 |}.

(** ** The naive substring search of the specification

    Not part of the program: the reference the scanner is compared with for
    patterns that are one literal string. *)

(** Compare the needle with the text byte by byte. *)
Fixpoint starts_with (needle text : list byte) : bool :=
  match needle, text with
  | [], _ => true
  | _ :: _, [] => false
  | a :: needle', b :: text' => bool_decide (a = b) && starts_with needle' text'
  end.

(** Try every start offset of [text] in turn; [s] is the offset of the first
    byte of [text] in the whole search text. *)
Fixpoint naive_search (needle text : list byte) (s : Z) : list Z :=
  match text with
  | [] => []
  | _ :: text' =>
      (if starts_with needle text then [s] else []) ++ naive_search needle text' (s + 1)
  end.

(** The pattern that is the single literal string [w]. *)
Definition literal_pattern (w : list byte) : Pattern :=
  {| parts := [ {| offset := 0; chars := w |} ]; complement := [];
     p_length := Z.of_nat (length w) |}.

(** The pattern of [len] wildcards. *)
Definition wildcard_pattern (len : Z) : Pattern :=
  {| parts := []; complement := []; p_length := len |}.

(** The empty pattern. *)
Definition empty_pattern : Pattern :=
  {| parts := []; complement := []; p_length := 0 |}.

(** ** Sample inputs *)

Local Open Scope byte_scope.

(** The pattern of length 4 with the fragments [ab] at offset 0 and [c] at
    offset 3 and the complement "not z" at offset 2. *)
Definition sample_pattern_not_z : Pattern :=
  {| parts := [ {| offset := 0; chars := ["a"; "b"] |};
                {| offset := 3; chars := ["c"] |} ];
     complement := [ {| index := 2; c_ch := "z" |} ]; p_length := 4 |}.

Definition sample_text : list byte := ["x"; "a"; "b"; "z"; "c"; "a"; "b"; "q"; "c"].

(** A pattern that breaks the data model: both complements lie outside the
    pattern and share their offset. *)
Definition malformed_pattern : Pattern :=
  {| parts := [];
     complement := [ {| index := 5; c_ch := "a" |}; {| index := 5; c_ch := "b" |} ];
     p_length := 2 |}.

Local Close Scope byte_scope.

(** ** The parser, the release of the automaton and the program *)

(** [hd[i]] for [hd = pat.c_str()]: the bytes of the string, then the
    terminating zero; what follows is outside the array. *)
Definition c_str_at (pat : list byte) (i : nat) : outcome byte :=
  match pat !! i with
  | Some c => Done c
  | None => if bool_decide (i = length pat) then Done "000"%byte else Fail OutOfRange
  end.

(** The loop [for (char c = *end;; c = *++end)] of [createPatternStructure],
    from the position [e]: the first position whose byte is zero, the
    wildcard or the complement marker. *)
Fixpoint literal_end (fuel : nat) (pat : list byte) (wildcard complement : byte) (e : nat)
  : outcome nat :=
  match fuel with
  | O => Fail OutOfFuel
  | S fuel' =>
      c <- c_str_at pat e ;;
      if bool_decide (c = "000"%byte \/ c = wildcard \/ c = complement) then Done e
      else literal_end fuel' pat wildcard complement (S e)
  end.

(** [for (; *pc == wildcard; ++pc);] *)
Fixpoint skip_wildcards (fuel : nat) (pat : list byte) (wildcard : byte) (pc : nat)
  : outcome nat :=
  match fuel with
  | O => Fail OutOfFuel
  | S fuel' =>
      c <- c_str_at pat pc ;;
      if bool_decide (c = wildcard) then skip_wildcards fuel' pat wildcard (S pc)
      else Done pc
  end.

(** The [while (pc < hd + pat.size())] loop of [createPatternStructure] and
    the [return] after it; [ps], [compls], [extra_offset] and [pc] are the
    locals of the source, positions being counted from [hd]. *)
Fixpoint createPattern_loop (fuel : nat) (pat : list byte) (wildcard complement : byte)
    (ps : list PartInfo) (compls : list Complement) (extra_offset : Z) (pc : nat)
  : outcome Pattern :=
  if bool_decide (pc < length pat)%nat then
    match fuel with
    | O => Fail OutOfFuel
    | S fuel' =>
        e <- literal_end fuel pat wildcard complement pc ;;
        let ps1 :=
          if bool_decide (e <> pc) then
            ps ++ [ {| offset := wrap (Z.of_nat pc - extra_offset);
                       chars := take (e - pc) (drop pc pat) |} ]
          else ps in
        marker <- (if bool_decide (complement <> "000"%byte) then
                     c <- c_str_at pat e ;; Done (bool_decide (c = complement))
                   else Done false) ;;
        nx <- (if marker : bool then
                 ch <- c_str_at pat (S e) ;;
                 Done (compls ++ [ {| index := wrap (Z.of_nat e - extra_offset);
                                      c_ch := ch |} ],
                       uadd extra_offset 1, (e + 2)%nat)
               else Done (compls, extra_offset, e)) ;;
        pc2 <- skip_wildcards fuel pat wildcard nx.2 ;;
        createPattern_loop fuel' pat wildcard complement ps1 nx.1.1 nx.1.2 pc2
    end
  else
    Done {| parts := ps; complement := compls;
            p_length := wrap (Z.of_nat (length pat) - extra_offset) |}.

(** [createPatternStructure] *)
Definition createPatternStructure (fuel : nat) (pat : list byte) (wildcard complement : byte)
  : outcome Pattern :=
  createPattern_loop fuel pat wildcard complement [] [] 0 0.

(** What one position of a pattern asks of the text. *)
Inductive Item : Type :=
  | Lit (c : byte)     (* this byte *)
  | Any                (* any byte *)
  | Not (c : byte).    (* any byte but this one *)

(** The pattern line read position by position: the complement marker takes
    the byte after it, which must exist. *)
Fixpoint tokenize (wildcard complement : byte) (l : list byte) : option (list Item) :=
  match l with
  | [] => Some []
  | c :: l' =>
      if bool_decide (c = complement) then
        match l' with
        | [] => None
        | d :: l'' => cons (Not d) <$> tokenize wildcard complement l''
        end
      else if bool_decide (c = wildcard) then cons Any <$> tokenize wildcard complement l'
      else cons (Lit c) <$> tokenize wildcard complement l'
  end.

Definition item_at (text : list byte) (k : Z) (it : Item) : Prop :=
  match it with
  | Lit c => 0 <= k /\ text !! Z.to_nat k = Some c
  | Any => True
  | Not c => ~ (0 <= k /\ text !! Z.to_nat k = Some c)
  end.

(** The items hold for the text from position [k] on. *)
Fixpoint items_at (text : list byte) (k : Z) (its : list Item) : Prop :=
  match its with
  | [] => True
  | it :: its' => item_at text k it /\ items_at text (k + 1) its'
  end.

(** The items match the window of the text that starts at [s]. *)
Definition matches_at (its : list Item) (text : list byte) (s : Z) : Prop :=
  0 <= s /\ s + Z.of_nat (length its) <= Z.of_nat (length text) /\ items_at text s its.

(** A byte that belongs to a literal fragment. *)
Definition literal (wildcard complement : byte) (c : byte) : Prop :=
  c <> "000"%byte /\ c <> wildcard /\ c <> complement.

(** What the parser has built represents the items read so far. *)
Record repr (its : list Item) (ps : list PartInfo) (compls : list Complement) : Prop := {
  rp_parts : Forall (part_ok (Z.of_nat (length its))) ps;
  rp_compls : Forall (complement_ok (Z.of_nat (length its))) compls;
  rp_disjoint : parts_disjoint ps;
  rp_distinct : NoDup (index <$> compls);
  rp_size : (sum_list_with (fun q => length (chars q)) ps + length ps + 2 * length compls
             <= 2 * length its)%nat;
  rp_sem : forall text s, 0 <= s ->
    Forall (part_at text s) ps /\ Forall (fun c => ~ complement_at text s c) compls
    <-> items_at text s its
}.

(** What stops the scan of a literal fragment. *)
Definition stops (wildcard complement : byte) (tail : list byte) : Prop :=
  match tail with
  | [] => True
  | c :: _ => ~ literal wildcard complement c
  end.

(** What the loop returns from a state that represents [its], by the items
    [o] of the rest of the line: a pattern for all the items, or a read
    outside the string when the line ends in the complement marker. *)
Definition parsed (its : list Item) (o : option (list Item)) (r : outcome Pattern) : Prop :=
  match o with
  | Some rits =>
      exists p, r = Done p /\ repr (its ++ rits) (parts p) (complement p)
                /\ p_length p = Z.of_nat (length (its ++ rits))
  | None => r = Fail OutOfRange
  end.

(** The arenas together with the addresses that [delete] has released, in
    the order of their release. *)
Record Memory : Type := mkMemory {
  heap : Heap;
  freed_states : list nat;
  freed_records : list nat
}.

(** Reading a state through a pointer: the object must not have been
    released. *)
Definition live_state (m : Memory) (s : nat) : outcome State :=
  if bool_decide (s ∈ freed_states m) then Fail BadPointer else get_state (heap m) s.

Definition live_record (m : Memory) (r : nat) : outcome Result :=
  if bool_decide (r ∈ freed_records m) then Fail BadPointer else get_record (heap m) r.

(** [delete s] for a state. *)
Definition delete_state (m : Memory) (s : nat) : outcome Memory :=
  _ <- live_state m s ;;
  Done {| heap := heap m; freed_states := freed_states m ++ [s];
          freed_records := freed_records m |}.

(** [delete r] for a match record. *)
Definition delete_record (m : Memory) (r : nat) : outcome Memory :=
  _ <- live_record m r ;;
  Done {| heap := heap m; freed_states := freed_states m;
          freed_records := freed_records m ++ [r] |}.

(** [*s->results_back = nullptr] *)
Definition clear_back (m : Memory) (s : nat) : outcome Memory :=
  st <- live_state m s ;;
  _ <- match results_back st with
       | BackOwn => Done st
       | BackNext r => _ <- live_record m r ;; Done st
       end ;;
  h <- store_back (heap m) s None ;;
  Done {| heap := h; freed_states := freed_states m; freed_records := freed_records m |}.

(** [for (Result *n, *r = s->results; r; r = n) { n = r->next; delete r; }] *)
Fixpoint delete_results (fuel : nat) (m : Memory) (r : option nat) : outcome Memory :=
  match r with
  | None => Done m
  | Some a =>
      match fuel with
      | O => Fail OutOfFuel
      | S fuel' =>
          x <- live_record m a ;;
          m1 <- delete_record m a ;;
          delete_results fuel' m1 (next x)
      end
  end.

(** The [while (!q.empty())] loop of [destroyStateMachine]. *)
Fixpoint destroy_bfs (fuel budget : nat) (m : Memory) (q : list nat) : outcome Memory :=
  match q with
  | [] => Done m
  | s :: q' =>
      match budget with
      | O => Fail OutOfFuel
      | S budget' =>
          st <- live_state m s ;;
          let q1 := q' ++ (dest <$> transitions st) in
          m1 <- clear_back m s ;;
          st1 <- live_state m1 s ;;
          m2 <- delete_results fuel m1 (results st1) ;;
          m3 <- delete_state m2 s ;;
          destroy_bfs fuel budget' m3 q1
      end
  end.

(** [destroyStateMachine], run on a heap of which nothing has been released. *)
Definition destroyStateMachine (fuel : nat) (h : Heap) (root : nat) : outcome Memory :=
  destroy_bfs fuel fuel {| heap := h; freed_states := []; freed_records := [] |} [root].

(** The records owned by the states [D], state by state. *)
Definition owned (owns : list (list nat)) (D : list nat) : list nat :=
  mjoin ((fun s => default [] (owns !! s)) <$> D).

(** The invariant of the loop of [destroyStateMachine]: [D] are the states
    taken from the queue, which are the ones released, and [q] is the
    queue. *)
Record destroy_inv (owns : list (list nat)) (m : Memory) (D q : list nat) : Prop := {
  di_nodup : NoDup (D ++ q);
  di_root : 0%nat ∈ D ++ q;
  di_origin : forall x, x ∈ D ++ q ->
    x = 0%nat \/ exists p st t, p ∈ D /\ states (heap m) !! p = Some st
                                /\ t ∈ transitions st /\ dest t = x;
  di_children : forall p st t,
    p ∈ D -> states (heap m) !! p = Some st -> t ∈ transitions st -> dest t ∈ D ++ q;
  di_states : freed_states m = D;
  di_records : freed_records m = owned owns D
}.

(** The conversion of a [size_t] to [int]: 32 bits, two's complement. *)
Definition to_int (z : Z) : Z := (z + 2 ^ 31) mod 2 ^ 32 - 2 ^ 31.

(** [for (int m: matches) std::cout << (m + 1) << "\n";]: the numbers
    written, one to a line; [None] when the addition [m + 1] overflows
    [int]. *)
Fixpoint print_matches (ms : list Z) : option (list Z) :=
  match ms with
  | [] => Some []
  | m :: ms' =>
      if bool_decide (to_int m = 2 ^ 31 - 1) then None
      else cons (to_int m + 1) <$> print_matches ms'
  end.

(** What a run of [main] ends in: the numbers written to the standard
    output, a fault of one of the functions it calls, or the overflow of the
    [int] addition. *)
Inductive Run : Type :=
  | Output (lines : list Z)
  | Crash (e : fault)
  | IntOverflow.

(** [main], from the call of [createPatternStructure] on.  The arguments are
    the values read from the standard input: the two lines and the wildcard
    character; [complement] is 0 when the input has no complement
    character. *)
Definition main (fuel : nat) (search_s pattern : list byte) (wildcard complement : byte)
  : Run :=
  match createPatternStructure fuel pattern wildcard complement with
  | Fail e => Crash e
  | Done pat =>
      match buildForestFromPattern pat with
      | Fail e => Crash e
      | Done (h0, root) =>
          match forestIntoStateMachine fuel h0 root with
          | Fail e => Crash e
          | Done h =>
              match getTotalMatches fuel h root pat search_s with
              | Fail e => Crash e
              | Done ms =>
                  match print_matches ms with
                  | None => IntOverflow
                  | Some out =>
                      match destroyStateMachine fuel h root with
                      | Fail e => Crash e
                      | Done _ => Output out
                      end
                  end
              end
          end
      end
  end.

Global Instance item_at_dec text k it : Decision (item_at text k it).
Proof. destruct it; simpl; apply _. Defined.

Global Instance items_at_dec text k its : Decision (items_at text k its).
Proof. revert k. induction its as [|it its IH]; intros k; simpl; apply _. Defined.

Global Instance matches_at_dec its text s : Decision (matches_at its text s).
Proof. unfold matches_at. apply _. Defined.

(** The start offsets at which the items match the text, in increasing
    order. *)
Definition item_matches (its : list Item) (text : list byte) : list Z :=
  filter (matches_at its text)
    (seqZ 0 (Z.of_nat (length text) - Z.of_nat (length its) + 1)).

(** ** The Knuth-Morris-Pratt search (the Go program)

    [string] and [[]byte] values are lists of bytes, [[]int] slices are
    lists of integers and [int] is a 64-bit signed integer whose arithmetic
    wraps around.  A run-time panic is a result of its own. *)

Inductive panic : Type :=
  | IndexOutOfRange          (* s[i] with i outside the slice or string *)
  | SliceBoundsOutOfRange    (* s[lo:hi] with bounds that are not in order *)
  | IntegerDivideByZero
  | MakesliceCapOutOfRange   (* make with a negative capacity *)
  | OutOfSteps.              (* a loop was cut off by the model's step budget *)

Inductive result (A : Type) : Type :=
  | Ok (a : A)
  | Panic (p : panic).
Arguments Ok {A} a.
Arguments Panic {A} p.

Definition rbind {A B : Type} (m : result A) (k : A -> result B) : result B :=
  match m with
  | Ok a => k a
  | Panic p => Panic p
  end.

Declare Scope result_scope.
Delimit Scope result_scope with result.
Notation "x <- m ;; k" := (rbind m (fun x => k))
  (at level 100, m at next level, right associativity,
   format "'[v' x  <-  m  ;; '/' k ']'") : result_scope.

Module Kmp.

Local Open Scope result_scope.

(** The value of an [int] expression: two's complement on 64 bits. *)
Definition int_wrap (z : Z) : Z := (z + 2 ^ 63) mod 2 ^ 64 - 2 ^ 63.

Definition add (a b : Z) : Z := int_wrap (a + b).

Definition sub (a b : Z) : Z := int_wrap (a - b).

(** [a / b], which truncates towards zero. *)
Definition div (a b : Z) : result Z :=
  if bool_decide (b = 0) then Panic IntegerDivideByZero else Ok (int_wrap (Z.quot a b)).

(** [a % b] *)
Definition rem (a b : Z) : result Z :=
  if bool_decide (b = 0) then Panic IntegerDivideByZero else Ok (Z.rem a b).

(** [len(s)] *)
Definition len {A : Type} (s : list A) : Z := Z.of_nat (length s).

(** [s[i]] *)
Definition at_index {A : Type} (s : list A) (i : Z) : result A :=
  if bool_decide (0 <= i) then
    match s !! Z.to_nat i with
    | Some x => Ok x
    | None => Panic IndexOutOfRange
    end
  else Panic IndexOutOfRange.

(** [s[i] = x] *)
Definition store {A : Type} (s : list A) (i : Z) (x : A) : result (list A) :=
  if bool_decide (0 <= i < len s) then Ok (<[Z.to_nat i := x]> s)
  else Panic IndexOutOfRange.

(** [s[lo:hi]] *)
Definition slice {A : Type} (s : list A) (lo hi : Z) : result (list A) :=
  if bool_decide (0 <= lo /\ lo <= hi /\ hi <= len s)
  then Ok (take (Z.to_nat (hi - lo)) (drop (Z.to_nat lo) s))
  else Panic SliceBoundsOutOfRange.

(** [prefixAt] *)
Fixpoint prefixAt (fuel : nat) (n : list byte) (np : list Z) (c : byte) (i : Z)
  : result Z :=
  match fuel with
  | O => Panic OutOfSteps
  | S fuel' =>
      hit <- (if bool_decide (i < len n) then
                x <- at_index n i ;; Ok (bool_decide (c = x))
              else Ok false) ;;
      if hit : bool then Ok (add i 1)
      else if bool_decide (i = 0) then Ok 0
      else
        j <- at_index np (sub i 1) ;;
        prefixAt fuel' n np c j
  end.

(** The loop [for i := 1; i < len(s); i++] of [prefix], over the values of
    [i] still to come. *)
Fixpoint prefix_loop (fuel : nat) (s : list byte) (pre : list Z) (todo : list Z)
  : result (list Z) :=
  match todo with
  | [] => Ok pre
  | i :: todo' =>
      start <- at_index pre (sub i 1) ;;
      c <- at_index s i ;;
      v <- prefixAt fuel s pre c start ;;
      pre1 <- store pre i v ;;
      prefix_loop fuel s pre1 todo'
  end.

(** [prefix]; the [nil] slice is the empty list. *)
Definition prefix (fuel : nat) (s : list byte) : result (list Z) :=
  if bool_decide (len s = 0) then Ok []
  else
    pre <- store (replicate (length s) 0) 0 0 ;;
    prefix_loop fuel s pre (seqZ 1 (len s - 1)).

(** The loop [for i := 0; i < len(haystack); i++] of [findMatches]; [rest]
    holds [haystack[i:]]. *)
Fixpoint findMatches_loop (fuel : nat) (rest needle : list byte) (n_prefix : list Z)
    (offset i : Z) (matches : list Z) (prev : Z) : result (list Z * Z) :=
  match rest with
  | [] => Ok (matches, prev)
  | c :: rest' =>
      let real_idx := add offset i in
      prev1 <- prefixAt fuel needle n_prefix c prev ;;
      let matches1 :=
        if bool_decide (prev1 = len needle)
        then matches ++ [add (sub real_idx (len needle)) 1]
        else matches in
      findMatches_loop fuel rest' needle n_prefix offset (add i 1) matches1 prev1
  end.

(** [findMatches] *)
Definition findMatches (fuel : nat) (haystack needle : list byte) (n_prefix : list Z)
    (initial offset : Z) : result (list Z * Z) :=
  findMatches_loop fuel haystack needle n_prefix offset 0 [] initial.

(** [type Range struct { offset, length int }] *)
Record Range : Type := mkRange {
  rg_offset : Z;
  rg_length : Z
}.

(** The loop [for i := 0; i < n_ranges; i++] of [splitKmpWork], over the
    values of [i] still to come. *)
Fixpoint split_loop (todo : list Z) (match_one_rem prematch_area offset match_len : Z)
    (ranges : list Range) : list Range :=
  match todo with
  | [] => ranges
  | i :: todo' =>
      let match_len1 := if bool_decide (i = match_one_rem) then sub match_len 1 else match_len in
      split_loop todo' match_one_rem prematch_area (add offset match_len1) match_len1
        (ranges ++ [ {| rg_offset := offset; rg_length := add match_len1 prematch_area |} ])
  end.

(** [splitKmpWork] *)
Definition splitKmpWork (len_s len_substr n_ranges : Z) : result (list Range) :=
  let prematch_area := sub len_substr 1 in
  let match_area := sub len_s prematch_area in
  let n_ranges := if bool_decide (n_ranges > match_area) then match_area else n_ranges in
  match_one_min <- div match_area n_ranges ;;
  match_one_rem <- rem match_area n_ranges ;;
  let match_len := add match_one_min 1 in
  if bool_decide (n_ranges < 0) then Panic MakesliceCapOutOfRange
  else Ok (split_loop (seqZ 0 n_ranges) match_one_rem prematch_area 0 match_len []).

(** What the goroutines of [parallelFindMatches] compute, range by range:
    the piece [haystack[offset:end]] and the matches found in it.  A panic
    in any of them ends the program; which one does when there are several
    is not modelled. *)
Fixpoint search_ranges (fuel : nat) (haystack needle : list byte) (n_prefix : list Z)
    (ranges : list Range) : result (list (list Z)) :=
  match ranges with
  | [] => Ok []
  | rng :: ranges' =>
      let offset := rg_offset rng in
      let end_ := add offset (rg_length rng) in
      piece <- slice haystack offset end_ ;;
      m <- findMatches fuel piece needle n_prefix 0 offset ;;
      ms <- search_ranges fuel haystack needle n_prefix ranges' ;;
      Ok (m.1 :: ms)
  end.

(** [parallelFindMatches]; [order] lists the indices of the goroutines in
    the order in which their results arrive on the channel, which the
    scheduler chooses: [results[res.idx] = res.mat]. *)
Definition parallelFindMatches (fuel : nat) (haystack needle : list byte)
    (n_prefix : list Z) (ranges : list Range) (order : list nat) : result (list Z) :=
  mats <- search_ranges fuel haystack needle n_prefix ranges ;;
  let results :=
    foldl (fun res idx => <[idx := default [] (mats !! idx)]> res)
          (replicate (length ranges) []) order in
  Ok (mjoin results).

(** [ParallelSearchSubstring] *)
Definition ParallelSearchSubstring (fuel : nat) (haystack needle : list byte)
    (n_ranges : Z) (order : list nat) : result (list Z) :=
  n_prefix <- prefix fuel needle ;;
  ranges <- splitKmpWork (len haystack) (len needle) n_ranges ;;
  parallelFindMatches fuel haystack needle n_prefix ranges order.

End Kmp.

(** [k] bytes from the start of [n] end the text [t]. *)
Definition pre_suf (n t : list byte) (k : nat) : Prop :=
  (k <= length n)%nat /\ take k n `suffix_of` t.

(** [k] is the length of the longest prefix of [n] that ends [t]. *)
Definition lsp (n t : list byte) (k : nat) : Prop :=
  pre_suf n t k /\ forall k', pre_suf n t k' -> (k' <= k)%nat.

(** The prefix function: [b] is the length of the longest proper border of
    the first [j] bytes of [n]. *)
Definition border_len (n : list byte) (j b : nat) : Prop :=
  lsp n (drop 1 (take j n)) b.

(** The first [m] entries of [np] hold the prefix function of [n]. *)
Definition pi_ok (n : list byte) (np : list Z) (m : nat) : Prop :=
  forall j, (1 <= j <= m)%nat ->
    exists b, np !! (j - 1)%nat = Some (Z.of_nat b) /\ border_len n j b.

(** Whether [w] stands at position [k] of [text]. *)
Definition stands_at (text : list byte) (k : Z) (w : list byte)
  : Decision (at_pos text k w) :=
  and_dec (Z.le_dec 0 k) (decide (take (length w) (drop (Z.to_nat k) text) = w)).

(** The start offsets in [from .. from + count - 1] at which [needle] stands
    in [haystack]. *)
Definition found_in (haystack needle : list byte) (from count : Z) : list Z :=
  @filter _ _ list_filter (fun q => at_pos haystack q needle)
    (fun q => stands_at haystack q needle) (seqZ from count).

(** The ranges cut the start offsets [start .. stop - 1] into consecutive
    pieces that are not empty: each range begins where the one before it
    stops looking for starts, and is [prematch] bytes longer than its share
    of start offsets. *)
Fixpoint tiles (prematch : Z) (ranges : list Kmp.Range) (start stop : Z) : Prop :=
  match ranges with
  | [] => start = stop
  | r :: rs =>
      Kmp.rg_offset r = start /\ prematch < Kmp.rg_length r
      /\ tiles prematch rs (start + (Kmp.rg_length r - prematch)) stop
  end.

(** [b] is the length of a proper border of [u]: the first [b] bytes of [u]
    are its last [b] bytes, and [b] is less than the length of [u]. *)
Definition border (u : list byte) (b : nat) : Prop :=
  (b < length u)%nat /\ take b u = drop (length u - b) u.

(** ** Basic facts about outcomes and the arenas *)

Lemma bind_Done {A B} (m : outcome A) (k : A -> outcome B) b :
  bind m k = Done b <-> exists a, m = Done a /\ k a = Done b.
Proof.
  destruct m as [a|e]; simpl; split.
  - intros H. by exists a.
  - by intros (a' & [= ->] & H).
  - done.
  - by intros (a' & ? & ?).
Qed.

Lemma get_state_Done h s st : get_state h s = Done st <-> states h !! s = Some st.
Proof. unfold get_state. destruct (states h !! s); naive_solver. Qed.

Lemma get_record_Done h r x : get_record h r = Done x <-> records h !! r = Some x.
Proof. unfold get_record. destruct (records h !! r); naive_solver. Qed.

Lemma set_state_Done h s st :
  (s < length (states h))%nat ->
  set_state h s st = Done {| states := <[s := st]> (states h); records := records h |}.
Proof. intros. unfold set_state. by rewrite bool_decide_eq_true_2. Qed.

Lemma set_record_Done h r x :
  (r < length (records h))%nat ->
  set_record h r x = Done {| states := states h; records := <[r := x]> (records h) |}.
Proof. intros. unfold set_record. by rewrite bool_decide_eq_true_2. Qed.

Lemma findTransition_in_Some ts c t :
  findTransition_in ts c = Some t -> t ∈ ts /\ t_ch t = c.
Proof.
  induction ts as [|t' ts IH]; simpl; [done|].
  case_bool_decide.
  - intros [= ->]. split; [left|done].
  - intros H'. destruct (IH H'). split; [by right|done].
Qed.

Lemma findTransition_in_None ts c :
  findTransition_in ts c = None <-> c ∉ t_ch <$> ts.
Proof.
  induction ts as [|t' ts IH]; csimpl.
  - split; [intros _; apply not_elem_of_nil|done].
  - case_bool_decide as Hc.
    + split; [done|]. intros []. subst. left.
    + rewrite IH, not_elem_of_cons. split; [intros Hn; split; [congruence|done]|by intros [_ Hn]].
Qed.

Lemma findTransition_in_unique ts t :
  NoDup (t_ch <$> ts) -> t ∈ ts -> findTransition_in ts (t_ch t) = Some t.
Proof.
  induction ts as [|t' ts IH]; csimpl.
  - intros _ H. by apply elem_of_nil in H.
  - intros Hnd Hin. apply NoDup_cons in Hnd as [Hn Hnd].
    apply elem_of_cons in Hin as [->|Hin].
    + by rewrite bool_decide_eq_true_2.
    + rewrite bool_decide_eq_false_2; [by apply IH|].
      intros Heq. apply Hn. rewrite Heq. by apply list_elem_of_fmap_2.
Qed.


(** ** Linked segments of match records *)

Lemma seg_frame h h' p ids q :
  (forall r, r ∈ ids -> records h' !! r = records h !! r) ->
  seg h p ids q -> seg h' p ids q.
Proof.
  revert p. induction ids as [|r ids IH]; intros p Hfr; simpl; [done|].
  intros (-> & x & Hx & Hs). split; [done|]. exists x. split.
  - rewrite Hfr; [done|left].
  - apply IH; [|done]. intros r' Hr'. apply Hfr. by right.
Qed.

Lemma seg_snoc h p ids r q :
  seg h p (ids ++ [r]) q <->
  seg h p ids (Some r) /\ exists x, records h !! r = Some x /\ next x = q.
Proof.
  revert p. induction ids as [|r' ids IH]; intros p; simpl.
  - split.
    + intros (-> & x & Hx & <-). eauto.
    + intros (-> & x & Hx & <-). eauto.
  - rewrite (and_comm (p = Some r')). split.
    + intros ((x & Hx & Hs) & ->). apply IH in Hs as (Hs & y & Hy & Hq).
      split; [|by eauto]. eauto.
    + intros ((-> & x & Hx & Hs) & y & Hy & Hq). split; [|done].
      exists x. split; [done|]. apply IH. eauto.
Qed.

Lemma seg_chain h p ids q xs ys :
  seg h p ids q ->
  Forall2 (fun r x => records h !! r = Some x) ids xs ->
  chain h q ys -> chain h p (xs ++ ys).
Proof.
  intros Hs Hv Hc. revert p Hs.
  induction Hv as [|r x ids xs Hr Hv IH]; intros p; simpl.
  - by intros ->.
  - intros (-> & x' & Hx' & Hs). exists r. rewrite Hr in Hx'. simplify_eq. auto.
Qed.

Lemma chain_frame h h' p xs :
  (forall r x, x ∈ xs -> records h !! r = Some x -> records h' !! r = Some x) ->
  chain h p xs -> chain h' p xs.
Proof.
  revert p. induction xs as [|x xs IH]; intros p Hfr; simpl; [done|].
  intros (r & -> & Hx & Hc). exists r. split_and!; [done| |].
  - apply Hfr; [left|done].
  - apply IH; [|done]. intros r' x' Hin. apply Hfr. by right.
Qed.

Lemma chain_functional h p xs ys : chain h p xs -> chain h p ys -> xs = ys.
Proof.
  revert p ys. induction xs as [|x xs IH]; intros p [|y ys]; simpl.
  - done.
  - intros -> (r & ? & _). done.
  - intros (r & -> & _) ?. done.
  - intros (r & -> & Hx & Hc) (r' & [= <-] & Hy & Hc').
    rewrite Hx in Hy. simplify_eq. f_equal. eauto.
Qed.

Lemma back_of_nil : back_of [] = BackOwn.
Proof. done. Qed.

Lemma back_of_snoc ids r : back_of (ids ++ [r]) = BackNext r.
Proof. unfold back_of. by rewrite last_snoc. Qed.

Lemma list_nil_or_snoc {A} (l : list A) : l = [] \/ exists l' x, l = l' ++ [x].
Proof.
  destruct (last l) as [x|] eqn:Hl.
  - right. apply last_Some in Hl as [l' ->]. eauto.
  - left. by apply last_None.
Qed.

(** ** Changes of the heap that keep the trie *)

(** Any change that keeps the transitions, the back pointers, the payload of
    the records and the linking of each state's own records keeps the trie. *)
Lemma trie_reshape h h' paths owns ws :
  trie h paths owns ws ->
  length (states h') = length (states h) ->
  length (records h') = length (records h) ->
  (forall s st', states h' !! s = Some st' ->
     exists st, states h !! s = Some st /\ transitions st' = transitions st
                /\ results_back st' = results_back st) ->
  (forall r x, records h !! r = Some x ->
     exists x', records h' !! r = Some x' /\ pat_idx x' = pat_idx x
                /\ r_length x' = r_length x) ->
  (forall s st' ids, states h' !! s = Some st' -> owns !! s = Some ids ->
     seg h' (results st') ids (tail_ptr h' st')) ->
  trie h' paths owns ws.
Proof.
  intros T Hls Hlr Hst Hrec Hseg. split.
  - rewrite Hls. apply T.
  - rewrite Hls. apply T.
  - apply T.
  - apply T.
  - rewrite Hls. apply T.
  - intros s st' w t Hs Hw Ht. destruct (Hst _ _ Hs) as (st & Hs0 & Htr & _).
    rewrite Htr in Ht. by eapply (trie_trans _ _ _ _ T).
  - intros s st' Hs. destruct (Hst _ _ Hs) as (st & Hs0 & Htr & _).
    rewrite Htr. by eapply (trie_trans_nodup _ _ _ _ T).
  - intros d w c Hd. destruct (trie_parent _ _ _ _ T _ _ _ Hd) as (s & st & Hw & Hs & Hin).
    destruct (lookup_lt_is_Some_2 (states h') s) as [st' Hs'].
    { rewrite Hls. by eapply lookup_lt_Some. }
    destruct (Hst _ _ Hs') as (st0 & Hs0 & Htr & _). simplify_eq.
    exists s, st'. by rewrite Htr.
  - apply T.
  - apply T.
  - intros s ids r Ho Hr. rewrite Hlr. by eapply (trie_own_valid _ _ _ _ T).
  - intros s st' ids Hs Ho. destruct (Hst _ _ Hs) as (st & Hs0 & _ & Hb).
    rewrite Hb. by eapply (trie_own_back _ _ _ _ T).
  - done.
  - intros s ids w Ho Hw. pose proof (trie_own_values _ _ _ _ T _ _ _ Ho Hw) as Hv.
    unfold own_values in *. eapply Forall2_impl; [exact Hv|].
    intros r iw (x & Hx & Hi & Hl). destruct (Hrec _ _ Hx) as (x' & Hx' & Hi' & Hl').
    exists x'. split_and!; [done|congruence|congruence].
  - apply T.
Qed.

Lemma lookup_snoc_Some {A} (l : list A) x i y :
  (l ++ [x]) !! i = Some y <-> l !! i = Some y \/ (i = length l /\ y = x).
Proof.
  rewrite lookup_app_Some. split.
  - intros [?|[Hle Hi]]; [by left|right].
    destruct (i - length l)%nat as [|k] eqn:Hk; simpl in Hi; [|done].
    split; [lia|congruence].
  - intros [?|[-> ->]]; [by left|right]. split; [lia|].
    by rewrite Nat.sub_diag.
Qed.

Lemma filter_nil_not_elem {A} (P : A -> Prop) `{forall x, Decision (P x)} (l : list A) :
  (forall x, x ∈ l -> ~ P x) -> filter P l = [].
Proof.
  induction l as [|x l IH]; intros Hn; [done|].
  rewrite filter_cons_False; [|apply Hn; left].
  apply IH. intros y Hy. apply Hn. by right.
Qed.

(** A state with path [w] has no transition on [c] exactly when [w ++ [c]]
    is not a path. *)
Lemma trie_no_child h paths owns ws s st w c :
  trie h paths owns ws ->
  states h !! s = Some st -> paths !! s = Some w ->
  findTransition st c = None -> w ++ [c] ∉ paths.
Proof.
  intros T Hs Hw Hf Hin. apply list_elem_of_lookup in Hin as [d Hd].
  destruct (trie_parent _ _ _ _ T _ _ _ Hd) as (s2 & st2 & Hw2 & Hs2 & Hin).
  assert (s2 = s) as -> by (eapply NoDup_lookup; [apply T|done..]).
  simplify_eq. apply findTransition_in_None in Hf. apply Hf.
  change c with (t_ch {| t_ch := c; dest := d |}). by apply list_elem_of_fmap_2.
Qed.

Lemma trie_child h paths owns ws s st w c t :
  trie h paths owns ws ->
  states h !! s = Some st -> paths !! s = Some w ->
  findTransition st c = Some t -> paths !! dest t = Some (w ++ [c]).
Proof.
  intros T Hs Hw Hf. apply findTransition_in_Some in Hf as [Hin <-].
  by eapply (trie_trans _ _ _ _ T).
Qed.

(** Conversely the transition to an existing path is found. *)
Lemma trie_find_child h paths owns ws s st w c d :
  trie h paths owns ws ->
  states h !! s = Some st -> paths !! s = Some w ->
  paths !! d = Some (w ++ [c]) ->
  findTransition st c = Some {| t_ch := c; dest := d |}.
Proof.
  intros T Hs Hw Hd.
  destruct (trie_parent _ _ _ _ T _ _ _ Hd) as (s2 & st2 & Hw2 & Hs2 & Hin).
  assert (s2 = s) as -> by (eapply NoDup_lookup; [apply T|done..]).
  simplify_eq. unfold findTransition.
  change c with (t_ch {| t_ch := c; dest := d |}).
  apply findTransition_in_unique; [|done]. by eapply (trie_trans_nodup _ _ _ _ T).
Qed.

Lemma add_child_lookup h s st c s' st' :
  states h !! s = Some st ->
  states (add_child h s st c) !! s' = Some st' ->
  (s' = s /\ transitions st' = transitions st ++ [{| t_ch := c; dest := length (states h) |}]
   /\ fallback st' = fallback st /\ results st' = results st
   /\ results_back st' = results_back st)
  \/ (s' <> s /\ states h !! s' = Some st')
  \/ (s' = length (states h) /\ st' = State_new).
Proof.
  intros Hs. unfold add_child; simpl. destruct (decide (s' = s)) as [->|Hne].
  - rewrite list_lookup_insert_eq.
    + intros [= <-]. left. done.
    + rewrite length_app. apply lookup_lt_Some in Hs. simpl. lia.
  - rewrite list_lookup_insert_ne; [|done]. rewrite lookup_snoc_Some.
    intros [?|[-> ->]]; [right; left|right; right]; done.
Qed.

Lemma trie_add_child h paths owns ws s st w c :
  trie h paths owns ws -> fresh h ->
  states h !! s = Some st -> paths !! s = Some w ->
  findTransition st c = None ->
  trie (add_child h s st c) (paths ++ [w ++ [c]]) (owns ++ [[]]) ws
  /\ fresh (add_child h s st c).
Proof.
  intros T F Hs Hw Hf.
  pose proof (trie_no_child _ _ _ _ _ _ _ _ T Hs Hw Hf) as Hnew.
  pose proof (trie_len _ _ _ _ T) as Hlen.
  pose proof (trie_olen _ _ _ _ T) as Holen.
  pose proof (lookup_lt_Some _ _ _ Hs) as Hlt.
  assert (Hls : length (states (add_child h s st c)) = S (length (states h))).
  { simpl. rewrite length_insert, length_app. simpl. lia. }
  assert (Htail : forall st0, tail_ptr (add_child h s st c) st0 = tail_ptr h st0) by done.
  assert (Hseg : forall p ids q, seg h p ids q -> seg (add_child h s st c) p ids q).
  { intros p ids q. by apply seg_frame. }
  split; [split|].
  - rewrite Hls, length_app. simpl. lia.
  - rewrite Hls, length_app. simpl. lia.
  - apply lookup_app_l_Some, T.
  - apply NoDup_app. split_and!; [apply T| |apply NoDup_singleton].
    intros x Hx Hx'. apply list_elem_of_singleton in Hx'. by subst.
  - intros s' w' Hw'. rewrite Hls. apply lookup_snoc_Some in Hw' as [Hw'|[-> ->]].
    + apply (trie_short _ _ _ _ T) in Hw'. lia.
    + rewrite length_app. simpl. apply (trie_short _ _ _ _ T) in Hw. lia.
  - intros s' st' w' t Hs' Hw' Ht.
    apply (add_child_lookup _ _ _ _ _ _ Hs) in Hs'
      as [(-> & Htr & _)|[(Hne & Hs')|(-> & ->)]].
    + apply lookup_snoc_Some in Hw' as [Hw'|[-> ->]]; [|lia]. simplify_eq.
      rewrite Htr in Ht. apply elem_of_app in Ht as [Ht|Ht].
      * apply lookup_app_l_Some. by eapply (trie_trans _ _ _ _ T).
      * apply list_elem_of_singleton in Ht as ->. simpl.
        apply lookup_snoc_Some. right. done.
    + apply lookup_snoc_Some in Hw' as [Hw'|[-> ->]].
      * apply lookup_app_l_Some. by eapply (trie_trans _ _ _ _ T).
      * apply lookup_lt_Some in Hs'. lia.
    + by apply elem_of_nil in Ht.
  - intros s' st' Hs'.
    apply (add_child_lookup _ _ _ _ _ _ Hs) in Hs'
      as [(-> & Htr & _)|[(Hne & Hs')|(-> & ->)]].
    + rewrite Htr, fmap_app. apply NoDup_app. split_and!.
      * by eapply (trie_trans_nodup _ _ _ _ T).
      * intros x Hx Hx'. apply list_elem_of_singleton in Hx'. simpl in Hx'. subst.
        by apply findTransition_in_None in Hf.
      * apply NoDup_singleton.
    + by eapply (trie_trans_nodup _ _ _ _ T).
    + apply NoDup_nil_2.
  - intros d w' c' Hd. apply lookup_snoc_Some in Hd as [Hd|[-> Heq]].
    + destruct (trie_parent _ _ _ _ T _ _ _ Hd) as (s2 & st2 & Hw2 & Hs2 & Hin).
      exists s2. destruct (decide (s2 = s)) as [->|Hne].
      * simplify_eq. eexists. split_and!.
        -- by apply lookup_app_l_Some.
        -- unfold add_child; simpl. apply list_lookup_insert_eq.
           rewrite length_app; simpl; lia.
        -- simpl. apply elem_of_app. by left.
      * exists st2. split_and!; [by apply lookup_app_l_Some| |done].
        unfold add_child; simpl. rewrite list_lookup_insert_ne; [|done].
        by apply lookup_app_l_Some.
    + apply app_inj_tail in Heq as [-> ->]. exists s. eexists. split_and!.
      * by apply lookup_app_l_Some.
      * unfold add_child; simpl. apply list_lookup_insert_eq.
        rewrite length_app; simpl; lia.
      * simpl. apply elem_of_app. right. rewrite Hlen. left.
  - intros s' ids Ho. apply lookup_snoc_Some in Ho as [Ho|[_ ->]].
    + by eapply (trie_own_nodup _ _ _ _ T).
    + apply NoDup_nil_2.
  - intros s1 s2 ids1 ids2 r Ho1 Ho2 Hr1 Hr2.
    apply lookup_snoc_Some in Ho1 as [Ho1|[_ ->]]; [|by apply elem_of_nil in Hr1].
    apply lookup_snoc_Some in Ho2 as [Ho2|[_ ->]]; [|by apply elem_of_nil in Hr2].
    by eapply (trie_own_disj _ _ _ _ T).
  - intros s' ids r Ho Hr.
    apply lookup_snoc_Some in Ho as [Ho|[_ ->]]; [|by apply elem_of_nil in Hr].
    by eapply (trie_own_valid _ _ _ _ T).
  - intros s' st' ids Hs' Ho.
    apply (add_child_lookup _ _ _ _ _ _ Hs) in Hs'
      as [(-> & _ & _ & _ & Hb)|[(Hne & Hs')|(-> & ->)]].
    + apply lookup_snoc_Some in Ho as [Ho|[-> ->]]; [|lia].
      rewrite Hb. by eapply (trie_own_back _ _ _ _ T).
    + apply lookup_snoc_Some in Ho as [Ho|[-> ->]].
      * by eapply (trie_own_back _ _ _ _ T).
      * apply lookup_lt_Some in Hs'. lia.
    + apply lookup_snoc_Some in Ho as [Ho|[_ ->]]; [|done].
      apply lookup_lt_Some in Ho. lia.
  - intros s' st' ids Hs' Ho.
    apply (add_child_lookup _ _ _ _ _ _ Hs) in Hs'
      as [(-> & _ & _ & Hr & Hb)|[(Hne & Hs')|(-> & ->)]].
    + apply lookup_snoc_Some in Ho as [Ho|[-> ->]]; [|lia].
      apply Hseg. pose proof (trie_own_seg _ _ _ _ T _ _ _ Hs Ho) as Hsg.
      unfold tail_ptr in *. simpl. by rewrite Hr, Hb.
    + apply lookup_snoc_Some in Ho as [Ho|[-> ->]].
      * apply Hseg. by eapply (trie_own_seg _ _ _ _ T).
      * apply lookup_lt_Some in Hs'. lia.
    + apply lookup_snoc_Some in Ho as [Ho|[_ ->]]; [|done].
      apply lookup_lt_Some in Ho. lia.
  - intros s' ids w' Ho Hw'.
    apply lookup_snoc_Some in Ho as [Ho|[-> ->]].
    + apply lookup_snoc_Some in Hw' as [Hw'|[-> ->]].
      * by eapply (trie_own_values _ _ _ _ T).
      * apply lookup_lt_Some in Ho. lia.
    + apply lookup_snoc_Some in Hw' as [Hw'|[_ ->]].
      * apply lookup_lt_Some in Hw'. lia.
      * unfold own_values. rewrite filter_nil_not_elem; [constructor|].
        intros iw Hiw Heq. apply Hnew. rewrite <- Heq. by apply (trie_words _ _ _ _ T).
  - intros iw Hiw. apply elem_of_app. left. by apply (trie_words _ _ _ _ T).
  - intros s' st' Hs'.
    apply (add_child_lookup _ _ _ _ _ _ Hs) in Hs'
      as [(-> & _ & Hfb & Hr & Hb)|[(Hne & Hs')|(-> & ->)]].
    + destruct (F _ _ Hs) as [F1 F2]. split; [congruence|].
      unfold tail_ptr in *. simpl. by rewrite Hr, Hb.
    + rewrite Htail. by eapply F.
    + done.
Qed.

(** ** [addResult] *)

Lemma addResult_Done h s st idx len :
  states h !! s = Some st ->
  match results_back st with
  | BackOwn => True
  | BackNext r => is_Some (records h !! r)
  end ->
  addResult h s idx len = Done (added h s st idx len).
Proof.
  intros Hs Hb. pose proof (lookup_lt_Some _ _ _ Hs) as Hlt.
  unfold addResult, added, alloc_record, store_back. simpl.
  unfold get_state at 1. simpl. rewrite Hs. simpl.
  destruct (results_back st) as [|r] eqn:Hrb.
  - rewrite set_state_Done; [|done]. simpl.
    unfold get_state. simpl. rewrite list_lookup_insert_eq; [|done]. simpl.
    rewrite set_state_Done; [|simpl; by rewrite length_insert]. simpl.
    by rewrite list_insert_insert_eq.
  - destruct Hb as [y Hy]. rewrite Hy.
    unfold get_record. simpl. rewrite (lookup_app_l_Some _ _ _ _ Hy). simpl.
    rewrite set_record_Done;
      [|simpl; rewrite length_app; apply lookup_lt_Some in Hy; lia].
    simpl. unfold get_state. simpl. rewrite Hs. simpl.
    by rewrite set_state_Done.
Qed.

Lemma added_facts h paths owns ws s st ids idx len :
  trie h paths owns ws -> fresh h ->
  states h !! s = Some st -> owns !! s = Some ids ->
  let h' := added h s st idx len in
  let nr := length (records h) in
  length (states h') = length (states h)
  /\ length (records h') = S (length (records h))
  /\ (forall s', s' <> s -> states h' !! s' = states h !! s')
  /\ (exists st', states h' !! s = Some st' /\ transitions st' = transitions st
        /\ fallback st' = fallback st /\ results_back st' = BackNext nr
        /\ seg h' (results st') (ids ++ [nr]) None)
  /\ records h' !! nr = Some {| pat_idx := idx; r_length := len; next := None |}
  /\ (forall r, r <> nr -> last ids <> Some r -> records h' !! r = records h !! r)
  /\ (forall r y, records h !! r = Some y ->
        exists y', records h' !! r = Some y' /\ pat_idx y' = pat_idx y
                   /\ r_length y' = r_length y).
Proof.
  intros T F Hs Ho h' nr.
  pose proof (lookup_lt_Some _ _ _ Hs) as Hlt.
  pose proof (trie_own_back _ _ _ _ T _ _ _ Hs Ho) as Hb.
  pose proof (trie_own_seg _ _ _ _ T _ _ _ Hs Ho) as Hsg.
  pose proof (trie_own_nodup _ _ _ _ T _ _ Ho) as Hnd.
  assert (Hval : forall r, r ∈ ids -> (r < nr)%nat).
  { intros r Hr. by eapply (trie_own_valid _ _ _ _ T). }
  destruct (list_nil_or_snoc ids) as [->|(ids' & r & ->)].
  - rewrite back_of_nil in Hb. subst h'. unfold added. rewrite Hb. simpl.
    split_and!.
    + by rewrite length_insert.
    + rewrite length_app. simpl. lia.
    + intros s' Hne. by rewrite list_lookup_insert_ne.
    + eexists. split; [by apply list_lookup_insert_eq|]. simpl. split_and!; try done.
      eexists. split; [apply lookup_snoc_Some; right; done|done].
    + apply lookup_snoc_Some. right. done.
    + intros r Hr _. apply option_eq. intros y. rewrite lookup_snoc_Some.
      fold nr. intuition (congruence || lia).
    + intros r y Hy. exists y. split; [|done]. by apply lookup_app_l_Some.
  - rewrite back_of_snoc in Hb.
    assert (Hrv : (r < nr)%nat) by (apply Hval, elem_of_app; right; left).
    destruct (lookup_lt_is_Some_2 (records h) r Hrv) as [y Hy].
    subst h'. unfold added. rewrite Hb, Hy. simpl.
    assert (Hnew : <[r:=with_next y (Some nr)]>
                     (records h ++ [{| pat_idx := idx; r_length := len; next := None |}])
                   !! nr = Some {| pat_idx := idx; r_length := len; next := None |}).
    { rewrite list_lookup_insert_ne; [|lia]. apply lookup_snoc_Some. right. done. }
    assert (Hr : <[r:=with_next y (Some nr)]>
                     (records h ++ [{| pat_idx := idx; r_length := len; next := None |}])
                   !! r = Some (with_next y (Some nr))).
    { apply list_lookup_insert_eq. rewrite length_app. simpl. fold nr. lia. }
    split_and!.
    + by rewrite length_insert.
    + rewrite length_insert, length_app. simpl. lia.
    + intros s' Hne. by rewrite list_lookup_insert_ne.
    + eexists. split; [by apply list_lookup_insert_eq|]. simpl. split_and!; try done.
      apply seg_snoc. split; [|by eauto]. apply seg_snoc. split; [|by eauto].
      apply seg_snoc in Hsg as [Hsg _].
      eapply seg_frame; [|exact Hsg]. intros r' Hr'. simpl.
      apply NoDup_app in Hnd as (_ & Hnd & _).
      rewrite list_lookup_insert_ne; [|intros ->; apply (Hnd _ Hr'); left].
      apply option_eq. intros y'. rewrite lookup_snoc_Some.
      assert (r' < nr)%nat by (apply Hval, elem_of_app; by left).
      fold nr. split; [intros [?|[? ?]]; [done|lia]|by left].
    + done.
    + intros r' Hne1 Hne2. rewrite last_snoc in Hne2.
      rewrite list_lookup_insert_ne; [|congruence].
      apply option_eq. intros y'. rewrite lookup_snoc_Some. fold nr. intuition (congruence || lia).
    + intros r' y' Hy'. destruct (decide (r' = r)) as [->|Hne].
      * simplify_eq. exists (with_next y (Some nr)). done.
      * exists y'. split; [|done]. rewrite list_lookup_insert_ne; [|done].
        by apply lookup_app_l_Some.
Qed.

Lemma trie_added h paths owns ws s st w ids idx :
  trie h paths owns ws -> fresh h ->
  states h !! s = Some st -> paths !! s = Some w -> owns !! s = Some ids ->
  let h' := added h s st idx (Z.of_nat (length w)) in
  trie h' paths (<[s := ids ++ [length (records h)]]> owns) (ws ++ [(idx, w)])
  /\ fresh h'.
Proof.
  intros T F Hs Hw Ho h'.
  destruct (added_facts _ _ _ _ _ _ _ idx (Z.of_nat (length w)) T F Hs Ho)
    as (Hls & Hlr & Hother & (st1 & Hs1 & Htr1 & Hfb1 & Hb1 & Hsg1) & Hnew & Hrec & Hpay).
  fold h' in Hls, Hlr, Hother, Hs1, Hsg1, Hnew, Hrec, Hpay.
  set (nr := length (records h)) in *.
  pose proof (lookup_lt_Some _ _ _ Ho) as Hlto.
  assert (Hval : forall s' ids' r, owns !! s' = Some ids' -> r ∈ ids' -> (r < nr)%nat).
  { intros s' ids' r. apply (trie_own_valid _ _ _ _ T). }
  assert (Hst : forall s' st', states h' !! s' = Some st' ->
            exists st0, states h !! s' = Some st0 /\ transitions st' = transitions st0
                        /\ fallback st' = fallback st0).
  { intros s' st' Hs'. destruct (decide (s' = s)) as [->|Hne].
    - simplify_eq. exists st. done.
    - rewrite Hother in Hs'; [|done]. exists st'. done. }
  (* the records of the other states are untouched *)
  assert (Hkeep : forall s' ids' r, s' <> s -> owns !! s' = Some ids' -> r ∈ ids' ->
            records h' !! r = records h !! r).
  { intros s' ids' r Hne Ho' Hr. apply Hrec.
    - apply (Hval _ _ _ Ho') in Hr. lia.
    - intros Hl. apply last_Some in Hl as [l' ->]. apply Hne.
      eapply (trie_own_disj _ _ _ _ T); [exact Ho'|exact Ho|done|].
      apply elem_of_app. right. left. }
  assert (Htail : forall s' st', s' <> s -> states h !! s' = Some st' ->
            tail_ptr h' st' = tail_ptr h st').
  { intros s' st' Hne Hs'.
    destruct (lookup_lt_is_Some_2 owns s') as [ids' Ho'].
    { rewrite (trie_olen _ _ _ _ T). by eapply lookup_lt_Some. }
    pose proof (trie_own_back _ _ _ _ T _ _ _ Hs' Ho') as Hb'.
    unfold tail_ptr. rewrite Hb'.
    destruct (list_nil_or_snoc ids') as [->|(l' & r & ->)].
    - by rewrite back_of_nil.
    - rewrite back_of_snoc.
      assert (records h' !! r = records h !! r) as ->; [|done].
      eapply Hkeep; [done|done|]. apply elem_of_app. right. left. }
  split; [split|].
  - rewrite Hls. apply T.
  - rewrite Hls, length_insert. apply T.
  - apply T.
  - apply T.
  - rewrite Hls. apply T.
  - intros s' st' w' t Hs' Hw' Ht. destruct (Hst _ _ Hs') as (st0 & Hs0 & Htr & _).
    rewrite Htr in Ht. by eapply (trie_trans _ _ _ _ T).
  - intros s' st' Hs'. destruct (Hst _ _ Hs') as (st0 & Hs0 & Htr & _).
    rewrite Htr. by eapply (trie_trans_nodup _ _ _ _ T).
  - intros d w' c Hd.
    destruct (trie_parent _ _ _ _ T _ _ _ Hd) as (s2 & st2 & Hw2 & Hs2 & Hin).
    destruct (decide (s2 = s)) as [->|Hne].
    + simplify_eq. exists s, st1. by rewrite Htr1.
    + exists s2, st2. by rewrite Hother.
  - intros s' ids' Ho'. destruct (decide (s' = s)) as [->|Hne].
    + rewrite list_lookup_insert_eq in Ho'; [|done]. simplify_eq.
      apply NoDup_app. split_and!.
      * by eapply (trie_own_nodup _ _ _ _ T).
      * intros r Hr Hr'. apply list_elem_of_singleton in Hr'. subst.
        apply (Hval _ _ _ Ho) in Hr. lia.
      * apply NoDup_singleton.
    + rewrite list_lookup_insert_ne in Ho'; [|done].
      by eapply (trie_own_nodup _ _ _ _ T).
  - intros s1 s2 ids1 ids2 r Ho1 Ho2 Hr1 Hr2.
    destruct (decide (s1 = s)) as [->|Hne1]; destruct (decide (s2 = s)) as [->|Hne2];
      [done|..].
    + rewrite list_lookup_insert_eq in Ho1; [|done].
      rewrite list_lookup_insert_ne in Ho2; [|done]. simplify_eq.
      apply elem_of_app in Hr1 as [Hr1|Hr1].
      * by eapply (trie_own_disj _ _ _ _ T).
      * apply list_elem_of_singleton in Hr1. subst. apply (Hval _ _ _ Ho2) in Hr2. lia.
    + rewrite list_lookup_insert_ne in Ho1; [|done].
      rewrite list_lookup_insert_eq in Ho2; [|done]. simplify_eq.
      apply elem_of_app in Hr2 as [Hr2|Hr2].
      * by eapply (trie_own_disj _ _ _ _ T).
      * apply list_elem_of_singleton in Hr2. subst. apply (Hval _ _ _ Ho1) in Hr1. lia.
    + rewrite list_lookup_insert_ne in Ho1; [|done].
      rewrite list_lookup_insert_ne in Ho2; [|done].
      by eapply (trie_own_disj _ _ _ _ T).
  - intros s' ids' r Ho' Hr. rewrite Hlr. destruct (decide (s' = s)) as [->|Hne].
    + rewrite list_lookup_insert_eq in Ho'; [|done]. simplify_eq.
      apply elem_of_app in Hr as [Hr|Hr].
      * apply (Hval _ _ _ Ho) in Hr. lia.
      * apply list_elem_of_singleton in Hr. subst. lia.
    + rewrite list_lookup_insert_ne in Ho'; [|done]. apply (Hval _ _ _ Ho') in Hr. lia.
  - intros s' st' ids' Hs' Ho'. destruct (decide (s' = s)) as [->|Hne].
    + rewrite list_lookup_insert_eq in Ho'; [|done]. simplify_eq.
      by rewrite back_of_snoc.
    + rewrite list_lookup_insert_ne in Ho'; [|done]. rewrite Hother in Hs'; [|done].
      by eapply (trie_own_back _ _ _ _ T).
  - intros s' st' ids' Hs' Ho'. destruct (decide (s' = s)) as [->|Hne].
    + rewrite list_lookup_insert_eq in Ho'; [|done]. simplify_eq.
      unfold tail_ptr. rewrite Hb1, Hnew. done.
    + rewrite list_lookup_insert_ne in Ho'; [|done]. rewrite Hother in Hs'; [|done].
      rewrite (Htail s' st' Hne Hs').
      eapply seg_frame; [|by eapply (trie_own_seg _ _ _ _ T)].
      intros r Hr. by eapply Hkeep.
  - intros s' ids' w' Ho' Hw'. unfold own_values. rewrite filter_app.
    destruct (decide (s' = s)) as [->|Hne].
    + rewrite list_lookup_insert_eq in Ho'; [|done].
      assert (w' = w) as -> by congruence. injection Ho' as <-.
      rewrite filter_cons_True; [|done]. rewrite filter_nil.
      apply Forall2_app.
      * pose proof (trie_own_values _ _ _ _ T _ _ _ Ho Hw) as Hv.
        eapply Forall2_impl; [exact Hv|].
        intros r iw (x & Hx & Hi & Hl). destruct (Hpay _ _ Hx) as (x' & Hx' & Hi' & Hl').
        exists x'. split_and!; [done|congruence|congruence].
      * constructor; [|constructor]. eexists. split; [exact Hnew|done].
    + rewrite list_lookup_insert_ne in Ho'; [|done].
      rewrite filter_cons_False, filter_nil, app_nil_r.
      2:{ simpl. intros ->. apply Hne. eapply NoDup_lookup; [apply T|done..]. }
      pose proof (trie_own_values _ _ _ _ T _ _ _ Ho' Hw') as Hv.
      eapply Forall2_impl; [exact Hv|].
      intros r iw (x & Hx & Hi & Hl). destruct (Hpay _ _ Hx) as (x' & Hx' & Hi' & Hl').
      exists x'. split_and!; [done|congruence|congruence].
  - intros iw Hiw. apply elem_of_app in Hiw as [Hiw|Hiw].
    + by apply (trie_words _ _ _ _ T).
    + apply list_elem_of_singleton in Hiw. subst. simpl.
      by eapply list_elem_of_lookup_2.
  - intros s' st' Hs'. destruct (decide (s' = s)) as [->|Hne].
    + simplify_eq. split.
      * rewrite Hfb1. by eapply F.
      * unfold tail_ptr. by rewrite Hb1, Hnew.
    + rewrite Hother in Hs'; [|done]. rewrite (Htail s' st' Hne Hs'). by eapply F.
Qed.

(** ** [extendForest] and [buildForestFromPattern] build a trie *)

Lemma total_length_app ws1 ws2 :
  total_length (ws1 ++ ws2) = (total_length ws1 + total_length ws2)%nat.
Proof. induction ws1 as [|iw ws1 IH]; simpl; [done|]. rewrite IH. lia. Qed.

Lemma extendForest_walk_spec h paths owns ws s w cs :
  trie h paths owns ws -> fresh h -> paths !! s = Some w ->
  exists h' s' paths' owns',
    extendForest_walk h s cs = Done (h', s')
    /\ trie h' paths' owns' ws /\ fresh h' /\ paths' !! s' = Some (w ++ cs)
    /\ (length (states h') <= length (states h) + length cs)%nat.
Proof.
  revert h paths owns s w. induction cs as [|c rest IH]; intros h paths owns s w T F Hw.
  - exists h, s, paths, owns. rewrite app_nil_r. split_and!; try done. simpl. lia.
  - destruct (lookup_lt_is_Some_2 (states h) s) as [st Hs].
    { rewrite <- (trie_len _ _ _ _ T). by eapply lookup_lt_Some. }
    simpl. unfold get_state. rewrite Hs. simpl.
    destruct (findTransition st c) as [t|] eqn:Hf.
    + pose proof (trie_child _ _ _ _ _ _ _ _ _ T Hs Hw Hf) as Hd.
      destruct (IH _ _ _ _ _ T F Hd)
        as (h' & s' & paths' & owns' & Hrun & T' & F' & Hp & Hsz).
      exists h', s', paths', owns'. rewrite <- app_assoc in Hp.
      split_and!; try done. simpl. lia.
    + destruct (trie_add_child _ _ _ _ _ _ _ _ T F Hs Hw Hf) as [T1 F1].
      rewrite set_state_Done.
      2:{ simpl. rewrite length_app. apply lookup_lt_Some in Hs. lia. }
      simpl. fold (add_child h s st c).
      assert (Hd : (paths ++ [w ++ [c]]) !! length (states h) = Some (w ++ [c])).
      { apply lookup_snoc_Some. right. by rewrite (trie_len _ _ _ _ T). }
      destruct (IH _ _ _ _ _ T1 F1 Hd)
        as (h' & s' & paths' & owns' & Hrun & T' & F' & Hp & Hsz).
      exists h', s', paths', owns'. rewrite <- app_assoc in Hp.
      split_and!; try done.
      simpl in Hsz |- *. rewrite length_insert, length_app in Hsz. simpl in Hsz. lia.
Qed.

Lemma extendForest_spec h paths owns ws cs idx :
  trie h paths owns ws -> fresh h ->
  exists h' paths' owns',
    extendForest h 0 cs idx = Done h'
    /\ trie h' paths' owns' (ws ++ [(idx, cs)]) /\ fresh h'
    /\ (length (states h') <= length (states h) + length cs)%nat.
Proof.
  intros T F.
  destruct (extendForest_walk_spec _ _ _ _ 0%nat [] cs T F (trie_root _ _ _ _ T))
    as (h1 & s & paths1 & owns1 & Hrun & T1 & F1 & Hp & Hsz).
  simpl in Hp. unfold extendForest. rewrite Hrun. simpl.
  destruct (lookup_lt_is_Some_2 (states h1) s) as [st Hs].
  { rewrite <- (trie_len _ _ _ _ T1). by eapply lookup_lt_Some. }
  destruct (lookup_lt_is_Some_2 owns1 s) as [ids Ho].
  { rewrite (trie_olen _ _ _ _ T1). by eapply lookup_lt_Some. }
  rewrite (addResult_Done _ _ st); [|done|].
  - destruct (trie_added _ _ _ _ _ _ _ _ idx T1 F1 Hs Hp Ho) as [T2 F2].
    cbv zeta in T2, F2. eexists _, _, _. split; [reflexivity|].
    split; [exact T2|]. split; [exact F2|].
    destruct (added_facts _ _ _ _ _ _ _ idx (Z.of_nat (length cs)) T1 F1 Hs Ho) as (-> & _).
    done.
  - pose proof (trie_own_back _ _ _ _ T1 _ _ _ Hs Ho) as Hb. rewrite Hb.
    destruct (list_nil_or_snoc ids) as [->|(l' & r & ->)].
    + by rewrite back_of_nil.
    + rewrite back_of_snoc. apply lookup_lt_is_Some_2.
      eapply (trie_own_valid _ _ _ _ T1); [exact Ho|]. apply elem_of_app. right. left.
Qed.

Lemma build_parts_spec h paths owns ws i ps :
  trie h paths owns ws -> fresh h ->
  exists h' paths' owns',
    build_parts h 0 i ps = Done h'
    /\ trie h' paths' owns' (ws ++ part_words i ps) /\ fresh h'
    /\ (length (states h') <= length (states h) + total_length (part_words i ps))%nat.
Proof.
  revert h paths owns ws i. induction ps as [|p ps IH]; intros h paths owns ws i T F.
  - exists h, paths, owns. rewrite app_nil_r. split_and!; try done. simpl. lia.
  - destruct (extendForest_spec _ _ _ _ (chars p) i T F)
      as (h1 & paths1 & owns1 & Hrun & T1 & F1 & Hsz1).
    destruct (IH _ _ _ _ (i + 1) T1 F1) as (h2 & paths2 & owns2 & Hrun2 & T2 & F2 & Hsz2).
    exists h2, paths2, owns2. simpl. rewrite Hrun. simpl.
    rewrite <- app_assoc in T2. split_and!; try done. lia.
Qed.

Lemma build_complements_spec h paths owns ws n i cs :
  trie h paths owns ws -> fresh h ->
  exists h' paths' owns',
    build_complements h 0 n i cs = Done h'
    /\ trie h' paths' owns' (ws ++ complement_words n i cs) /\ fresh h'
    /\ (length (states h') <= length (states h)
                               + total_length (complement_words n i cs))%nat.
Proof.
  revert h paths owns ws i. induction cs as [|c cs IH]; intros h paths owns ws i T F.
  - exists h, paths, owns. rewrite app_nil_r. split_and!; try done. simpl. lia.
  - destruct (extendForest_spec _ _ _ _ [c_ch c] (uadd n i) T F)
      as (h1 & paths1 & owns1 & Hrun & T1 & F1 & Hsz1).
    destruct (IH _ _ _ _ (i + 1) T1 F1) as (h2 & paths2 & owns2 & Hrun2 & T2 & F2 & Hsz2).
    exists h2, paths2, owns2. simpl. rewrite Hrun. simpl.
    rewrite <- app_assoc in T2. split_and!; try done. simpl in Hsz1. lia.
Qed.

Lemma trie_initial : trie (alloc_state Heap_empty).1 [[]] [[]] [] /\ fresh (alloc_state Heap_empty).1.
Proof.
  split; [split|]; simpl; try done.
  - apply NoDup_singleton.
  - intros [|s] w; [|done]. intros [= <-]. simpl. lia.
  - intros [|s] st w t; [|done]. intros [= <-] _ Ht. by apply elem_of_nil in Ht.
  - intros [|s] st; [|done]. intros [= <-]. apply NoDup_nil_2.
  - intros [|d] w c; [|done]. intros [= Heq]. by destruct w.
  - intros [|s] ids; [|done]. intros [= <-]. apply NoDup_nil_2.
  - intros [|s1] s2 ids1 ids2 r; [|done]. intros [= <-] _ Hr. by apply elem_of_nil in Hr.
  - intros [|s] ids r; [|done]. intros [= <-] Hr. by apply elem_of_nil in Hr.
  - intros [|s] st ids; [|done]. by intros [= <-] [= <-].
  - intros [|s] st ids; [|done]. by intros [= <-] [= <-].
  - intros [|s] ids w; [|done]. intros [= <-] [= <-]. constructor.
  - intros iw Hiw. by apply elem_of_nil in Hiw.
  - intros [|s] st; [|done]. by intros [= <-].
Qed.

(** [buildForestFromPattern] never fails; it returns a fresh trie over the
    words of the pattern, with state 0 as root. *)
Lemma buildForestFromPattern_spec pat :
  exists h paths owns,
    buildForestFromPattern pat = Done (h, 0%nat)
    /\ trie h paths owns (pattern_words pat) /\ fresh h
    /\ (length (states h) <= 1 + total_length (pattern_words pat))%nat.
Proof.
  destruct trie_initial as [T0 F0].
  destruct (build_parts_spec _ _ _ _ 0 (parts pat) T0 F0)
    as (h1 & paths1 & owns1 & Hrun1 & T1 & F1 & Hsz1).
  destruct (build_complements_spec _ _ _ _ (Z.of_nat (length (parts pat))) 0
              (complement pat) T1 F1) as (h2 & paths2 & owns2 & Hrun2 & T2 & F2 & Hsz2).
  exists h2, paths2, owns2. unfold buildForestFromPattern. simpl in *.
  rewrite Hrun1. simpl. rewrite Hrun2. split_and!; try done.
  unfold pattern_words. rewrite total_length_app. lia.
Qed.


(** ** Failure links *)

Lemma trie_state h paths owns ws s w :
  trie h paths owns ws -> paths !! s = Some w -> exists st, states h !! s = Some st.
Proof.
  intros T Hw. apply lookup_lt_is_Some_2.
  rewrite <- (trie_len _ _ _ _ T). by eapply lookup_lt_Some.
Qed.

Lemma trie_path h paths owns ws s st :
  trie h paths owns ws -> states h !! s = Some st -> exists w, paths !! s = Some w.
Proof.
  intros T Hs. apply lookup_lt_is_Some_2.
  rewrite (trie_len _ _ _ _ T). by eapply lookup_lt_Some.
Qed.

(** Paths are closed under prefixes. *)
Lemma trie_prefix_closed h paths owns ws w c :
  trie h paths owns ws -> w ++ [c] ∈ paths -> w ∈ paths.
Proof.
  intros T Hin. apply list_elem_of_lookup in Hin as [d Hd].
  destruct (trie_parent _ _ _ _ T _ _ _ Hd) as (s & st & Hw & _).
  by eapply list_elem_of_lookup_2.
Qed.

Lemma trie_root_unique h paths owns ws s :
  trie h paths owns ws -> paths !! s = Some [] -> s = 0%nat.
Proof.
  intros T Hs. eapply NoDup_lookup; [apply T|exact Hs|apply T].
Qed.

Lemma suffix_shorter {A} (u v w : list A) :
  u `suffix_of` w -> v `suffix_of` w -> (length u <= length v)%nat -> u `suffix_of` v.
Proof.
  intros Hu Hv Hl. destruct (suffix_weak_total _ _ _ Hu Hv) as [?|Hvu]; [done|].
  assert (v = u) as -> by (by apply suffix_length_eq). done.
Qed.

Lemma suffix_snoc_cases {A} (v w : list A) (c : A) :
  v `suffix_of` w ++ [c] -> v = [] \/ exists v', v = v' ++ [c] /\ v' `suffix_of` w.
Proof.
  intros Hv. destruct (list_nil_or_snoc v) as [->|(v' & x & ->)]; [by left|right].
  pose proof (suffix_snoc_inv_1 _ _ _ _ Hv) as ->.
  apply suffix_snoc_inv_2 in Hv. eauto.
Qed.

(** What [findFallback] computes when the states up to the depth of the
    start state are compiled. *)
Lemma findFallback_spec h paths owns ws c fuel p u :
  trie h paths owns ws ->
  (forall s w, paths !! s = Some w -> (length w <= length u)%nat -> closed h paths s) ->
  paths !! p = Some u ->
  (length u < fuel)%nat ->
  exists r, findFallback fuel h (Some p) c = Done r
    /\ match r with
       | Some d => exists v, v `suffix_of` u /\ paths !! d = Some (v ++ [c])
                     /\ forall v', v' `suffix_of` u -> v' ++ [c] ∈ paths ->
                                   (length v' <= length v)%nat
       | None => forall v', v' `suffix_of` u -> v' ++ [c] ∉ paths
       end.
Proof.
  intros T. revert p u. induction fuel as [|fuel IH]; intros p u Hcl Hu Hfuel; [lia|].
  destruct (trie_state _ _ _ _ _ _ T Hu) as [st Hs].
  simpl. unfold get_state. rewrite Hs. simpl.
  destruct (findTransition st c) as [t|] eqn:Hf.
  - exists (Some (dest t)). split; [done|]. exists u. split_and!; [done| |].
    + by eapply trie_child.
    + intros v' Hv' _. by apply suffix_length.
  - pose proof (trie_no_child _ _ _ _ _ _ _ _ T Hs Hu Hf) as Hno.
    destruct (Hcl p u Hu (le_n _) st u Hs Hu) as [Hroot Hnon].
    destruct (decide (u = [])) as [->|Hne].
    + destruct (Hroot eq_refl) as [-> _]. exists None. split; [by destruct fuel|].
      intros v' Hv'. apply suffix_nil_inv in Hv' as ->. done.
    + destruct (Hnon Hne) as (f & stf & u' & -> & Hsf & Hu' & (Hsuf & Hneq & Hin & Hmax) & _).
      assert (Hlt : (length u' < length u)%nat).
      { pose proof (suffix_length _ _ Hsuf).
        destruct (decide (length u' = length u)) as [Heq|]; [|lia].
        exfalso. apply Hneq. apply suffix_length_eq; [done|lia]. }
      destruct (IH f u') as (r & Hrun & Hr); [|done|lia|].
      { intros s w Hw Hl. apply (Hcl s w Hw). lia. }
      exists r. split; [done|].
      assert (Hdown : forall v', v' `suffix_of` u -> v' ++ [c] ∈ paths -> v' `suffix_of` u').
      { intros v' Hv' Hin'. apply (suffix_shorter _ _ u); [done..|].
        apply Hmax; [done| |by eapply trie_prefix_closed].
        intros ->. done. }
      destruct r as [d|].
      * destruct Hr as (v & Hv & Hd & Hvmax). exists v. split_and!; [|done|].
        -- by etrans.
        -- intros v' Hv' Hin'. apply Hvmax; [|done]. by apply Hdown.
      * intros v' Hv' Hin'. by apply (Hr v'); [apply Hdown|].
Qed.

(** The fallback the compiler gives to the child on [c] of a state with
    path [w]. *)
Lemma lps_root paths (c : byte) : [] ∈ paths -> is_lps paths [c] [].
Proof.
  intros Hin. split_and!; [apply suffix_nil|done|done|].
  intros v Hv Hne _. apply (suffix_snoc_cases v [] c) in Hv as [->|(v' & -> & Hv')].
  - done.
  - apply suffix_nil_inv in Hv' as ->. done.
Qed.

Lemma lps_step h paths owns ws w u c (r : option nat) :
  trie h paths owns ws ->
  is_lps paths w u ->
  match r with
  | Some d => exists v, v `suffix_of` u /\ paths !! d = Some (v ++ [c])
                /\ forall v', v' `suffix_of` u -> v' ++ [c] ∈ paths ->
                              (length v' <= length v)%nat
  | None => forall v', v' `suffix_of` u -> v' ++ [c] ∉ paths
  end ->
  exists x, paths !! (match r with Some d => d | None => 0%nat end) = Some x
            /\ is_lps paths (w ++ [c]) x.
Proof.
  intros T (Hsuf & Hneq & Hin & Hmax) Hr.
  assert (Hlt : (length u < length w)%nat).
  { pose proof (suffix_length _ _ Hsuf).
    destruct (decide (length u = length w)) as [Heq|]; [|lia].
    exfalso. apply Hneq. apply suffix_length_eq; [done|lia]. }
  assert (Hdown : forall v', v' `suffix_of` w -> v' <> w -> v' ++ [c] ∈ paths ->
                             v' `suffix_of` u).
  { intros v' Hv' Hne' Hin'. apply (suffix_shorter _ _ w); [done..|].
    apply Hmax; [done..|]. by eapply trie_prefix_closed. }
  destruct r as [d|].
  - destruct Hr as (v & Hv & Hd & Hvmax). exists (v ++ [c]). split; [done|].
    split_and!.
    + apply suffix_snoc. by etrans.
    + intros Heq. apply app_inj_tail in Heq as [-> _]. apply suffix_length in Hv. lia.
    + by eapply list_elem_of_lookup_2.
    + intros v'' Hv'' Hne'' Hin''.
      apply suffix_snoc_cases in Hv'' as [->|(v' & -> & Hv')]; [simpl; lia|].
      rewrite !length_app. simpl.
      assert (length v' <= length v)%nat; [|lia].
      apply Hvmax; [|done]. apply Hdown; [done| |done]. intros ->. done.
  - exists []. split; [apply T|]. split_and!.
    + apply suffix_nil.
    + by destruct w.
    + eapply list_elem_of_lookup_2, T.
    + intros v'' Hv'' Hne'' Hin''.
      apply suffix_snoc_cases in Hv'' as [->|(v' & -> & Hv')]; [done|].
      exfalso. apply (Hr v'); [|done]. apply Hdown; [done| |done]. intros ->. done.
Qed.

(** ** The two stores of the compiler: the fallback and the list tail *)

Lemma store_back_Done h paths owns ws s st v :
  trie h paths owns ws -> states h !! s = Some st ->
  store_back h s v = Done (stored h s st v).
Proof.
  intros T Hs. unfold store_back, stored, get_state, with_results. rewrite Hs. simpl.
  destruct (results_back st) as [|r] eqn:Hb.
  - rewrite set_state_Done; [reflexivity|]. by eapply lookup_lt_Some.
  - destruct (trie_path _ _ _ _ _ _ T Hs) as [w Hw].
    destruct (lookup_lt_is_Some_2 owns s) as [ids Ho].
    { rewrite (trie_olen _ _ _ _ T). by eapply lookup_lt_Some. }
    pose proof (trie_own_back _ _ _ _ T _ _ _ Hs Ho) as Hb'. rewrite Hb in Hb'.
    destruct (list_nil_or_snoc ids) as [->|(l & r' & ->)]; [done|].
    rewrite back_of_snoc in Hb'. injection Hb' as ->.
    assert (Hr : (r' < length (records h))%nat).
    { eapply (trie_own_valid _ _ _ _ T); [exact Ho|]. apply elem_of_app. right. left. }
    destruct (lookup_lt_is_Some_2 _ _ Hr) as [x Hx].
    unfold get_record. rewrite Hx. simpl. rewrite set_record_Done; [reflexivity|done].
Qed.

Lemma stored_spec h paths owns ws s st v :
  trie h paths owns ws -> states h !! s = Some st ->
  trie (stored h s st v) paths owns ws
  /\ forall x stx, states h !! x = Some stx ->
       exists stx', states (stored h s st v) !! x = Some stx'
         /\ transitions stx' = transitions stx /\ fallback stx' = fallback stx
         /\ (x <> s -> results stx' = results stx
                       /\ tail_ptr (stored h s st v) stx' = tail_ptr h stx)
         /\ (x = s -> tail_ptr (stored h s st v) stx' = v).
Proof.
  intros T Hs.
  pose proof (lookup_lt_Some _ _ _ Hs) as Hlt.
  destruct (lookup_lt_is_Some_2 owns s) as [ids Ho].
  { by rewrite (trie_olen _ _ _ _ T). }
  pose proof (trie_own_back _ _ _ _ T _ _ _ Hs Ho) as Hb.
  pose proof (trie_own_seg _ _ _ _ T _ _ _ Hs Ho) as Hsg.
  pose proof (trie_own_nodup _ _ _ _ T _ _ Ho) as Hnd.
  destruct (list_nil_or_snoc ids) as [->|(l & r & ->)].
  - rewrite back_of_nil in Hb. unfold stored. rewrite Hb.
    set (h' := {| states := <[s:=with_results st v]> (states h); records := records h |}).
    assert (Hfr : forall x stx, states h !! x = Some stx ->
       exists stx', states h' !! x = Some stx'
         /\ transitions stx' = transitions stx /\ fallback stx' = fallback stx
         /\ results_back stx' = results_back stx
         /\ (x <> s -> results stx' = results stx /\ tail_ptr h' stx' = tail_ptr h stx)
         /\ (x = s -> tail_ptr h' stx' = v)).
    { intros x stx Hx. destruct (decide (x = s)) as [->|Hne].
      - simplify_eq. exists (with_results st v). split_and!; try done.
        + by apply list_lookup_insert_eq.
        + intros _. unfold tail_ptr. simpl. by rewrite Hb.
      - exists stx. split_and!; try done. simpl. by rewrite list_lookup_insert_ne. }
    split.
    + eapply trie_reshape; [exact T|..].
      * simpl. by rewrite length_insert.
      * done.
      * intros x stx' Hx'.
        destruct (lookup_lt_is_Some_2 (states h) x) as [stx Hx].
        { apply lookup_lt_Some in Hx'. simpl in Hx'. by rewrite length_insert in Hx'. }
        destruct (Hfr _ _ Hx) as (stx2 & Hx2 & ? & ? & ? & _). simplify_eq. eauto.
      * intros r x Hx. eauto.
      * intros x stx' ids Hx' Ho'. destruct (decide (x = s)) as [->|Hxs].
        -- assert (stx' = with_results st v) as ->.
           { simpl in Hx'. rewrite list_lookup_insert_eq in Hx'; [|done]. congruence. }
           assert (ids = []) as -> by congruence.
           simpl. unfold tail_ptr. simpl. by rewrite Hb.
        -- simpl in Hx'. rewrite list_lookup_insert_ne in Hx'; [|done].
           change (tail_ptr h' stx') with (tail_ptr h stx').
           eapply (seg_frame h); [done|]. by eapply (trie_own_seg _ _ _ _ T).
    + intros x stx Hx. destruct (Hfr _ _ Hx) as (stx' & ? & ? & ? & ? & ? & ?).
      exists stx'. done.
  - rewrite back_of_snoc in Hb.
    assert (Hr : (r < length (records h))%nat).
    { eapply (trie_own_valid _ _ _ _ T); [exact Ho|]. apply elem_of_app. right. left. }
    destruct (lookup_lt_is_Some_2 _ _ Hr) as [y Hy].
    unfold stored. rewrite Hb, Hy.
    set (h' := {| states := states h; records := <[r:=with_next y v]> (records h) |}).
    assert (Hkeep : forall x ids' r', x <> s -> owns !! x = Some ids' -> r' ∈ ids' ->
              records h' !! r' = records h !! r').
    { intros x ids' r' Hne Ho' Hr'. simpl. apply list_lookup_insert_ne. intros <-.
      apply Hne. eapply (trie_own_disj _ _ _ _ T); [exact Ho'|exact Ho|done|].
      apply elem_of_app. right. left. }
    assert (Htail : forall x stx, x <> s -> states h !! x = Some stx ->
              tail_ptr h' stx = tail_ptr h stx).
    { intros x stx Hne Hx.
      destruct (lookup_lt_is_Some_2 owns x) as [ids' Ho'].
      { rewrite (trie_olen _ _ _ _ T). by eapply lookup_lt_Some. }
      pose proof (trie_own_back _ _ _ _ T _ _ _ Hx Ho') as Hb'.
      unfold tail_ptr. rewrite Hb'.
      destruct (list_nil_or_snoc ids') as [->|(l' & r' & ->)].
      - by rewrite back_of_nil.
      - rewrite back_of_snoc.
        assert (records h' !! r' = records h !! r') as ->; [|done].
        eapply Hkeep; [done|done|]. apply elem_of_app. right. left. }
    assert (Hts : tail_ptr h' st = v).
    { unfold tail_ptr. rewrite Hb. simpl. by rewrite list_lookup_insert_eq. }
    split.
    + eapply trie_reshape; [exact T|..].
      * done.
      * simpl. by rewrite length_insert.
      * intros x stx' Hx'. eauto.
      * intros r' x Hx. destruct (decide (r' = r)) as [->|Hne].
        -- simplify_eq. exists (with_next y v). split; [|done].
           simpl. by apply list_lookup_insert_eq.
        -- exists x. split; [|done]. simpl. by rewrite list_lookup_insert_ne.
      * intros x stx' ids Hx' Ho'. destruct (decide (x = s)) as [->|Hxs].
        -- simpl in Hx'. simplify_eq. rewrite Hts.
           apply seg_snoc in Hsg as [Hsg _]. apply seg_snoc. split.
           ++ eapply seg_frame; [|exact Hsg]. intros r' Hr'. simpl.
              apply list_lookup_insert_ne. intros <-.
              apply NoDup_app in Hnd as (_ & Hnd & _). apply (Hnd _ Hr'). left.
           ++ exists (with_next y v). split; [|done]. simpl. by apply list_lookup_insert_eq.
        -- simpl in Hx'. rewrite (Htail x stx' Hxs Hx').
           eapply seg_frame; [|by eapply (trie_own_seg _ _ _ _ T)].
           intros r' Hr'. by eapply Hkeep.
    + intros x stx Hx. exists stx. split_and!; try done.
      * intros Hne. split; [done|]. by eapply Htail.
      * intros ->. by simplify_eq.
Qed.

Lemma with_fallback_spec h paths owns ws s st f :
  trie h paths owns ws -> states h !! s = Some st ->
  let h' := {| states := <[s := with_fallback st f]> (states h); records := records h |} in
  trie h' paths owns ws
  /\ states h' !! s = Some (with_fallback st f)
  /\ (forall x, x <> s -> states h' !! x = states h !! x)
  /\ (forall stx, tail_ptr h' stx = tail_ptr h stx).
Proof.
  intros T Hs h'. pose proof (lookup_lt_Some _ _ _ Hs) as Hlt.
  assert (Heq : states h' !! s = Some (with_fallback st f)).
  { by apply list_lookup_insert_eq. }
  assert (Hne : forall x, x <> s -> states h' !! x = states h !! x).
  { intros x Hx. simpl. by rewrite list_lookup_insert_ne. }
  split_and!; [|done..].
  eapply trie_reshape; [exact T|..].
  - simpl. by rewrite length_insert.
  - done.
  - intros x stx' Hx'. destruct (decide (x = s)) as [->|Hxs].
    + rewrite Heq in Hx'. simplify_eq. eauto.
    + rewrite Hne in Hx'; [|done]. eauto.
  - eauto.
  - intros x stx' ids Hx' Ho. destruct (decide (x = s)) as [->|Hxs].
    + rewrite Heq in Hx'. simplify_eq.
      pose proof (trie_own_seg _ _ _ _ T _ _ _ Hs Ho) as Hsg.
      eapply (seg_frame h); [|exact Hsg]. done.
    + rewrite Hne in Hx'; [|done].
      pose proof (trie_own_seg _ _ _ _ T _ _ _ Hx' Ho) as Hsg.
      eapply (seg_frame h); [|exact Hsg]. done.
Qed.

(** ** The breadth-first pass *)

Lemma is_lps_shorter paths w u : is_lps paths w u -> (length u < length w)%nat.
Proof.
  intros (Hsuf & Hneq & _). pose proof (suffix_length _ _ Hsuf).
  destruct (decide (length u = length w)) as [Heq|]; [|lia].
  exfalso. apply Hneq. apply suffix_length_eq; [done|lia].
Qed.

Lemma forest_link_spec h paths owns ws L q fuel w sf c d :
  trie h paths owns ws ->
  (forall x, x ∈ L -> closed h paths x) ->
  level_ok paths L -> complete paths (length w) L ->
  fallback_ok paths w sf ->
  paths !! d = Some (w ++ [c]) -> d ∉ L ->
  (length w < fuel)%nat ->
  exists h',
    forest_link fuel 0 sf (h, q) {| t_ch := c; dest := d |} = Done (h', q ++ [d])
    /\ trie h' paths owns ws
    /\ (forall x, x ∈ L ++ [d] -> closed h' paths x)
    /\ level_ok paths (L ++ [d])
    /\ (forall x stx, states h !! x = Some stx ->
          exists stx', states h' !! x = Some stx' /\ transitions stx' = transitions stx).
Proof.
  intros T Hcl Hlev Hcomp Hsf Hd HdL Hfuel.
  (* the fallback found *)
  assert (exists df xf, findFallback fuel h sf c = Done df
            /\ paths !! (match df with Some x => x | None => 0%nat end) = Some xf
            /\ is_lps paths (w ++ [c]) xf) as (df & xf & Hrun & Hxf & Hlps).
  { destruct sf as [fs|]; simpl in Hsf.
    - destruct Hsf as (u & Hu & Hlu). pose proof (is_lps_shorter _ _ _ Hlu) as Hlt.
      destruct (findFallback_spec h paths owns ws c fuel fs u T) as (r & Hrun & Hr);
        [|done|lia|].
      { intros s w' Hw' Hl. apply Hcl. apply (Hcomp s w' Hw'). lia. }
      destruct (lps_step _ _ _ _ _ _ c r T Hlu Hr) as (x & Hx & Hlx).
      exists r, x. done.
    - subst w. exists None, []. split_and!.
      + by destruct fuel.
      + apply T.
      + apply lps_root. eapply list_elem_of_lookup_2, T. }
  set (f := match df with Some x => x | None => 0%nat end) in *.
  assert (HfL : f ∈ L).
  { apply (Hcomp f xf Hxf). apply is_lps_shorter in Hlps.
    rewrite length_app in Hlps. simpl in Hlps. lia. }
  assert (Hfd : f <> d) by (intros ->; done).
  destruct (trie_state _ _ _ _ _ _ T Hd) as [dst Hdst].
  destruct (trie_state _ _ _ _ _ _ T Hxf) as [stf Hstf].
  destruct (with_fallback_spec _ _ _ _ _ _ (Some f) T Hdst) as (T1 & Hd1 & Hne1 & Htl1).
  set (h1 := {| states := <[d := with_fallback dst (Some f)]> (states h);
                records := records h |}) in *.
  destruct (stored_spec _ _ _ _ _ _ (results stf) T1 Hd1) as (T2 & Hfr2).
  set (h2 := stored h1 d (with_fallback dst (Some f)) (results stf)) in *.
  (* how a state of [h] looks in [h2] *)
  assert (Hfr : forall x stx, states h !! x = Some stx ->
            exists stx', states h2 !! x = Some stx'
              /\ transitions stx' = transitions stx
              /\ (x <> d -> fallback stx' = fallback stx /\ results stx' = results stx
                            /\ tail_ptr h2 stx' = tail_ptr h stx)
              /\ (x = d -> fallback stx' = Some f /\ tail_ptr h2 stx' = results stf)).
  { intros x stx Hx. destruct (decide (x = d)) as [->|Hxd].
    - simplify_eq. destruct (Hfr2 _ _ Hd1) as (stx' & Hx' & Htr & Hfb & _ & Heq).
      exists stx'. split_and!; [done|done|done|]. intros _. split; [done|by apply Heq].
    - assert (Hx1 : states h1 !! x = Some stx) by (by rewrite Hne1).
      destruct (Hfr2 _ _ Hx1) as (stx' & Hx' & Htr & Hfb & Hne & _).
      exists stx'. split_and!; [done|done| |done].
      intros _. destruct (Hne Hxd) as [? ?]. split_and!; [done|done|].
      by rewrite <- (Htl1 stx). }
  exists h2. split_and!.
  - unfold forest_link. simpl. rewrite Hrun. simpl. fold f.
    unfold get_state at 1. rewrite Hdst. simpl.
    rewrite set_state_Done; [|by eapply lookup_lt_Some]. simpl.
    fold (with_fallback dst (Some f)). fold h1.
    unfold get_state. rewrite (Hne1 f Hfd), Hstf. simpl.
    by rewrite (store_back_Done _ _ _ _ _ _ _ T1 Hd1).
  - done.
  - intros x Hx st2 wx Hx2 Hwx.
    destruct (trie_state _ _ _ _ _ _ T Hwx) as [stx Hstx].
    destruct (Hfr _ _ Hstx) as (stx' & Hx' & Htr & Hne & Heq). simplify_eq.
    destruct (Hfr _ _ Hstf) as (stf' & Hf' & _ & Hnef & _).
    destruct (Hnef Hfd) as (_ & Hresf & _).
    apply elem_of_app in Hx as [Hx|Hx].
    + assert (Hxd : x <> d) by (intros ->; done).
      destruct (Hne Hxd) as (Hfb & Hres & Htl). rewrite Hfb, Htl.
      destruct (Hcl x Hx stx wx Hstx Hwx) as [Hroot Hnon]. split; [done|].
      intros Hw. destruct (Hnon Hw) as (fx & stfx & ux & Hfbx & Hsfx & Hux & Hlx & Htx).
      assert (Hfxd : fx <> d).
      { apply list_elem_of_lookup in Hx as [i Hi].
        destruct (Hlev i x fx wx ux Hi Hwx Hux (is_lps_shorter _ _ _ Hlx)) as (j & _ & Hj).
        intros ->. apply HdL. by eapply list_elem_of_lookup_2. }
      destruct (Hfr _ _ Hsfx) as (stfx' & Hfx' & _ & Hnefx & _).
      destruct (Hnefx Hfxd) as (_ & Hresfx & _).
      exists fx, stfx', ux. split_and!; [done|done|done|done|congruence].
    + apply list_elem_of_singleton in Hx as ->.
      destruct (Heq eq_refl) as [Hfb Htl]. split.
      * intros ->. simplify_eq. by destruct w.
      * intros _. exists f, stf', xf. simplify_eq.
        split_and!; [done|done|done|done|congruence].
  - intros i x y wx wy Hi Hwx Hwy Hl. apply lookup_snoc_Some in Hi as [Hi|[-> ->]].
    + destruct (Hlev i x y wx wy Hi Hwx Hwy Hl) as (j & Hj & Hy).
      exists j. split; [done|]. by apply lookup_app_l_Some.
    + simplify_eq. rewrite length_app in Hl. simpl in Hl.
      assert (HyL : y ∈ L) by (apply (Hcomp y wy Hwy); lia).
      apply list_elem_of_lookup in HyL as [j Hj]. exists j.
      split; [by eapply lookup_lt_Some|by apply lookup_app_l_Some].
  - intros x stx Hx. destruct (Hfr _ _ Hx) as (stx' & ? & ? & _). eauto.
Qed.

Lemma forest_links_spec h paths owns ws L q fuel w sf pend :
  trie h paths owns ws ->
  (forall x, x ∈ L -> closed h paths x) ->
  level_ok paths L -> complete paths (length w) L ->
  fallback_ok paths w sf ->
  (forall t, t ∈ pend -> paths !! dest t = Some (w ++ [t_ch t])) ->
  (forall t, t ∈ pend -> dest t ∉ L) ->
  NoDup (dest <$> pend) ->
  (length w < fuel)%nat ->
  exists h',
    forest_links fuel 0 sf (h, q) pend = Done (h', q ++ (dest <$> pend))
    /\ trie h' paths owns ws
    /\ (forall x, x ∈ L ++ (dest <$> pend) -> closed h' paths x)
    /\ level_ok paths (L ++ (dest <$> pend))
    /\ (forall x stx, states h !! x = Some stx ->
          exists stx', states h' !! x = Some stx' /\ transitions stx' = transitions stx).
Proof.
  revert h L q. induction pend as [|[c d] pend IH];
    intros h L q T Hcl Hlev Hcomp Hsf Hp HnL Hnd Hfuel.
  - exists h. csimpl. rewrite !app_nil_r. split_and!; try done. eauto.
  - rewrite fmap_cons in Hnd. apply NoDup_cons in Hnd as [Hd Hnd]. simpl in Hd.
    destruct (forest_link_spec h paths owns ws L q fuel w sf c d T Hcl Hlev Hcomp Hsf)
      as (h1 & Hrun & T1 & Hcl1 & Hlev1 & Hfr1); [|apply (HnL (mkTransition c d)); left|done|].
    { apply (Hp (mkTransition c d)). left. }
    destruct (IH h1 (L ++ [d]) (q ++ [d]) T1 Hcl1 Hlev1)
      as (h2 & Hrun2 & T2 & Hcl2 & Hlev2 & Hfr2); [| |intros t Ht; apply Hp; by right| |done..|].
    { intros y wy Hy Hl. apply elem_of_app. left. by eapply Hcomp. }
    { done. }
    { intros t Ht Hin. apply elem_of_app in Hin as [Hin|Hin].
      - apply (HnL t); [by right|done].
      - apply list_elem_of_singleton in Hin. apply Hd. rewrite <- Hin.
        by apply list_elem_of_fmap_2. }
    exists h2. rewrite fmap_cons.
    change (forest_links fuel 0 sf (h, q) (mkTransition c d :: pend))
      with (bind (forest_link fuel 0 sf (h, q) (mkTransition c d))
                 (fun hq1 => forest_links fuel 0 sf hq1 pend)).
    rewrite Hrun. cbn [bind dest].
    rewrite <- !app_assoc in *. simpl in *. split_and!; try done.
    intros x stx Hx. destruct (Hfr1 _ _ Hx) as (stx1 & Hx1 & Htr1).
    destruct (Hfr2 _ _ Hx1) as (stx2 & Hx2 & Htr2). exists stx2. split; [done|congruence].
Qed.

Lemma trie_dest_nodup h paths owns ws s st :
  trie h paths owns ws -> states h !! s = Some st -> NoDup (dest <$> transitions st).
Proof.
  intros T Hs. destruct (trie_path _ _ _ _ _ _ T Hs) as [w Hw].
  pose proof (trie_trans_nodup _ _ _ _ T _ _ Hs) as Hnd.
  apply NoDup_fmap_2_strong; [|by eapply NoDup_fmap_1].
  intros t1 t2 Ht1 Ht2 Heq.
  pose proof (trie_trans _ _ _ _ T _ _ _ _ Hs Hw Ht1) as H1.
  pose proof (trie_trans _ _ _ _ T _ _ _ _ Hs Hw Ht2) as H2.
  rewrite Heq in H1. rewrite H1 in H2. injection H2 as H2.
  apply app_inj_tail in H2 as [_ Hc]. destruct t1, t2. simpl in *. congruence.
Qed.

Lemma complete_from_children h paths owns ws (D L : list nat) n :
  trie h paths owns ws -> 0%nat ∈ L ->
  (forall p st t, p ∈ D -> states h !! p = Some st -> t ∈ transitions st -> dest t ∈ L) ->
  (forall y wy, paths !! y = Some wy -> (length wy < n)%nat -> y ∈ D) ->
  complete paths n L.
Proof.
  intros T Hroot Hch HD y wy Hy Hl.
  destruct (list_nil_or_snoc wy) as [->|(wy' & c & ->)].
  - by rewrite (trie_root_unique _ _ _ _ _ T Hy).
  - destruct (trie_parent _ _ _ _ T _ _ _ Hy) as (p & st & Hp & Hst & Hin).
    apply (Hch p st _ (HD p wy' Hp ltac:(rewrite length_app in Hl; simpl in Hl; lia)) Hst Hin).
Qed.

Lemma NoDup_bounded_length (l : list nat) n :
  NoDup l -> (forall x, x ∈ l -> (x < n)%nat) -> (length l <= n)%nat.
Proof.
  intros Hnd Hb. assert (Hsub : l ⊆+ seq 0 n).
  { apply NoDup_submseteq; [done|]. intros x Hx. apply elem_of_seq.
    specialize (Hb x Hx). lia. }
  apply submseteq_length in Hsub. by rewrite length_seq in Hsub.
Qed.

Lemma bfs_inv_valid h paths owns ws D q x :
  trie h paths owns ws -> bfs_inv h paths D q -> x ∈ D ++ q ->
  (x < length (states h))%nat.
Proof.
  intros T I Hx. rewrite <- (trie_len _ _ _ _ T).
  destruct (bi_origin _ _ _ _ I x Hx) as [->|(p & st & t & Hp & Hst & Ht & <-)].
  - eapply lookup_lt_Some, T.
  - destruct (trie_path _ _ _ _ _ _ T Hst) as [wp Hwp].
    eapply lookup_lt_Some, (trie_trans _ _ _ _ T); done.
Qed.

Lemma bfs_inv_final h paths owns ws D :
  trie h paths owns ws -> bfs_inv h paths D [] -> forall s, closed h paths s.
Proof.
  intros T I.
  assert (Hroot : 0%nat ∈ D).
  { pose proof (bi_root _ _ _ _ I) as H0. by rewrite app_nil_r in H0. }
  assert (Hch : forall p st t, p ∈ D -> states h !! p = Some st -> t ∈ transitions st ->
                               dest t ∈ D).
  { intros p st t Hp Hst Ht. pose proof (bi_children _ _ _ _ I p st t Hp Hst Ht) as Hc.
    by rewrite app_nil_r in Hc. }
  assert (Hall : forall n y wy, paths !! y = Some wy -> (length wy < n)%nat -> y ∈ D).
  { intros n. induction n as [|n IHn]; intros y wy Hy Hl; [lia|].
    eapply (complete_from_children h paths owns ws D D n T Hroot Hch IHn); [exact Hy|lia]. }
  intros s st w Hs Hw. apply (bi_closed _ _ _ _ I s); [|done..].
  rewrite app_nil_r. apply (Hall (S (length w)) s w Hw). lia.
Qed.

Lemma forest_bfs_spec paths owns ws fuel budget h D q :
  trie h paths owns ws -> bfs_inv h paths D q ->
  (length (states h) < fuel)%nat ->
  (length (states h) <= budget + length D)%nat ->
  exists h', forest_bfs fuel budget 0 h q = Done h'
    /\ trie h' paths owns ws /\ forall s, closed h' paths s.
Proof.
  revert h D q. induction budget as [|budget IH]; intros h D q T I Hfuel Hbud.
  all: destruct q as [|s q];
    [exists h; split; [done|]; split; [done|]; by eapply bfs_inv_final|].
  all: pose proof (NoDup_bounded_length _ _ (bi_nodup _ _ _ _ I)
                     (fun x => bfs_inv_valid _ _ _ _ _ _ x T I)) as Hcount;
    rewrite length_app in Hcount; simpl in Hcount.
  { lia. }
  assert (Hvalid : forall x, x ∈ D ++ s :: q -> (x < length (states h))%nat).
  { intros x. by eapply bfs_inv_valid. }
  pose proof (bi_nodup _ _ _ _ I) as Hnd.
  assert (HsL : s ∈ D ++ s :: q) by (apply elem_of_app; right; left).
  destruct (lookup_lt_is_Some_2 (states h) s (Hvalid s HsL)) as [st Hs].
  destruct (trie_path _ _ _ _ _ _ T Hs) as [w Hw].
  assert (HsD : s ∉ D).
  { apply NoDup_app in Hnd as (_ & Hnd & _). intros Hin. apply (Hnd s Hin). left. }
  assert (Hidx : (D ++ s :: q) !! length D = Some s) by (by apply list_lookup_middle).
  assert (Hbefore : forall y wy, paths !! y = Some wy -> (length wy < length w)%nat -> y ∈ D).
  { intros y wy Hy Hl.
    destruct (bi_level _ _ _ _ I (length D) s y w wy Hidx Hw Hy Hl) as (j & Hj & Hjy).
    rewrite lookup_app_l in Hjy; [|done]. by eapply list_elem_of_lookup_2. }
  assert (Hcomp : complete paths (length w) (D ++ s :: q)).
  { eapply complete_from_children; [exact T|apply I| |exact Hbefore].
    intros p stp t Hp Hstp Ht. by eapply (bi_children _ _ _ _ I). }
  assert (Hsf : fallback_ok paths w (fallback st)).
  { destruct (bi_closed _ _ _ _ I s HsL st w Hs Hw) as [Hroot Hnon].
    destruct (decide (w = [])) as [->|Hne].
    - by destruct (Hroot eq_refl) as [-> _].
    - destruct (Hnon Hne) as (f & stf & u & -> & _ & Hu & Hlu & _). simpl. eauto. }
  assert (Hfresh : forall t, t ∈ transitions st -> dest t ∉ D ++ s :: q).
  { intros t Ht Hin. pose proof (trie_trans _ _ _ _ T _ _ _ _ Hs Hw Ht) as Hdt.
    destruct (bi_origin _ _ _ _ I _ Hin) as [H0|(p & stp & t' & Hp & Hstp & Ht' & Heq)].
    - rewrite H0, (trie_root _ _ _ _ T) in Hdt. injection Hdt as Hdt. by destruct w.
    - destruct (trie_path _ _ _ _ _ _ T Hstp) as [wp Hwp].
      pose proof (trie_trans _ _ _ _ T _ _ _ _ Hstp Hwp Ht') as Hdt'.
      rewrite Heq, Hdt in Hdt'. injection Hdt' as Hdt'.
      apply app_inj_tail in Hdt' as [-> _].
      assert (p = s) as -> by (eapply NoDup_lookup; [apply T|done..]). done. }
  destruct (forest_links_spec h paths owns ws (D ++ s :: q) q fuel w (fallback st)
              (transitions st) T (bi_closed _ _ _ _ I) (bi_level _ _ _ _ I) Hcomp Hsf)
    as (h1 & Hrun & T1 & Hcl1 & Hlev1 & Hfr1).
  { intros t Ht. by eapply (trie_trans _ _ _ _ T). }
  { done. }
  { by eapply trie_dest_nodup. }
  { pose proof (trie_short _ _ _ _ T _ _ Hw). lia. }
  assert (Hlen1 : length (states h1) = length (states h)).
  { by rewrite <- (trie_len _ _ _ _ T1), (trie_len _ _ _ _ T). }
  assert (Hback : forall x stx1, states h1 !! x = Some stx1 ->
            exists stx, states h !! x = Some stx /\ transitions stx1 = transitions stx).
  { intros x stx1 Hx1. destruct (lookup_lt_is_Some_2 (states h) x) as [stx Hx].
    { rewrite <- Hlen1. by eapply lookup_lt_Some. }
    destruct (Hfr1 _ _ Hx) as (stx' & Hx' & Htr). simplify_eq. eauto. }
  destruct (IH h1 (D ++ [s]) (q ++ (dest <$> transitions st)) T1) as (h2 & Hrun2 & T2 & Hcl2).
  - assert (Hre : (D ++ [s]) ++ q ++ (dest <$> transitions st)
                  = (D ++ s :: q) ++ (dest <$> transitions st)).
    { by rewrite <- !app_assoc. }
    split; rewrite ?Hre.
    + apply NoDup_app. split_and!; [done| |apply (trie_dest_nodup _ _ _ _ _ _ T Hs)].
      intros x Hx Hx'. apply list_elem_of_fmap in Hx' as (t & -> & Ht).
      by apply (Hfresh t Ht).
    + apply elem_of_app. left. apply I.
    + intros x Hx. apply elem_of_app in Hx as [Hx|Hx].
      * destruct (bi_origin _ _ _ _ I x Hx) as [->|(p & stp & t & Hp & Hstp & Ht & <-)];
          [by left|right].
        destruct (Hfr1 _ _ Hstp) as (stp1 & Hstp1 & Htr).
        exists p, stp1, t. split_and!; [apply elem_of_app; by left|done|by rewrite Htr|done].
      * right. apply list_elem_of_fmap in Hx as (t & -> & Ht).
        destruct (Hfr1 _ _ Hs) as (st1 & Hst1 & Htr).
        exists s, st1, t. split_and!; [apply elem_of_app; right; left|done|by rewrite Htr|done].
    + intros p stp1 t Hp Hstp1 Ht. destruct (Hback _ _ Hstp1) as (stp & Hstp & Htr).
      rewrite Htr in Ht. apply elem_of_app. apply elem_of_app in Hp as [Hp|Hp].
      * left. by eapply (bi_children _ _ _ _ I).
      * apply list_elem_of_singleton in Hp as ->. simplify_eq. right.
        by apply list_elem_of_fmap_2.
    + done.
    + done.
  - lia.
  - rewrite length_app. simpl. lia.
  - exists h2. split; [|done]. simpl. unfold get_state. rewrite Hs. simpl.
    rewrite Hrun. simpl. done.
Qed.

(** [forestIntoStateMachine] finishes and compiles every state. *)
Lemma forestIntoStateMachine_spec h paths owns ws fuel :
  trie h paths owns ws -> fresh h ->
  (length (states h) < fuel)%nat ->
  exists h', forestIntoStateMachine fuel h 0 = Done h'
    /\ trie h' paths owns ws /\ forall s, closed h' paths s.
Proof.
  intros T F Hfuel. unfold forestIntoStateMachine.
  apply (forest_bfs_spec paths owns ws fuel fuel h [] [0%nat] T); [|done|simpl; lia].
  split; simpl.
  - apply NoDup_singleton.
  - left.
  - intros x Hx. apply list_elem_of_singleton in Hx. by left.
  - intros p st t Hp. by apply elem_of_nil in Hp.
  - intros i x y wx wy Hi Hwx Hwy Hl. destruct i as [|i]; [|done].
    injection Hi as <-. rewrite (trie_root _ _ _ _ T) in Hwx. injection Hwx as <-.
    simpl in Hl. lia.
  - intros x Hx st w Hs Hw. apply list_elem_of_singleton in Hx as ->.
    rewrite (trie_root _ _ _ _ T) in Hw. injection Hw as <-.
    split; [intros _; by eapply F|done].
Qed.

Lemma pattern_fuel_states pat h :
  (length (states h) <= 1 + total_length (pattern_words pat))%nat ->
  forall fuel, (pattern_fuel pat <= fuel)%nat -> (length (states h) < fuel)%nat.
Proof. unfold pattern_fuel. lia. Qed.

(** Building and compiling the automaton of a pattern always succeeds. *)
Lemma compile_spec pat fuel :
  (pattern_fuel pat <= fuel)%nat ->
  exists h0 h paths owns,
    buildForestFromPattern pat = Done (h0, 0%nat)
    /\ forestIntoStateMachine fuel h0 0 = Done h
    /\ trie h0 paths owns (pattern_words pat) /\ fresh h0
    /\ automaton h paths owns (pattern_words pat)
    /\ (length (states h) < fuel)%nat.
Proof.
  intros Hfuel.
  destruct (buildForestFromPattern_spec pat) as (h0 & paths & owns & Hb & T0 & F0 & Hsz).
  pose proof (pattern_fuel_states pat h0 Hsz fuel Hfuel) as Hlt.
  destruct (forestIntoStateMachine_spec h0 paths owns _ fuel T0 F0 Hlt) as (h & Hc & T & Hcl).
  exists h0, h, paths, owns. split_and!; try done.
  by rewrite <- (trie_len _ _ _ _ T), (trie_len _ _ _ _ T0).
Qed.


(** ** Paths and runs *)

Lemma trie_prefix_closed_app h paths owns ws u v :
  trie h paths owns ws -> u ++ v ∈ paths -> u ∈ paths.
Proof.
  intros T. induction v as [|c v IH] using rev_ind.
  - by rewrite app_nil_r.
  - rewrite app_assoc. intros Hin. apply IH. by eapply trie_prefix_closed.
Qed.

Lemma run_path h paths owns ws s u w d :
  trie h paths owns ws -> paths !! s = Some u ->
  run h s w = Some d <-> paths !! d = Some (u ++ w).
Proof.
  intros T. revert s u. induction w as [|c w IH]; intros s u Hu; simpl.
  - rewrite app_nil_r. split.
    + by intros [= <-].
    + intros Hd. f_equal. eapply NoDup_lookup; [apply T|done..].
  - destruct (trie_state _ _ _ _ _ _ T Hu) as [st Hs]. rewrite Hs.
    rewrite (cons_middle c u w), app_assoc.
    destruct (findTransition st c) as [t|] eqn:Hf.
    + apply IH. by eapply trie_child.
    + split; [done|]. intros Hd. exfalso.
      eapply (trie_no_child _ _ _ _ _ _ _ _ T Hs Hu Hf).
      eapply trie_prefix_closed_app; [done|]. by eapply list_elem_of_lookup_2.
Qed.

Lemma run_root h paths owns ws w d :
  trie h paths owns ws -> run h 0 w = Some d <-> paths !! d = Some w.
Proof. intros T. apply (run_path h paths owns ws 0%nat [] w d T), T. Qed.

Lemma run_is_Some h paths owns ws w :
  trie h paths owns ws -> is_Some (run h 0 w) <-> w ∈ paths.
Proof.
  intros T. split.
  - intros [d Hd]. apply (run_root _ _ _ _ _ _ T) in Hd. by eapply list_elem_of_lookup_2.
  - intros Hin. apply list_elem_of_lookup in Hin as [d Hd]. exists d.
    by apply (run_root _ _ _ _ _ _ T).
Qed.

(** ** The step of the scanner *)

Lemma stepMatching_spec h paths owns ws fuel cs w c :
  automaton h paths owns ws ->
  paths !! cs = Some w -> (length w < fuel)%nat ->
  exists cs' v,
    stepMatching fuel h cs c = Done (cs', bool_decide (v <> []))
    /\ paths !! cs' = Some v
    /\ longest_suffix paths (w ++ [c]) v.
Proof.
  intros [T Hcl]. revert cs w. induction fuel as [|fuel IH]; intros cs w Hw Hfuel; [lia|].
  destruct (trie_state _ _ _ _ _ _ T Hw) as [st Hs].
  simpl. unfold get_state. rewrite Hs. simpl.
  destruct (findTransition st c) as [t|] eqn:Hf.
  - pose proof (trie_child _ _ _ _ _ _ _ _ _ T Hs Hw Hf) as Hd.
    exists (dest t), (w ++ [c]). split_and!.
    + rewrite bool_decide_eq_true_2; [done|]. by destruct w.
    + done.
    + split_and!; [done|by eapply list_elem_of_lookup_2|].
      intros v' Hv' _. by apply suffix_length.
  - pose proof (trie_no_child _ _ _ _ _ _ _ _ T Hs Hw Hf) as Hno.
    destruct (Hcl cs st w Hs Hw) as [Hroot Hnon].
    destruct (decide (w = [])) as [->|Hne].
    + destruct (Hroot eq_refl) as [-> _]. exists cs, []. split_and!.
      * rewrite bool_decide_eq_false_2; [done|]. intros Hx. by apply Hx.
      * done.
      * split_and!; [apply suffix_nil|by eapply list_elem_of_lookup_2|].
        intros v' Hv' Hin'.
        apply suffix_snoc_cases in Hv' as [->|(v'' & -> & Hv'')]; [done|].
        apply suffix_nil_inv in Hv'' as ->. done.
    + destruct (Hnon Hne) as (f & stf & u & -> & Hsf & Hu & Hlps & _).
      pose proof (is_lps_shorter _ _ _ Hlps) as Hlt.
      destruct (IH f u Hu ltac:(lia)) as (cs' & v & Hrun & Hv & Hsuf & Hin & Hmax).
      exists cs', v. split_and!; [done|done|].
      destruct Hlps as (Hsu & Hneq & Hinu & Hmaxu).
      split_and!; [|done|].
      * etrans; [exact Hsuf|]. by apply suffix_snoc.
      * intros v' Hv' Hin'.
        apply suffix_snoc_cases in Hv' as [->|(v'' & -> & Hv'')]; [simpl; lia|].
        apply Hmax; [|done]. apply suffix_snoc.
        apply (suffix_shorter _ _ w); [done..|].
        apply Hmaxu; [done| |by eapply trie_prefix_closed].
        intros ->. done.
Qed.

Lemma longest_suffix_nil h paths owns ws :
  trie h paths owns ws -> longest_suffix paths [] [].
Proof.
  intros T. split_and!; [done|eapply list_elem_of_lookup_2, T|].
  intros v' Hv' _. apply suffix_nil_inv in Hv' as ->. done.
Qed.

Lemma longest_suffix_step h paths owns ws t w c v :
  trie h paths owns ws ->
  longest_suffix paths t w -> longest_suffix paths (w ++ [c]) v ->
  longest_suffix paths (t ++ [c]) v.
Proof.
  intros T (Hw & Hwin & Hwmax) (Hv & Hvin & Hvmax). split_and!; [|done|].
  - etrans; [exact Hv|]. by apply suffix_snoc.
  - intros v' Hv' Hin'.
    apply suffix_snoc_cases in Hv' as [->|(v'' & -> & Hv'')]; [simpl; lia|].
    apply Hvmax; [|done]. apply suffix_snoc.
    apply (suffix_shorter _ _ t); [done..|].
    apply Hwmax; [done|]. by eapply trie_prefix_closed.
Qed.

Lemma longest_suffix_unique paths t v1 v2 :
  longest_suffix paths t v1 -> longest_suffix paths t v2 -> v1 = v2.
Proof.
  intros (H1 & Hin1 & Hmax1) (H2 & Hin2 & Hmax2).
  pose proof (Hmax1 v2 H2 Hin2) as Hl1. pose proof (Hmax2 v1 H1 Hin1) as Hl2.
  destruct (suffix_weak_total _ _ _ H1 H2) as [Hs|Hs];
    [|symmetry]; apply suffix_length_eq; done || lia.
Qed.

(** ** The record list of a compiled state *)

Lemma filter_split_perm {A} (P Q R : A -> Prop)
    `{forall x, Decision (P x)} `{forall x, Decision (Q x)} `{forall x, Decision (R x)}
    (l : list A) :
  (forall x, x ∈ l -> (P x <-> Q x \/ R x)) ->
  (forall x, x ∈ l -> Q x -> R x -> False) ->
  filter P l ≡ₚ filter Q l ++ filter R l.
Proof.
  induction l as [|x l IH]; intros Hiff Hdis; [done|].
  assert (IH' : filter P l ≡ₚ filter Q l ++ filter R l).
  { apply IH; intros y Hy; [apply Hiff|apply Hdis]; by right. }
  assert (Hx : x ∈ x :: l) by left.
  destruct (decide (Q x)) as [HQ|HQ]; [|destruct (decide (R x)) as [HR|HR]].
  - rewrite (filter_cons_True P), (filter_cons_True Q), (filter_cons_False R).
    + simpl. by constructor.
    + intros HR. by eapply Hdis.
    + done.
    + apply Hiff; auto.
  - rewrite (filter_cons_True P), (filter_cons_False Q), (filter_cons_True R).
    + rewrite IH'. apply Permutation_middle.
    + done.
    + done.
    + apply Hiff; auto.
  - rewrite (filter_cons_False P), (filter_cons_False Q), (filter_cons_False R); try done.
    intros HP. apply Hiff in HP as [?|?]; done.
Qed.

Lemma own_values_records h ids w ws :
  own_values h ids w ws ->
  exists xs, Forall2 (fun r x => records h !! r = Some x) ids xs
    /\ payload <$> xs = word_payload <$> filter (fun iw => iw.2 = w) ws.
Proof.
  unfold own_values.
  assert (Hall : Forall (fun iw : Z * list byte => iw.2 = w) (filter (fun iw => iw.2 = w) ws)).
  { apply Forall_forall. intros iw Hiw. by apply list_elem_of_filter in Hiw as [? _]. }
  revert Hall. generalize (filter (fun iw : Z * list byte => iw.2 = w) ws). intros l Hall Hv.
  induction Hv as [|r iw ids l (x & Hx & Hi & Hl) Hv IH].
  - exists []. split; [constructor|done].
  - apply Forall_cons in Hall as [Hw Hall]. destruct (IH Hall) as (xs & Hxs & Hp).
    exists (x :: xs). split; [by constructor|]. rewrite !fmap_cons. f_equal; [|done].
    unfold payload, word_payload. rewrite Hw. congruence.
Qed.

(** The list of a state with path [w] holds one record for each inserted
    word that is a suffix of [w]. *)
Lemma closed_chain h paths owns ws s st w :
  automaton h paths owns ws ->
  states h !! s = Some st -> paths !! s = Some w ->
  exists xs, chain h (results st) xs
    /\ payload <$> xs ≡ₚ word_payload <$> filter (fun iw => iw.2 `suffix_of` w) ws.
Proof.
  intros [T Hcl]. remember (S (length w)) as n eqn:Hn.
  assert (Hlt : (length w < n)%nat) by lia. clear Hn.
  revert s st w Hlt. induction n as [|n IH]; intros s st w Hlt Hs Hw; [lia|].
  destruct (lookup_lt_is_Some_2 owns s) as [ids Ho].
  { rewrite (trie_olen _ _ _ _ T). by eapply lookup_lt_Some. }
  pose proof (trie_own_seg _ _ _ _ T _ _ _ Hs Ho) as Hsg.
  destruct (own_values_records _ _ _ _ (trie_own_values _ _ _ _ T _ _ _ Ho Hw))
    as (own & Hown & Hpay).
  destruct (Hcl s st w Hs Hw) as [Hroot Hnon].
  destruct (decide (w = [])) as [->|Hne].
  - destruct (Hroot eq_refl) as [_ Htl]. rewrite Htl in Hsg.
    exists (own ++ []).
    split; [apply (seg_chain h _ ids None own []); [exact Hsg|exact Hown|by simpl]|].
    rewrite app_nil_r, Hpay.
    assert (Heq : forall l1 l2 : list (Z * list byte),
              l1 = l2 -> word_payload <$> l1 ≡ₚ word_payload <$> l2) by (by intros ?? ->).
    apply Heq, list_filter_iff.
    intros iw. split; [by intros ->|apply suffix_nil_inv].
  - destruct (Hnon Hne) as (f & stf & u & Hfb & Hsf & Hu & Hlps & Htl).
    pose proof (is_lps_shorter _ _ _ Hlps) as Hlu.
    destruct (IH f stf u ltac:(lia) Hsf Hu) as (xf & Hcf & Hpf).
    rewrite Htl in Hsg. exists (own ++ xf).
    split; [apply (seg_chain h _ ids (results stf) own xf); done|].
    rewrite fmap_app, Hpay, Hpf, <- fmap_app. apply fmap_Permutation. symmetry.
    destruct Hlps as (Hsu & Hneq & Hinu & Hmaxu).
    apply filter_split_perm.
    + intros iw Hiw. split.
      * intros Hsuf. destruct (decide (iw.2 = w)) as [|Hnw]; [by left|right].
        apply (suffix_shorter _ _ w); [done..|].
        apply Hmaxu; [done..|]. by apply (trie_words _ _ _ _ T).
      * intros [->|Hsuf]; [done|by etrans].
    + intros iw Hiw -> Hsuf. apply suffix_length in Hsuf. lia.
Qed.

Lemma chain_length_bound h paths owns ws s st w xs :
  automaton h paths owns ws ->
  states h !! s = Some st -> paths !! s = Some w ->
  chain h (results st) xs -> (length xs <= length ws)%nat.
Proof.
  intros A Hs Hw Hc. destruct (closed_chain _ _ _ _ _ _ _ A Hs Hw) as (xs' & Hc' & Hp).
  rewrite (chain_functional _ _ _ _ Hc Hc').
  apply Permutation_length in Hp. rewrite !length_fmap in Hp. rewrite Hp.
  apply length_filter.
Qed.

Lemma collect_chain fuel h p xs :
  chain h p xs -> (length xs < fuel)%nat -> collect fuel h p = Done (payload <$> xs).
Proof.
  revert p xs. induction fuel as [|fuel IH]; intros p xs Hc Hl; [lia|].
  destruct xs as [|x xs]; simpl in Hc.
  - by subst.
  - destruct Hc as (r & -> & Hx & Hc). simpl. unfold get_record. rewrite Hx. simpl.
    rewrite (IH _ _ Hc); [done|]. simpl in Hl. lia.
Qed.


(** ** Machine arithmetic without wrap-around *)

Lemma size_max_eq : size_max = 18446744073709551616.
Proof. reflexivity. Qed.

Lemma wrap_small z : 0 <= z < size_max -> wrap z = z.
Proof. intros Hz. unfold wrap. by apply Z.mod_small. Qed.

Lemma uadd_small a b : 0 <= a + b < size_max -> uadd a b = a + b.
Proof. apply wrap_small. Qed.

Lemma sub_wrap_ok : usub_ok sub_wrap.
Proof. intros a b Hb Ha. unfold sub_wrap. rewrite wrap_small; [done|lia]. Qed.

Lemma sub_trap_ok : usub_ok sub_trap.
Proof. intros a b Hb Ha. unfold sub_trap. rewrite bool_decide_eq_true_2; [done|lia]. Qed.

Lemma vec_at_Done {A} (v : list A) i x :
  0 <= i -> v !! Z.to_nat i = Some x -> vec_at v i = Done x.
Proof. intros Hi Hx. unfold vec_at. rewrite bool_decide_eq_true_2; [|done]. by rewrite Hx. Qed.

Lemma vec_set_Done {A} (v : list A) i x :
  0 <= i < Z.of_nat (length v) -> vec_set v i x = Done (<[Z.to_nat i := x]> v).
Proof. intros Hi. unfold vec_set. by rewrite bool_decide_eq_true_2. Qed.

Lemma urem_Done x m : m <> 0 -> urem x m = Done (x mod m).
Proof. intros Hm. unfold urem. by rewrite bool_decide_eq_false_2. Qed.

Lemma mod_shift_back len i off :
  0 < len -> (len + i mod len - off) mod len = (i - off) mod len.
Proof.
  intros Hlen. rewrite (Z.div_mod i len) at 2 by lia.
  replace (len * (i / len) + i mod len - off)
    with (len + i mod len - off + (i / len - 1) * len) by lia.
  by rewrite Z.mod_add by lia.
Qed.

Lemma mod_succ len i :
  0 < len ->
  (i + 1) mod len = (if bool_decide (i mod len + 1 = len) then 0 else i mod len + 1).
Proof.
  intros Hlen. pose proof (Z.mod_pos_bound i len Hlen) as Hb.
  rewrite <- (Zplus_mod_idemp_l i 1 len). case_bool_decide as Heq.
  - rewrite Heq. apply Z.mod_same. lia.
  - apply Z.mod_small. lia.
Qed.

(** Two starts in one window of [len] positions share no slot. *)
Lemma mod_window_inj len i s1 s2 :
  0 < len -> i - len < s1 <= i -> i - len < s2 <= i ->
  s1 mod len = s2 mod len -> s1 = s2.
Proof.
  intros Hlen H1 H2 Heq.
  pose proof (Z.div_mod s1 len ltac:(lia)) as E1.
  pose proof (Z.div_mod s2 len ltac:(lia)) as E2.
  rewrite Heq in E1.
  assert (s1 / len = s2 / len); [|congruence].
  pose proof (Z.mod_pos_bound s2 len Hlen). nia.
Qed.

(** ** Words at positions of the text *)

Lemma suffix_take_at_pos (text w : list byte) (k : Z) :
  0 <= k -> k + Z.of_nat (length w) <= Z.of_nat (length text) ->
  w `suffix_of` take (Z.to_nat (k + Z.of_nat (length w))) text <-> at_pos text k w.
Proof.
  intros Hk Hlen. unfold at_pos.
  replace (Z.to_nat (k + Z.of_nat (length w))) with (Z.to_nat k + length w)%nat by lia.
  rewrite <- take_take_drop.
  assert (Hl : length (take (length w) (drop (Z.to_nat k) text)) = length w).
  { rewrite length_take, length_drop. lia. }
  split.
  - intros Hsuf. split; [done|].
    destruct Hsuf as [pre Hpre].
    apply app_inj_2 in Hpre as [_ Heq]; [done|by rewrite Hl].
  - intros [_ Heq]. rewrite Heq. by apply suffix_app_r.
Qed.

Lemma at_pos_singleton (text : list byte) (k : Z) (c : byte) :
  0 <= k -> at_pos text k [c] <-> text !! Z.to_nat k = Some c.
Proof.
  intros Hk. unfold at_pos. simpl.
  assert (text !! Z.to_nat k = drop (Z.to_nat k) text !! 0%nat) as ->.
  { rewrite lookup_drop. f_equal. lia. }
  destruct (drop (Z.to_nat k) text) as [|x l]; simpl.
  - split; [by intros [_ ?]|done].
  - rewrite take_0. split; [by intros [_ [= ->]]|by intros [= ->]].
Qed.

(** ** Counting fragments and complements *)

Lemma NoDup_Z_bounded_length (l : list Z) (n : Z) :
  0 <= n -> NoDup l -> Forall (fun x => 0 <= x < n) l -> Z.of_nat (length l) <= n.
Proof.
  intros Hn Hnd Hall. rewrite Forall_forall in Hall.
  assert (Hnd' : NoDup (Z.to_nat <$> l)).
  { apply NoDup_fmap_2_strong; [|done]. intros x y Hx Hy Heq.
    pose proof (Hall x Hx). pose proof (Hall y Hy). lia. }
  assert (Hb : (length (Z.to_nat <$> l) <= Z.to_nat n)%nat).
  { apply NoDup_bounded_length; [done|]. intros y Hy.
    apply list_elem_of_fmap in Hy as (z & -> & Hz). specialize (Hall z Hz). lia. }
  rewrite length_fmap in Hb. lia.
Qed.

Lemma parts_disjoint_offsets ps len :
  Forall (part_ok len) ps -> parts_disjoint ps -> NoDup (offset <$> ps).
Proof.
  induction ps as [|p ps IH]; intros Hok Hd; csimpl; [apply NoDup_nil_2|].
  apply Forall_cons in Hok as [(Hp0 & Hpne & Hpl) Hok]. destruct Hd as [Hd1 Hd2].
  apply NoDup_cons. split; [|by apply IH].
  intros Hin. apply list_elem_of_fmap in Hin as (q & Heq & Hq).
  rewrite Forall_forall in Hd1, Hok. specialize (Hd1 q Hq).
  destruct (Hok q Hq) as (Hq0 & Hqne & Hql).
  assert (0 < part_length p). { unfold part_length. destruct (chars p); [done|simpl; lia]. }
  assert (0 < part_length q). { unfold part_length. destruct (chars q); [done|simpl; lia]. }
  lia.
Qed.

Lemma part_length_pos len p : part_ok len p -> 0 < part_length p.
Proof.
  intros (_ & Hne & _). unfold part_length. destruct (chars p); [done|simpl; lia].
Qed.

Lemma Pattern_ok_counts pat :
  Pattern_ok pat ->
  Z.of_nat (length (parts pat)) <= p_length pat
  /\ Z.of_nat (length (complement pat)) <= p_length pat.
Proof.
  intros Hok. split.
  - rewrite <- (length_fmap offset). apply NoDup_Z_bounded_length.
    + pose proof (ok_length _ Hok). lia.
    + eapply parts_disjoint_offsets; apply Hok.
    + apply Forall_fmap. eapply Forall_impl; [apply (ok_parts _ Hok)|].
      intros p Hp. pose proof (part_length_pos _ _ Hp). destruct Hp as (? & _ & ?).
      simpl. lia.
  - rewrite <- (length_fmap index).
    apply NoDup_Z_bounded_length; [pose proof (ok_length _ Hok); lia|apply Hok|].
    apply Forall_fmap. eapply Forall_impl; [apply (ok_complements _ Hok)|].
    intros c Hc. exact Hc.
Qed.

(** ** From the inserted words to the scanner's events *)

Lemma part_words_events pat (Q : list byte -> Prop) `{forall w, Decision (Q w)} pre ps :
  parts pat = pre ++ ps ->
  (fun iw => event_of pat (word_payload iw))
    <$> filter (fun iw => Q iw.2) (part_words (Z.of_nat (length pre)) ps)
  = Some <$> ((fun p => (false, offset p + part_length p - 1))
                <$> filter (fun p => Q (chars p)) ps).
Proof.
  revert pre. induction ps as [|p ps IH]; intros pre Hpre; [done|].
  assert (Hev : event_of pat (word_payload (Z.of_nat (length pre), chars p))
                = Some (false, offset p + part_length p - 1)).
  { unfold event_of, word_payload. simpl. rewrite Hpre, length_app. simpl.
    rewrite bool_decide_eq_false_2 by lia. rewrite bool_decide_eq_true_2 by lia.
    rewrite Nat2Z.id, list_lookup_middle; done. }
  assert (Hnext : part_words (Z.of_nat (length pre) + 1) ps
                  = part_words (Z.of_nat (length (pre ++ [p]))) ps).
  { f_equal. rewrite length_app. simpl. lia. }
  specialize (IH (pre ++ [p])). rewrite <- app_assoc in IH. specialize (IH Hpre).
  simpl. rewrite Hnext.
  destruct (decide (Q (chars p))) as [HQ|HQ].
  - rewrite (filter_cons_True (fun iw : Z * list byte => Q iw.2)) by done.
    rewrite (filter_cons_True (fun p => Q (chars p))) by done.
    rewrite !fmap_cons, Hev, IH. done.
  - rewrite (filter_cons_False (fun iw : Z * list byte => Q iw.2)) by done.
    rewrite (filter_cons_False (fun p => Q (chars p))) by done.
    done.
Qed.

Lemma complement_words_events pat (Q : list byte -> Prop) `{forall w, Decision (Q w)}
    pre cs :
  complement pat = pre ++ cs ->
  Z.of_nat (length (parts pat)) + Z.of_nat (length (complement pat)) < size_max ->
  (fun iw => event_of pat (word_payload iw))
    <$> filter (fun iw => Q iw.2)
          (complement_words (Z.of_nat (length (parts pat))) (Z.of_nat (length pre)) cs)
  = Some <$> ((fun c => (true, index c)) <$> filter (fun c => Q [c_ch c]) cs).
Proof.
  intros Hpre Hsz. revert pre Hpre. induction cs as [|c cs IH]; intros pre Hpre; [done|].
  assert (Hlen : Z.of_nat (length pre) < Z.of_nat (length (complement pat))).
  { rewrite Hpre, length_app. simpl. lia. }
  assert (Hev : event_of pat (word_payload
                  (uadd (Z.of_nat (length (parts pat))) (Z.of_nat (length pre)), [c_ch c]))
                = Some (true, index c)).
  { unfold event_of, word_payload. simpl. rewrite uadd_small by lia.
    rewrite bool_decide_eq_true_2 by lia.
    replace (Z.to_nat (Z.of_nat (length (parts pat)) + Z.of_nat (length pre)
                       - Z.of_nat (length (parts pat)))) with (length pre) by lia.
    rewrite Hpre, list_lookup_middle; done. }
  assert (Hnext : complement_words (Z.of_nat (length (parts pat)))
                    (Z.of_nat (length pre) + 1) cs
                  = complement_words (Z.of_nat (length (parts pat)))
                      (Z.of_nat (length (pre ++ [c]))) cs).
  { f_equal. rewrite length_app. simpl. lia. }
  specialize (IH (pre ++ [c])). rewrite <- app_assoc in IH. specialize (IH Hpre).
  simpl. rewrite Hnext.
  destruct (decide (Q [c_ch c])) as [HQ|HQ].
  - rewrite (filter_cons_True (fun iw : Z * list byte => Q iw.2)) by done.
    rewrite (filter_cons_True (fun c => Q [c_ch c])) by done.
    rewrite !fmap_cons, Hev, IH. done.
  - rewrite (filter_cons_False (fun iw : Z * list byte => Q iw.2)) by done.
    rewrite (filter_cons_False (fun c => Q [c_ch c])) by done.
    done.
Qed.

Lemma pattern_events pat text i :
  Z.of_nat (length (parts pat)) + Z.of_nat (length (complement pat)) < size_max ->
  (fun iw => event_of pat (word_payload iw))
    <$> filter (fun iw => iw.2 `suffix_of` take (Z.to_nat (i + 1)) text) (pattern_words pat)
  = Some <$> events_at pat text i.
Proof.
  intros Hsz. unfold pattern_words, events_at. rewrite filter_app, !fmap_app. f_equal.
  - exact (part_words_events pat (fun w => w `suffix_of` take (Z.to_nat (i + 1)) text)
             [] (parts pat) eq_refl).
  - exact (complement_words_events pat
             (fun w => w `suffix_of` take (Z.to_nat (i + 1)) text)
             [] (complement pat) eq_refl Hsz).
Qed.

Lemma part_words_elem i ps iw :
  iw ∈ part_words i ps -> exists p, p ∈ ps /\ iw.2 = chars p.
Proof.
  revert i. induction ps as [|p ps IH]; intros i; simpl.
  - intros Hin. by apply elem_of_nil in Hin.
  - intros Hin. apply elem_of_cons in Hin as [->|Hin].
    + exists p. split; [left|done].
    + destruct (IH _ Hin) as (q & Hq & Heq). exists q. split; [by right|done].
Qed.

Lemma complement_words_elem n i cs iw :
  iw ∈ complement_words n i cs -> exists c, iw.2 = [c].
Proof.
  revert i. induction cs as [|c cs IH]; intros i; simpl.
  - intros Hin. by apply elem_of_nil in Hin.
  - intros Hin. apply elem_of_cons in Hin as [->|Hin]; [by eexists|by eapply IH].
Qed.

Lemma pattern_words_nonempty pat iw :
  Pattern_ok pat -> iw ∈ pattern_words pat -> iw.2 <> [].
Proof.
  intros Hok Hin. apply elem_of_app in Hin as [Hin|Hin].
  - apply part_words_elem in Hin as (p & Hp & ->).
    pose proof (ok_parts _ Hok) as Hall. rewrite Forall_forall in Hall.
    by destruct (Hall p Hp) as (_ & ? & _).
  - apply complement_words_elem in Hin as (c & ->). done.
Qed.

Lemma perm_fmap_Some {A} (l : list (option A)) (E : list A) :
  l ≡ₚ Some <$> E -> exists evs, l = Some <$> evs /\ evs ≡ₚ E.
Proof.
  intros Hp. exists (omap id l). split.
  - assert (Hall : Forall is_Some l).
    { rewrite Hp. apply Forall_fmap, Forall_true. intros x. by eexists. }
    clear Hp. induction Hall as [|x l [y ->] _ IH]; [done|].
    csimpl. by rewrite <- IH.
  - rewrite Hp. clear Hp. induction E as [|e E IH]; [done|]. csimpl. by rewrite IH.
Qed.

Lemma Forall_filter_keep {A} (P Q : A -> Prop) `{forall x, Decision (P x)} (l : list A) :
  Forall Q l -> Forall Q (filter P l).
Proof.
  rewrite !Forall_forall. intros Hall x Hx.
  apply list_elem_of_filter in Hx as [_ Hx]. by apply Hall.
Qed.

Lemma length_filter_fmap {A B} (f : A -> B) (P : B -> Prop) `{forall y, Decision (P y)}
    (l : list A) :
  length (filter P (f <$> l)) = length (filter (fun x => P (f x)) l).
Proof.
  induction l as [|x l IH]; [done|]. csimpl.
  destruct (decide (P (f x))) as [HP|HP].
  - rewrite (filter_cons_True P), (filter_cons_True (fun x => P (f x))) by done.
    simpl. by rewrite IH.
  - by rewrite (filter_cons_False P), (filter_cons_False (fun x => P (f x))) by done.
Qed.

Lemma length_filter_all {A} (P : A -> Prop) `{forall x, Decision (P x)} (l : list A) :
  length (filter P l) = length l <-> Forall P l.
Proof.
  induction l as [|x l IH].
  - split; [constructor|done].
  - destruct (decide (P x)) as [HP|HP].
    + rewrite filter_cons_True by done. simpl. rewrite Forall_cons.
      split; [intros [= Hl]; split; [done|by apply IH]|intros [_ Hl]; f_equal; by apply IH].
    + rewrite filter_cons_False by done. rewrite Forall_cons.
      pose proof (length_filter P l). simpl. split; [lia|by intros [? _]].
Qed.

Lemma events_bounds pat text i :
  Pattern_ok pat -> Forall (fun e : bool * Z => 0 <= e.2 < p_length pat) (events_at pat text i).
Proof.
  intros Hok. unfold events_at. apply Forall_app. split; apply Forall_fmap.
  - eapply Forall_impl; [apply Forall_filter_keep, (ok_parts _ Hok)|].
    intros p Hp. pose proof (part_length_pos _ _ Hp). destruct Hp as (? & _ & ?).
    simpl. lia.
  - eapply Forall_impl; [apply Forall_filter_keep, (ok_complements _ Hok)|].
    intros c Hc. exact Hc.
Qed.


(** ** One record of the scanner *)

Lemma scan_record_event usub pat str_len i sc r e :
  usub_ok usub -> Pattern_ok pat ->
  p_length pat < 2 ^ 63 -> str_len < 2 ^ 63 -> 0 <= i < str_len ->
  event_of pat (payload r) = Some e -> 0 <= e.2 < p_length pat ->
  length (partial_matches sc) = Z.to_nat (p_length pat) ->
  length (disabled sc) = Z.to_nat (p_length pat) ->
  match_shift sc = i mod p_length pat ->
  (e.2 <= i -> i - e.2 + p_length pat <= str_len ->
   forall n, partial_matches sc !! Z.to_nat ((i - e.2) mod p_length pat) = Some n ->
             disabled sc !! Z.to_nat ((i - e.2) mod p_length pat) = Some false ->
             0 <= n + 1 < size_max) ->
  scan_record usub pat str_len i sc r = Done (apply_event pat str_len i sc e).
Proof.
  intros Hsub Hok HL Hn Hi Hev He Hpm Hdis Hshift Hcnt.
  pose proof (ok_length _ Hok) as HL0.
  pose proof (Pattern_ok_counts _ Hok) as [Hnp Hnc].
  pose proof size_max_eq as Hmax.
  assert (H63 : 2 ^ 63 = 9223372036854775808) by reflexivity.
  pose proof (Z.mod_pos_bound i (p_length pat) HL0) as Hmod.
  unfold scan_record, apply_event, n_parts.
  (* total_off *)
  assert (Htot : (if bool_decide (Z.of_nat (length (parts pat)) <= pat_idx r)
                  then bind (usub (pat_idx r) (Z.of_nat (length (parts pat))))
                         (fun c_idx => bind (vec_at (complement pat) c_idx)
                                         (fun c => Done (index c)))
                  else bind (vec_at (parts pat) (pat_idx r))
                         (fun part => usub (uadd (offset part) (r_length r)) 1))
                 = Done e.2
                 /\ bool_decide (Z.of_nat (length (parts pat)) <= pat_idx r) = e.1).
  { unfold event_of, payload in Hev. simpl in Hev. case_bool_decide as Hc.
    - destruct (complement pat !! Z.to_nat (pat_idx r - Z.of_nat (length (parts pat))))
        as [c|] eqn:Hlk; [|done].
      injection Hev as <-. pose proof (lookup_lt_Some _ _ _ Hlk).
      rewrite Hsub by lia. simpl. rewrite (vec_at_Done _ _ c) by (done || lia). done.
    - case_bool_decide as H0; [|done].
      destruct (parts pat !! Z.to_nat (pat_idx r)) as [p|] eqn:Hlk; [|done].
      injection Hev as <-. simpl in He.
      rewrite (vec_at_Done _ _ p) by done. simpl.
      pose proof (ok_parts _ Hok) as Hall. rewrite Forall_forall in Hall.
      destruct (Hall p (list_elem_of_lookup_2 _ _ _ Hlk)) as (Hp0 & _ & _).
      rewrite uadd_small by lia. rewrite Hsub by lia. done. }
  destruct Htot as [-> Hb]. cbn [bind]. rewrite Hb.
  destruct (decide (i < e.2)) as [Hlt|Hlt];
    [by rewrite !(bool_decide_eq_true_2 (i < e.2)) by done|].
  rewrite !(bool_decide_eq_false_2 (i < e.2)) by done.
  rewrite Hsub by lia. cbn [bind].
  rewrite uadd_small by lia.
  destruct (decide (i - e.2 + p_length pat > str_len)) as [Hend|Hend];
    [by rewrite !(bool_decide_eq_true_2 (i - e.2 + p_length pat > str_len)) by done|].
  rewrite !(bool_decide_eq_false_2 (i - e.2 + p_length pat > str_len)) by done.
  rewrite Hshift, uadd_small by lia. rewrite Hsub by lia. cbn [bind].
  rewrite urem_Done by lia. cbn [bind]. rewrite mod_shift_back by done.
  pose proof (Z.mod_pos_bound (i - e.2) (p_length pat) HL0) as Hidx.
  destruct e.1.
  - rewrite vec_set_Done by lia. done.
  - destruct (lookup_lt_is_Some_2 (disabled sc)
                (Z.to_nat ((i - e.2) mod p_length pat)) ltac:(lia)) as [d Hd].
    destruct (lookup_lt_is_Some_2 (partial_matches sc)
                (Z.to_nat ((i - e.2) mod p_length pat)) ltac:(lia)) as [n Hnn].
    rewrite (vec_at_Done _ _ d) by (done || lia). cbn [bind]. rewrite Hd, Hnn.
    destruct d; simpl; [done|].
    rewrite (vec_at_Done _ _ n) by (done || lia). cbn [bind].
    rewrite uadd_small by (apply Hcnt; done || lia).
    rewrite vec_set_Done by lia. done.
Qed.

Lemma apply_event_fields pat str_len i sc e :
  length (partial_matches (apply_event pat str_len i sc e)) = length (partial_matches sc)
  /\ length (disabled (apply_event pat str_len i sc e)) = length (disabled sc)
  /\ match_shift (apply_event pat str_len i sc e) = match_shift sc
  /\ matches (apply_event pat str_len i sc e) = matches sc
  /\ cs (apply_event pat str_len i sc e) = cs sc.
Proof.
  unfold apply_event. repeat case_bool_decide; try done.
  destruct e.1; simpl; [by rewrite length_insert|].
  destruct (disabled sc !! _) as [[|]|]; try done.
  destruct (partial_matches sc !! _); try done. simpl. by rewrite length_insert.
Qed.

(** The slot of a start in the window after one more event. *)
Lemma apply_event_slot pat text i E sc e s :
  0 < p_length pat -> 0 <= e.2 < p_length pat ->
  length (partial_matches sc) = Z.to_nat (p_length pat) ->
  length (disabled sc) = Z.to_nat (p_length pat) ->
  0 <= s -> i - p_length pat < s <= i -> s + p_length pat <= Z.of_nat (length text) ->
  slot_mid pat text i E s (partial_matches sc) (disabled sc) ->
  slot_mid pat text i (E ++ [e]) s
    (partial_matches (apply_event pat (Z.of_nat (length text)) i sc e))
    (disabled (apply_event pat (Z.of_nat (length text)) i sc e)).
Proof.
  intros HL He Hpm Hdis Hs0 Hwin Hend (d & n & Hd & Hn & Hfire & Hcnt).
  pose proof (Z.mod_pos_bound s (p_length pat) HL) as Hsm.
  pose proof (Z.mod_pos_bound (i - e.2) (p_length pat) HL) as Hem.
  (* an event for another start changes nothing for [s] *)
  assert (Hother : e.2 <> i - s ->
            slot_mid pat text i (E ++ [e]) s (partial_matches sc) (disabled sc)).
  { intros Hne. exists d, n. split_and!; [done|done| |].
    - rewrite Hfire. split; intros [?|(e' & Hin & H1 & H2)]; try by left.
      + right. exists e'. split; [apply elem_of_app; by left|done].
      + apply elem_of_app in Hin as [Hin|Hin]; [right; by exists e'|].
        apply list_elem_of_singleton in Hin as ->. done.
    - intros Hf. rewrite filter_app, (filter_cons_False _ e), filter_nil, app_nil_r.
      + by apply Hcnt.
      + intros [_ ?]. done. }
  unfold apply_event.
  case_bool_decide as Hlt; [apply Hother; lia|].
  case_bool_decide as Hpast; [apply Hother; lia|].
  destruct (decide (e.2 = i - s)) as [Heq|Hne].
  - replace (i - e.2) with s by lia.
    destruct e.1 eqn:Hb; simpl.
    + exists true, n. split_and!.
      * apply list_lookup_insert_eq. lia.
      * done.
      * split; [|done]. intros _. right. exists e.
        split; [apply elem_of_app; right; left|done].
      * done.
    + rewrite Hd, Hn. destruct d; simpl.
      * exists true, n. split_and!; [done|done| |done].
        rewrite Hfire. split; intros [?|(e' & Hin & H1 & H2)]; try by left.
        -- right. exists e'. split; [apply elem_of_app; by left|done].
        -- apply elem_of_app in Hin as [Hin|Hin]; [right; by exists e'|].
           apply list_elem_of_singleton in Hin as ->. congruence.
      * exists false, (n + 1). split_and!.
        -- done.
        -- apply list_lookup_insert_eq. lia.
        -- rewrite Hfire. split; intros [?|(e' & Hin & H1 & H2)]; try by left.
           ++ right. exists e'. split; [apply elem_of_app; by left|done].
           ++ apply elem_of_app in Hin as [Hin|Hin]; [right; by exists e'|].
              apply list_elem_of_singleton in Hin as ->. congruence.
        -- intros _. rewrite filter_app, (filter_cons_True _ e), filter_nil by done.
           rewrite length_app. simpl. rewrite (Hcnt eq_refl). lia.
  - assert (Hslot : Z.to_nat ((i - e.2) mod p_length pat) <> Z.to_nat (s mod p_length pat)).
    { intros Heq. apply Hne.
      assert (i - e.2 = s); [|lia].
      apply (mod_window_inj (p_length pat) i); [done|lia|lia|lia]. }
    destruct (Hother Hne) as (d' & n' & Hd' & Hn' & Hrest).
    destruct e.1; simpl.
    + exists d', n'. split_and!; [|done|apply Hrest..].
      by rewrite list_lookup_insert_ne.
    + destruct (disabled sc !! Z.to_nat ((i - e.2) mod p_length pat)) as [[|]|];
        try (exists d', n'; split_and!; [done|done|apply Hrest..]).
      destruct (partial_matches sc !! Z.to_nat ((i - e.2) mod p_length pat));
        try (exists d', n'; split_and!; [done|done|apply Hrest..]).
      simpl. exists d', n'. split_and!; [done| |apply Hrest..].
      by rewrite list_lookup_insert_ne.
Qed.

(** ** The loop over the records of one position *)

Lemma scan_records_spec usub pat text h i :
  usub_ok usub -> Pattern_ok pat ->
  p_length pat < 2 ^ 63 -> Z.of_nat (length text) < 2 ^ 63 ->
  0 <= i < Z.of_nat (length text) ->
  forall xs evs E fuel sc p,
    chain h p xs -> (length xs < fuel)%nat ->
    (fun x => event_of pat (payload x)) <$> xs = Some <$> evs ->
    Forall (fun e : bool * Z => 0 <= e.2 < p_length pat) evs ->
    length (partial_matches sc) = Z.to_nat (p_length pat) ->
    length (disabled sc) = Z.to_nat (p_length pat) ->
    match_shift sc = i mod p_length pat ->
    (forall s, 0 <= s -> i - p_length pat < s <= i ->
               s + p_length pat <= Z.of_nat (length text) ->
               slot_mid pat text i E s (partial_matches sc) (disabled sc)) ->
    (forall s, 0 <= s -> i - p_length pat < s <= i ->
               s + p_length pat <= Z.of_nat (length text) ->
               Z.of_nat (length (matched_before pat text i s))
               + Z.of_nat (length (filter (fun e : bool * Z => e.1 = false /\ e.2 = i - s)
                                          (E ++ evs))) < size_max - 1) ->
    exists sc',
      scan_records usub pat (Z.of_nat (length text)) fuel h i sc p = Done sc'
      /\ length (partial_matches sc') = Z.to_nat (p_length pat)
      /\ length (disabled sc') = Z.to_nat (p_length pat)
      /\ match_shift sc' = match_shift sc /\ matches sc' = matches sc /\ cs sc' = cs sc
      /\ forall s, 0 <= s -> i - p_length pat < s <= i ->
                   s + p_length pat <= Z.of_nat (length text) ->
                   slot_mid pat text i (E ++ evs) s (partial_matches sc') (disabled sc').
Proof.
  intros Hsub Hok HL Hn Hi. pose proof (ok_length _ Hok) as HL0.
  induction xs as [|x xs IH]; intros evs E fuel sc p Hch Hfuel Hev Hbnd Hpm Hdis Hshift Hslots Hcnt.
  - simpl in Hch. subst p. destruct evs; [|done].
    exists sc. rewrite app_nil_r. split; [by destruct fuel|]. done.
  - destruct evs as [|e evs]; [done|]. rewrite !fmap_cons in Hev.
    injection Hev as Hev1 Hev. apply Forall_cons in Hbnd as [He Hbnd].
    destruct Hch as (r & -> & Hx & Hch).
    destruct fuel as [|fuel]; [simpl in Hfuel; lia|].
    simpl. unfold get_record. rewrite Hx. cbn [bind].
    rewrite (scan_record_event usub pat _ i sc x e); try done.
    2:{ intros Hle Hend n Hnn Hdd.
        destruct (Hslots (i - e.2) ltac:(lia) ltac:(lia) ltac:(lia))
          as (d & n0 & Hd & Hn0 & _ & Hc).
        rewrite Hd in Hdd. rewrite Hn0 in Hnn. simplify_eq.
        specialize (Hc eq_refl).
        specialize (Hcnt (i - e.2) ltac:(lia) ltac:(lia) ltac:(lia)).
        rewrite filter_app, length_app in Hcnt. lia. }
    cbn [bind].
    destruct (apply_event_fields pat (Z.of_nat (length text)) i sc e)
      as (Hpm1 & Hdis1 & Hsh1 & Hm1 & Hcs1).
    destruct (IH evs (E ++ [e]) fuel (apply_event pat (Z.of_nat (length text)) i sc e)
                (next x)) as (sc' & Hrun & Hpm' & Hdis' & Hsh' & Hm' & Hcs' & Hslots').
    + done.
    + simpl in Hfuel. lia.
    + done.
    + done.
    + congruence.
    + congruence.
    + congruence.
    + intros s Hs0 Hwin Hend. apply apply_event_slot; try done. by apply Hslots.
    + intros s Hs0 Hwin Hend. rewrite <- app_assoc. simpl. by apply Hcnt.
    + exists sc'. rewrite <- app_assoc in Hslots'. simpl in Hslots'.
      split_and!; try done; congruence.
Qed.

(** ** From one position to the next *)

Lemma filter_ext_elem {A} (P Q : A -> Prop) `{forall x, Decision (P x)}
    `{forall x, Decision (Q x)} (l : list A) :
  (forall x, x ∈ l -> (P x <-> Q x)) -> filter P l = filter Q l.
Proof.
  induction l as [|x l IH]; intros Hiff; [done|].
  assert (IH' : filter P l = filter Q l).
  { apply IH. intros y Hy. apply Hiff. by right. }
  destruct (decide (P x)) as [HP|HP].
  - rewrite (filter_cons_True P), (filter_cons_True Q), IH'; [done| |done].
    apply Hiff; [left|done].
  - rewrite (filter_cons_False P), (filter_cons_False Q), IH'; [done| |done].
    intros HQ. apply HP. apply Hiff; [left|done].
Qed.

Lemma slot_mid_nil pat text i s pm dis :
  slot_ok pat text i s pm dis -> slot_mid pat text i [] s pm dis.
Proof.
  intros (d & n & Hd & Hn & Hf & Hc). exists d, n. split_and!; [done|done| |].
  - rewrite Hf. split; [by left|]. intros [?|(e & He & _)]; [done|].
    by apply elem_of_nil in He.
  - intros Hdf. rewrite filter_nil. simpl. rewrite (Hc Hdf). lia.
Qed.

Lemma complement_ends_at (text : list byte) i (c : Complement) :
  0 <= i < Z.of_nat (length text) ->
  [c_ch c] `suffix_of` take (Z.to_nat (i + 1)) text <-> text !! Z.to_nat i = Some (c_ch c).
Proof.
  intros Hi. rewrite <- at_pos_singleton by lia.
  apply (suffix_take_at_pos text [c_ch c] i); simpl; lia.
Qed.

Lemma part_ends_at pat text i s p :
  Pattern_ok pat -> p ∈ parts pat ->
  0 <= s -> 0 <= i < Z.of_nat (length text) ->
  offset p + part_length p - 1 = i - s ->
  chars p `suffix_of` take (Z.to_nat (i + 1)) text <-> part_at text s p.
Proof.
  intros Hok Hp Hs Hi Hoff. pose proof (ok_parts _ Hok) as Hall.
  rewrite Forall_forall in Hall. destruct (Hall p Hp) as (Hp0 & _ & _).
  unfold part_at, part_length in *.
  replace (i + 1) with (s + offset p + Z.of_nat (length (chars p))) by lia.
  apply suffix_take_at_pos; lia.
Qed.

Lemma fired_step pat text i s :
  Pattern_ok pat -> 0 <= s -> 0 <= i < Z.of_nat (length text) ->
  fired_before pat text (i + 1) s <->
  fired_before pat text i s
  \/ exists e, e ∈ events_at pat text i /\ e.1 = true /\ e.2 = i - s.
Proof.
  intros Hok Hs Hi. unfold fired_before, events_at. split.
  - intros (c & Hc & Hlt & Hat). destruct (decide (s + index c < i)) as [Hl|Hl].
    + left. by exists c.
    + right. exists (true, index c). split; [|simpl; split; [done|lia]].
      apply elem_of_app. right. apply list_elem_of_fmap. exists c. split; [done|].
      apply list_elem_of_filter. split; [|done].
      apply complement_ends_at; [done|].
      destruct Hat as [_ Hat]. by replace i with (s + index c) by lia.
  - intros [(c & Hc & Hlt & Hat)|(e & He & Hb & Hoff)].
    + exists c. split_and!; [done|lia|done].
    + apply elem_of_app in He as [He|He];
        apply list_elem_of_fmap in He as (x & -> & Hx); [done|].
      apply list_elem_of_filter in Hx as [Hsuf Hx]. simpl in Hoff.
      exists x. split_and!; [done|lia|].
      apply complement_ends_at in Hsuf; [|done].
      split; [lia|]. by replace (s + index x) with i by lia.
Qed.

Lemma matched_step pat text i s :
  Pattern_ok pat -> 0 <= s -> 0 <= i < Z.of_nat (length text) ->
  Z.of_nat (length (matched_before pat text (i + 1) s))
  = Z.of_nat (length (matched_before pat text i s))
    + Z.of_nat (length (filter (fun e : bool * Z => e.1 = false /\ e.2 = i - s)
                               (events_at pat text i))).
Proof.
  intros Hok Hs Hi. rewrite <- Nat2Z.inj_add. f_equal. unfold matched_before, events_at.
  rewrite filter_app, length_app.
  rewrite (length_filter_fmap (fun c => (true, index c))).
  rewrite (filter_nil_not_elem (fun x : Complement => (true, index x).1 = false /\ _)).
  2:{ intros c _ [? _]. done. }
  rewrite (length_filter_fmap (fun p => (false, offset p + part_length p - 1))).
  rewrite list_filter_filter. simpl. rewrite Nat.add_0_r, <- length_app.
  apply Permutation_length. apply filter_split_perm.
  - intros p Hp. split.
    + intros [Hlt Hat]. destruct (decide (s + offset p + part_length p - 1 < i)); [by left|].
      right. split; [split; [done|lia]|]. apply (part_ends_at pat text i s); try done. lia.
    + intros [[Hlt Hat]|[[_ Hoff] Hsuf]].
      * split; [lia|done].
      * split; [lia|]. by apply (part_ends_at pat text i s) in Hsuf.
  - intros p Hp [Hlt _] [[_ Hoff] _]. lia.
Qed.

Lemma slot_mid_finish pat text i evs s pm dis :
  Pattern_ok pat -> evs ≡ₚ events_at pat text i ->
  0 <= s -> 0 <= i < Z.of_nat (length text) ->
  slot_mid pat text i evs s pm dis -> slot_ok pat text (i + 1) s pm dis.
Proof.
  intros Hok Hperm Hs Hi (d & n & Hd & Hn & Hf & Hc). exists d, n.
  split_and!; [done|done| |].
  - rewrite Hf, fired_step by done.
    split; (intros [?|(e & He & Hrest)]; [by left|right; exists e; split; [|done]]).
    + by rewrite <- Hperm.
    + by rewrite Hperm.
  - intros Hdf. rewrite (Hc Hdf), matched_step by done.
    rewrite Hperm. lia.
Qed.

Lemma matched_before_bound pat text k s :
  Pattern_ok pat -> Z.of_nat (length (matched_before pat text k s)) <= p_length pat.
Proof.
  intros Hok. destruct (Pattern_ok_counts _ Hok) as [Hnp _].
  pose proof (length_filter (fun p => s + offset p + part_length p - 1 < k
                                       /\ part_at text s p) (parts pat)).
  unfold matched_before. lia.
Qed.

(** ** One iteration of the outer loop *)

Lemma reset_slots pat text i pm dis :
  Pattern_ok pat -> 0 <= i ->
  length pm = Z.to_nat (p_length pat) -> length dis = Z.to_nat (p_length pat) ->
  (forall s, 0 <= s -> i - p_length pat <= s < i ->
             s + p_length pat <= Z.of_nat (length text) -> slot_ok pat text i s pm dis) ->
  forall s, 0 <= s -> i - p_length pat < s <= i ->
            s + p_length pat <= Z.of_nat (length text) ->
            slot_mid pat text i [] s (<[Z.to_nat (i mod p_length pat) := 0]> pm)
                     (<[Z.to_nat (i mod p_length pat) := false]> dis).
Proof.
  intros Hok Hi Hpm Hdis Hslots s Hs Hwin Hend.
  pose proof (ok_length _ Hok) as HL.
  pose proof (Z.mod_pos_bound i (p_length pat) HL) as Him.
  destruct (decide (s = i)) as [->|Hne].
  - exists false, 0. split_and!.
    + apply list_lookup_insert_eq. lia.
    + apply list_lookup_insert_eq. lia.
    + split; [done|]. intros [(c & Hc & Hlt & _)|(e & He & _)].
      * pose proof (ok_complements _ Hok) as Hall. rewrite Forall_forall in Hall.
        specialize (Hall c Hc). unfold complement_ok in Hall. lia.
      * by apply elem_of_nil in He.
    + intros _. unfold matched_before. rewrite filter_nil_not_elem; [done|].
      intros p Hp [Hlt _]. pose proof (ok_parts _ Hok) as Hall.
      rewrite Forall_forall in Hall. specialize (Hall p Hp).
      pose proof (part_length_pos _ _ Hall). destruct Hall as (? & _). lia.
  - apply slot_mid_nil.
    destruct (Hslots s Hs ltac:(lia) Hend) as (d & n & Hd & Hn & Hrest).
    assert (Hslot : Z.to_nat (i mod p_length pat) <> Z.to_nat (s mod p_length pat)).
    { pose proof (Z.mod_pos_bound s (p_length pat) HL). intros Heq. apply Hne.
      apply (mod_window_inj (p_length pat) i); lia. }
    exists d, n. rewrite !list_lookup_insert_ne by done. done.
Qed.

Lemma occurrence_slot pat text i d cnt :
  Pattern_ok pat -> 0 <= i + 1 - p_length pat -> i < Z.of_nat (length text) ->
  (d = true <-> fired_before pat text (i + 1) (i + 1 - p_length pat)) ->
  (d = false ->
   cnt = Z.of_nat (length (matched_before pat text (i + 1) (i + 1 - p_length pat)))) ->
  occurrence pat text (i + 1 - p_length pat)
  <-> d = false /\ cnt = Z.of_nat (length (parts pat)).
Proof.
  intros Hok Hs Hi Hf Hc. set (s := i + 1 - p_length pat) in *.
  pose proof (ok_parts _ Hok) as Hparts. rewrite Forall_forall in Hparts.
  pose proof (ok_complements _ Hok) as Hcomp. rewrite Forall_forall in Hcomp.
  assert (Hfire : fired_before pat text (i + 1) s
                  <-> exists c, c ∈ complement pat /\ complement_at text s c).
  { unfold fired_before. split; [intros (c & ? & _ & ?); eauto|].
    intros (c & Hin & Hat). exists c. split_and!; [done| |done].
    specialize (Hcomp c Hin). unfold complement_ok in Hcomp. lia. }
  assert (Hmatch : matched_before pat text (i + 1) s = filter (part_at text s) (parts pat)).
  { unfold matched_before. apply filter_ext_elem. intros p Hp. split; [by intros [_ ?]|].
    intros Hat. split; [|done]. destruct (Hparts p Hp) as (_ & _ & ?). lia. }
  rewrite Hmatch in Hc. unfold occurrence. split.
  - intros (_ & _ & Hall & Hnone).
    assert (d = false) as ->.
    { destruct d; [|done]. destruct Hf as [Hf _]. apply Hfire in Hf as (c & Hin & Hat); [|done].
      rewrite Forall_forall in Hnone. by destruct (Hnone c Hin). }
    split; [done|]. rewrite (Hc eq_refl). f_equal. by apply length_filter_all.
  - intros [-> ->]. split_and!; [done|lia| |].
    + apply (length_filter_all (part_at text s)). specialize (Hc eq_refl). lia.
    + apply Forall_forall. intros c Hin Hat.
      assert (false = true); [|done]. apply Hf, Hfire. eauto.
Qed.

Lemma suffix_of_longest h paths owns ws t v iw :
  trie h paths owns ws -> longest_suffix paths t v -> iw ∈ ws ->
  iw.2 `suffix_of` v <-> iw.2 `suffix_of` t.
Proof.
  intros T (Hv & Hin & Hmax) Hiw. split; [intros ?; by etrans|].
  intros Hsuf. apply (suffix_shorter _ _ t); [done..|].
  apply Hmax; [done|]. by apply (trie_words _ _ _ _ T).
Qed.

(** The records listed at the state reached at position [i] are the events
    of this position, in some order. *)
Lemma state_events pat text h paths owns i s v st :
  Z.of_nat (length (parts pat)) + Z.of_nat (length (complement pat)) < size_max ->
  automaton h paths owns (pattern_words pat) ->
  paths !! s = Some v -> longest_suffix paths (take (Z.to_nat (i + 1)) text) v ->
  states h !! s = Some st ->
  exists xs evs,
    chain h (results st) xs
    /\ (length xs <= length (pattern_words pat))%nat
    /\ (fun x => event_of pat (payload x)) <$> xs = Some <$> evs
    /\ evs ≡ₚ events_at pat text i.
Proof.
  intros Hsz A Hv Hlong Hs. pose proof A as [T _].
  destruct (closed_chain _ _ _ _ _ _ _ A Hs Hv) as (xs & Hch & Hp).
  rewrite (filter_ext_elem (fun iw : Z * list byte => iw.2 `suffix_of` v)
             (fun iw => iw.2 `suffix_of` take (Z.to_nat (i + 1)) text)) in Hp.
  2:{ intros iw Hiw. by eapply suffix_of_longest. }
  apply (fmap_Permutation (event_of pat)) in Hp.
  rewrite <- !list_fmap_compose in Hp.
  change (event_of pat ∘ word_payload) with (fun iw => event_of pat (word_payload iw)) in Hp.
  rewrite pattern_events in Hp by done.
  apply perm_fmap_Some in Hp as (evs & Heq & Hperm).
  exists xs, evs. split_and!; [done| |done|done].
  by eapply chain_length_bound.
Qed.

Lemma no_events pat text h paths owns i :
  Pattern_ok pat ->
  Z.of_nat (length (parts pat)) + Z.of_nat (length (complement pat)) < size_max ->
  trie h paths owns (pattern_words pat) ->
  longest_suffix paths (take (Z.to_nat (i + 1)) text) [] ->
  events_at pat text i = [].
Proof.
  intros Hok Hsz T Hlong.
  assert (Hnil : filter (fun iw : Z * list byte =>
                           iw.2 `suffix_of` take (Z.to_nat (i + 1)) text)
                        (pattern_words pat) = []).
  { apply filter_nil_not_elem. intros iw Hiw Hsuf.
    apply (suffix_of_longest _ _ _ _ _ _ _ T Hlong Hiw) in Hsuf.
    apply suffix_nil_inv in Hsuf. by eapply pattern_words_nonempty. }
  pose proof (pattern_events pat text i Hsz) as Hev. rewrite Hnil in Hev.
  symmetry in Hev. by apply fmap_nil_inv in Hev.
Qed.

Lemma scan_char_unfold usub pat str_len fuel h i sc c :
  scan_char usub pat str_len fuel h i sc c =
  bind (vec_set (partial_matches sc) (match_shift sc) 0) (fun pm =>
  bind (vec_set (disabled sc) (match_shift sc) false) (fun dis =>
  bind (stepMatching fuel h (cs sc) c) (fun stp =>
  bind (if stp.2 then
          bind (get_state h stp.1) (fun st =>
            scan_records usub pat str_len fuel h i
              {| partial_matches := pm; disabled := dis; match_shift := match_shift sc;
                 matches := matches sc; cs := stp.1 |} (results st))
        else Done {| partial_matches := pm; disabled := dis;
                     match_shift := match_shift sc; matches := matches sc;
                     cs := stp.1 |})
       (scan_emit usub pat i)))).
Proof. reflexivity. Qed.

Lemma scan_emit_spec usub pat text paths i sc2 :
  usub_ok usub -> Pattern_ok pat -> in_memory pat text ->
  0 <= i < Z.of_nat (length text) ->
  length (partial_matches sc2) = Z.to_nat (p_length pat) ->
  length (disabled sc2) = Z.to_nat (p_length pat) ->
  match_shift sc2 = i mod p_length pat ->
  (exists v, paths !! cs sc2 = Some v
             /\ longest_suffix paths (take (Z.to_nat (i + 1)) text) v) ->
  matches sc2 = filter (occurrence pat text) (seqZ 0 (i - p_length pat + 1)) ->
  (forall s, 0 <= s -> i - p_length pat < s <= i ->
             s + p_length pat <= Z.of_nat (length text) ->
             slot_ok pat text (i + 1) s (partial_matches sc2) (disabled sc2)) ->
  exists sc', scan_emit usub pat i sc2 = Done sc' /\ scan_inv pat text paths (i + 1) sc'.
Proof.
  intros Hsub Hok [HL63 Hn63] Hi Hpm Hdis Hshift Hcs Hmatches Hslots.
  pose proof (ok_length _ Hok) as HL.
  pose proof (Z.mod_pos_bound i (p_length pat) HL) as Him.
  pose proof (Z.mod_pos_bound (i + 1) (p_length pat) HL) as Him1.
  pose proof size_max_eq as Hmax.
  assert (H63 : 2 ^ 63 = 9223372036854775808) by reflexivity.
  unfold scan_emit. rewrite Hshift.
  rewrite (uadd_small (i mod p_length pat) 1) by lia.
  rewrite (uadd_small i 1) by lia.
  rewrite <- (mod_succ (p_length pat) i HL).
  assert (Hinv : forall ms,
            ms = filter (occurrence pat text) (seqZ 0 (i + 1 - p_length pat + 1)) ->
            scan_inv pat text paths (i + 1)
              {| partial_matches := partial_matches sc2; disabled := disabled sc2;
                 match_shift := (i + 1) mod p_length pat; matches := ms; cs := cs sc2 |}).
  { intros ms ->. split; simpl; try done.
    intros s Hs Hwin Hend. apply Hslots; [done|lia|done]. }
  case_bool_decide as Hge.
  - set (s := i + 1 - p_length pat).
    assert (Hsmod : (i + 1) mod p_length pat = s mod p_length pat).
    { unfold s. replace (i + 1 - p_length pat) with (i + 1 + (-1) * p_length pat) by lia.
      by rewrite Z.mod_add by lia. }
    destruct (Hslots s ltac:(unfold s; lia) ltac:(unfold s; lia) ltac:(unfold s; lia))
      as (d & n & Hd & Hn & Hf & Hc).
    rewrite <- Hsmod in Hd, Hn.
    pose proof (occurrence_slot pat text i d n Hok ltac:(lia) ltac:(lia) Hf Hc) as Hocc.
    fold s in Hocc.
    assert (Hseq : seqZ 0 (i + 1 - p_length pat + 1) = seqZ 0 (i - p_length pat + 1) ++ [s]).
    { replace (i + 1 - p_length pat + 1) with ((i - p_length pat + 1) + 1) by lia.
      rewrite seqZ_app by lia. f_equal. unfold s.
      replace (0 + (i - p_length pat + 1)) with (i + 1 - p_length pat) by lia.
      by rewrite seqZ_cons, seqZ_nil by lia. }
    rewrite (vec_at_Done _ _ d) by (done || lia). cbn [bind].
    destruct d; simpl.
    + eexists. split; [done|]. apply Hinv. rewrite Hseq, filter_app, <- Hmatches.
      rewrite filter_cons_False, filter_nil, app_nil_r; [done|].
      intros Ho. apply Hocc in Ho as [? _]. done.
    + rewrite (vec_at_Done _ _ n) by (done || lia). cbn [bind]. unfold n_parts.
      case_bool_decide as Hcnt.
      * rewrite Hsub by lia. cbn [bind]. eexists. split; [done|]. apply Hinv.
        rewrite Hseq, filter_app, <- Hmatches.
        rewrite filter_cons_True, filter_nil; [done|]. by apply Hocc.
      * eexists. split; [done|]. apply Hinv. rewrite Hseq, filter_app, <- Hmatches.
        rewrite filter_cons_False, filter_nil, app_nil_r; [done|].
        intros Ho. apply Hocc in Ho as [_ ?]. done.
  - eexists. split; [done|]. apply Hinv. rewrite Hmatches.
    by rewrite !seqZ_nil by lia.
Qed.

Lemma scan_char_spec usub pat text h paths owns fuel i sc c :
  usub_ok usub -> Pattern_ok pat -> in_memory pat text ->
  automaton h paths owns (pattern_words pat) ->
  (length (states h) < fuel)%nat -> (length (pattern_words pat) < fuel)%nat ->
  0 <= i -> text !! Z.to_nat i = Some c ->
  scan_inv pat text paths i sc ->
  exists sc', scan_char usub pat (Z.of_nat (length text)) fuel h i sc c = Done sc'
              /\ scan_inv pat text paths (i + 1) sc'.
Proof.
  intros Hsub Hok Hmem A Hfs Hfw Hi Hc I.
  pose proof Hmem as [HL63 Hn63]. pose proof A as [T Hcl].
  pose proof (ok_length _ Hok) as HL.
  destruct (Pattern_ok_counts _ Hok) as [Hnp Hnc].
  pose proof size_max_eq as Hmax.
  assert (H63 : 2 ^ 63 = 9223372036854775808) by reflexivity.
  assert (Hsz : Z.of_nat (length (parts pat)) + Z.of_nat (length (complement pat)) < size_max)
    by lia.
  pose proof (lookup_lt_Some _ _ _ Hc) as Hin.
  assert (Hi' : 0 <= i < Z.of_nat (length text)) by lia.
  pose proof (Z.mod_pos_bound i (p_length pat) HL) as Him.
  destruct I as [Hpm Hdis Hshift (v0 & Hv0 & Hlong0) Hmatches Hslots].
  rewrite scan_char_unfold, Hshift.
  rewrite !vec_set_Done by lia. cbn [bind].
  destruct (stepMatching_spec h paths owns _ fuel (cs sc) v0 c A Hv0)
    as (cs1 & v & Hstep & Hv & Hlongv).
  { pose proof (trie_short _ _ _ _ T _ _ Hv0). lia. }
  rewrite Hstep. cbn [bind fst snd].
  assert (Htake : take (Z.to_nat (i + 1)) text = take (Z.to_nat i) text ++ [c]).
  { replace (Z.to_nat (i + 1)) with (S (Z.to_nat i)) by lia. by apply take_S_r. }
  assert (Hlong : longest_suffix paths (take (Z.to_nat (i + 1)) text) v).
  { rewrite Htake. by eapply longest_suffix_step. }
  pose proof (reset_slots pat text i _ _ Hok Hi Hpm Hdis Hslots) as Hmid.
  match goal with
  | |- exists sc', bind ?m _ = _ /\ _ =>
      assert (exists evs sc2, m = Done sc2
                /\ evs ≡ₚ events_at pat text i
                /\ length (partial_matches sc2) = Z.to_nat (p_length pat)
                /\ length (disabled sc2) = Z.to_nat (p_length pat)
                /\ match_shift sc2 = i mod p_length pat
                /\ matches sc2 = matches sc /\ cs sc2 = cs1
                /\ forall s, 0 <= s -> i - p_length pat < s <= i ->
                     s + p_length pat <= Z.of_nat (length text) ->
                     slot_mid pat text i evs s (partial_matches sc2) (disabled sc2))
        as (evs & sc2 & -> & Hperm & Hpm2 & Hdis2 & Hsh2 & Hm2 & Hcs2 & Hslots2)
  end.
  { case_bool_decide as Hvne.
    - destruct (trie_state _ _ _ _ _ _ T Hv) as [st Hst].
      unfold get_state. rewrite Hst. cbn [bind].
      destruct (state_events pat text h paths owns i cs1 v st Hsz A Hv Hlong Hst)
        as (xs & evs & Hch & Hlen & Hev & Hperm).
      match goal with
      | |- context [scan_records _ _ _ _ _ _ ?s _] => set (sc1 := s)
      end.
      assert (Hbnd : Forall (fun e : bool * Z => 0 <= e.2 < p_length pat) evs).
      { rewrite Hperm. by apply events_bounds. }
      assert (Hpm1 : length (partial_matches sc1) = Z.to_nat (p_length pat)).
      { simpl. by rewrite length_insert. }
      assert (Hdis1 : length (disabled sc1) = Z.to_nat (p_length pat)).
      { simpl. by rewrite length_insert. }
      assert (Hcnt : forall s, 0 <= s -> i - p_length pat < s <= i ->
                 s + p_length pat <= Z.of_nat (length text) ->
                 Z.of_nat (length (matched_before pat text i s))
                 + Z.of_nat (length (filter (fun e : bool * Z => e.1 = false /\ e.2 = i - s)
                                            ([] ++ evs))) < size_max - 1).
      { intros s Hs Hwin Hend. simpl. rewrite Hperm.
        rewrite <- matched_step by (done || lia).
        pose proof (matched_before_bound pat text (i + 1) s Hok). lia. }
      destruct (scan_records_spec usub pat text h i Hsub Hok HL63 Hn63 Hi' xs evs [] fuel
                  sc1 (results st) Hch ltac:(lia) Hev Hbnd Hpm1 Hdis1 eq_refl Hmid Hcnt)
        as (sc2 & Hrun & Hpm2 & Hdis2 & Hsh2 & Hm2 & Hcs2 & Hslots2).
      exists evs, sc2. simpl in *. split_and!; done.
    - subst v.
      exists [], {| partial_matches := <[Z.to_nat (i mod p_length pat):=0]> (partial_matches sc);
                    disabled := <[Z.to_nat (i mod p_length pat):=false]> (disabled sc);
                    match_shift := i mod p_length pat; matches := matches sc; cs := cs1 |}.
      simpl. rewrite !length_insert. split_and!; try done.
      by rewrite (no_events pat text h paths owns i Hok Hsz T Hlong). }
  cbn [bind].
  apply (scan_emit_spec usub pat text paths i sc2); try done.
  - rewrite Hcs2. eauto.
  - congruence.
  - intros s Hs Hwin Hend. eapply slot_mid_finish; [done|exact Hperm|done|done|].
    by apply Hslots2.
Qed.

(** ** The whole scan *)

Lemma scan_loop_spec usub pat text h paths owns fuel :
  usub_ok usub -> Pattern_ok pat -> in_memory pat text ->
  automaton h paths owns (pattern_words pat) ->
  (length (states h) < fuel)%nat -> (length (pattern_words pat) < fuel)%nat ->
  forall rest pre sc,
    text = pre ++ rest ->
    scan_inv pat text paths (Z.of_nat (length pre)) sc ->
    exists sc',
      scan_loop usub pat (Z.of_nat (length text)) fuel h (Z.of_nat (length pre)) sc rest
      = Done sc'
      /\ scan_inv pat text paths (Z.of_nat (length text)) sc'.
Proof.
  intros Hsub Hok Hmem A Hfs Hfw. induction rest as [|c rest IH]; intros pre sc Htext I.
  - exists sc. split; [done|]. rewrite app_nil_r in Htext. by subst pre.
  - destruct (scan_char_spec usub pat text h paths owns fuel (Z.of_nat (length pre)) sc c)
      as (sc1 & Hrun & I1); try done.
    + lia.
    + rewrite Nat2Z.id, Htext. by apply list_lookup_middle.
    + destruct (IH (pre ++ [c]) sc1) as (sc' & Hrun' & I').
      * by rewrite <- app_assoc.
      * rewrite length_app. simpl. by rewrite Nat2Z.inj_add.
      * exists sc'. split; [|done]. simpl. rewrite Hrun. cbn [bind].
        rewrite length_app, Nat2Z.inj_add in Hrun'. done.
Qed.

Lemma scan_inv_initial pat text h paths owns :
  Pattern_ok pat -> trie h paths owns (pattern_words pat) ->
  scan_inv pat text paths 0
    {| partial_matches := replicate (Z.to_nat (p_length pat)) 0;
       disabled := replicate (Z.to_nat (p_length pat)) false;
       match_shift := 0; matches := []; cs := 0%nat |}.
Proof.
  intros Hok T. pose proof (ok_length _ Hok) as HL. split; simpl.
  - by rewrite length_replicate.
  - by rewrite length_replicate.
  - by rewrite Z.mod_0_l by lia.
  - exists []. split; [apply T|]. by eapply longest_suffix_nil.
  - by rewrite seqZ_nil by lia.
  - intros s Hs Hwin. lia.
Qed.

(** The matches [getTotalMatches] returns on a compiled automaton, for any
    semantics of subtraction that is exact on non-negative results. *)
Lemma getTotalMatches_with_spec usub pat text h paths owns fuel :
  usub_ok usub -> Pattern_ok pat -> in_memory pat text ->
  automaton h paths owns (pattern_words pat) ->
  (length (states h) < fuel)%nat -> (length (pattern_words pat) < fuel)%nat ->
  getTotalMatches_with usub fuel h 0 pat text
  = Done (filter (occurrence pat text)
            (seqZ 0 (Z.of_nat (length text) - p_length pat + 1))).
Proof.
  intros Hsub Hok Hmem A Hfs Hfw. pose proof A as [T _].
  unfold getTotalMatches_with.
  destruct (scan_loop_spec usub pat text h paths owns fuel Hsub Hok Hmem A Hfs Hfw
              text [] _ eq_refl (scan_inv_initial pat text h paths owns Hok T))
    as (sc' & Hrun & I').
  change (Z.of_nat (length (@nil byte))) with 0 in Hrun.
  cbv zeta. rewrite Hrun. cbn [bind]. by rewrite (si_matches _ _ _ _ _ I').
Qed.


(** ** The program as a whole *)

Lemma pattern_fuel_words pat k :
  (length (pattern_words pat) < pattern_fuel pat + k)%nat.
Proof. unfold pattern_fuel. lia. Qed.

(** Build, compile and scan, for a well-formed pattern. *)
Lemma scan_spec usub pat text k :
  usub_ok usub -> Pattern_ok pat -> in_memory pat text ->
  exists h0 h,
    buildForestFromPattern pat = Done (h0, 0%nat)
    /\ forestIntoStateMachine (pattern_fuel pat + k) h0 0 = Done h
    /\ getTotalMatches_with usub (pattern_fuel pat + k) h 0 pat text
       = Done (filter (occurrence pat text)
                 (seqZ 0 (Z.of_nat (length text) - p_length pat + 1))).
Proof.
  intros Hsub Hok Hmem.
  destruct (compile_spec pat (pattern_fuel pat + k) ltac:(lia))
    as (h0 & h & paths & owns & Hb & Hc & _ & _ & A & Hlt).
  exists h0, h. split_and!; [done|done|].
  eapply getTotalMatches_with_spec; try done. apply pattern_fuel_words.
Qed.

Lemma seqZ_sorted m n : StronglySorted Z.lt (seqZ m n).
Proof.
  remember (Z.to_nat n) as j eqn:Hj. revert m n Hj.
  induction j as [|j IH]; intros m n Hj.
  - rewrite seqZ_nil by lia. constructor.
  - rewrite seqZ_cons by lia. constructor.
    + apply IH. lia.
    + apply Forall_forall. intros x Hx. apply elem_of_seqZ in Hx. lia.
Qed.

Lemma filter_sorted {A} (R : A -> A -> Prop) (P : A -> Prop) `{forall x, Decision (P x)}
    (l : list A) :
  StronglySorted R l -> StronglySorted R (filter P l).
Proof.
  induction 1 as [|x l Hs IH Hall]; [constructor|].
  destruct (decide (P x)).
  - rewrite filter_cons_True by done. constructor; [done|].
    apply Forall_forall. intros y Hy. apply list_elem_of_filter in Hy as [_ Hy].
    rewrite Forall_forall in Hall. by apply Hall.
  - by rewrite filter_cons_False.
Qed.

Lemma filter_all {A} (P : A -> Prop) `{forall x, Decision (P x)} (l : list A) :
  Forall P l -> filter P l = l.
Proof.
  induction 1 as [|x l Hx Hall IH]; [done|]. by rewrite filter_cons_True, IH.
Qed.

Lemma elem_of_occurrences pat text s :
  s ∈ filter (occurrence pat text) (seqZ 0 (Z.of_nat (length text) - p_length pat + 1))
  <-> occurrence pat text s.
Proof.
  rewrite list_elem_of_filter, elem_of_seqZ. split; [by intros [? _]|].
  intros Ho. split; [done|]. destruct Ho as (? & ? & _). lia.
Qed.

Ltac forall_list := repeat (apply Forall_cons_2 || apply Forall_nil_2).

Lemma sample_pattern_not_z_ok : Pattern_ok sample_pattern_not_z.
Proof.
  split; simpl.
  - lia.
  - forall_list; unfold part_ok, part_length; simpl; (split_and!; [lia|done|lia]).
  - forall_list. unfold complement_ok. simpl. lia.
  - split_and!; try done; forall_list; unfold part_length; simpl; lia.
  - apply NoDup_singleton.
Defined.

Lemma sample_in_memory pat : p_length pat = 4 -> in_memory pat sample_text.
Proof. intros Hl. unfold in_memory. rewrite Hl. simpl. lia. Defined.

(** C1.  For every pattern that satisfies the invariants of the data model
    and every text (both small enough to exist in memory), the scan of the
    compiled automaton returns exactly the start offsets [s] with
    [s + total_length <= len(text)] at which every literal fragment equals
    the text bytes from [s + offset] on and no complement's forbidden
    character is the text byte at [s + offset]; the returned sequence is
    strictly increasing. *)
Theorem scan_returns_the_occurrences pat text k :
  Pattern_ok pat -> in_memory pat text ->
  exists h0 h ms,
    buildForestFromPattern pat = Done (h0, 0%nat)
    /\ forestIntoStateMachine (pattern_fuel pat + k) h0 0 = Done h
    /\ getTotalMatches (pattern_fuel pat + k) h 0 pat text = Done ms
    /\ (forall s, s ∈ ms <-> occurrence pat text s)
    /\ StronglySorted Z.lt ms.
Proof.
  intros Hok Hmem.
  destruct (scan_spec sub_wrap pat text k sub_wrap_ok Hok Hmem) as (h0 & h & Hb & Hc & Hs).
  exists h0, h, (filter (occurrence pat text)
                   (seqZ 0 (Z.of_nat (length text) - p_length pat + 1))).
  split_and!; [done|done|done| |].
  - apply elem_of_occurrences.
  - apply filter_sorted, seqZ_sorted.
Qed.

Lemma sample_scan_occurrences :
  Pattern_ok sample_pattern_not_z /\ in_memory sample_pattern_not_z sample_text
  /\ exists h0 h ms,
       buildForestFromPattern sample_pattern_not_z = Done (h0, 0%nat)
       /\ forestIntoStateMachine (pattern_fuel sample_pattern_not_z + 0) h0 0 = Done h
       /\ getTotalMatches (pattern_fuel sample_pattern_not_z + 0) h 0
            sample_pattern_not_z sample_text = Done ms
       /\ (forall s, s ∈ ms <-> occurrence sample_pattern_not_z sample_text s)
       /\ StronglySorted Z.lt ms.
Proof.
  split; [exact sample_pattern_not_z_ok|].
  split; [exact (sample_in_memory sample_pattern_not_z eq_refl)|].
  exact (scan_returns_the_occurrences sample_pattern_not_z sample_text 0
           sample_pattern_not_z_ok (sample_in_memory sample_pattern_not_z eq_refl)).
Defined.

(** C3.  Complement dominance: when the text byte at [s + offset] of some
    complement is its forbidden character, the start offset [s] is not
    reported, whatever the literal fragments do at [s] and in whatever order
    the records of [s] are met. *)
Theorem complement_dominates pat text k s c :
  Pattern_ok pat -> in_memory pat text ->
  c ∈ complement pat -> complement_at text s c ->
  exists h0 h ms,
    buildForestFromPattern pat = Done (h0, 0%nat)
    /\ forestIntoStateMachine (pattern_fuel pat + k) h0 0 = Done h
    /\ getTotalMatches (pattern_fuel pat + k) h 0 pat text = Done ms
    /\ s ∉ ms.
Proof.
  intros Hok Hmem Hc Hat.
  destruct (scan_spec sub_wrap pat text k sub_wrap_ok Hok Hmem) as (h0 & h & Hb & Hcomp & Hs).
  eexists h0, h, _. split_and!; [done|done|exact Hs|].
  rewrite elem_of_occurrences. intros (_ & _ & _ & Hnone).
  rewrite Forall_forall in Hnone. by apply (Hnone c Hc).
Qed.

Lemma sample_dominance :
  exists h0 h ms,
    buildForestFromPattern sample_pattern_not_z = Done (h0, 0%nat)
    /\ forestIntoStateMachine (pattern_fuel sample_pattern_not_z + 0) h0 0 = Done h
    /\ getTotalMatches (pattern_fuel sample_pattern_not_z + 0) h 0
         sample_pattern_not_z sample_text = Done ms
    /\ 1 ∉ ms.
Proof.
  apply (complement_dominates sample_pattern_not_z sample_text 0 1
           {| index := 2; c_ch := "z"%byte |}
           sample_pattern_not_z_ok (sample_in_memory sample_pattern_not_z eq_refl)).
  - simpl. left.
  - split; [simpl; lia|reflexivity].
Defined.

(** C5.  For an all-wildcard pattern of length [len > 0] (no fragments, no
    complements) the scan returns every start offset of
    [0 .. len(text) - len], in order, and nothing when the pattern is longer
    than the text.  [seqZ 0 n] is the list [0; 1; ...; n - 1], empty when
    [n <= 0]. *)
Theorem wildcards_match_everywhere len text k :
  0 < len -> in_memory (wildcard_pattern len) text ->
  exists h0 h,
    buildForestFromPattern (wildcard_pattern len) = Done (h0, 0%nat)
    /\ forestIntoStateMachine (pattern_fuel (wildcard_pattern len) + k) h0 0 = Done h
    /\ getTotalMatches (pattern_fuel (wildcard_pattern len) + k) h 0
         (wildcard_pattern len) text
       = Done (seqZ 0 (Z.of_nat (length text) - len + 1)).
Proof.
  intros Hlen Hmem.
  assert (Hok : Pattern_ok (wildcard_pattern len)).
  { split; simpl; try done; constructor. }
  destruct (scan_spec sub_wrap _ text k sub_wrap_ok Hok Hmem) as (h0 & h & Hb & Hc & Hs).
  exists h0, h. split_and!; [done|done|].
  unfold getTotalMatches. rewrite Hs. f_equal. simpl.
  apply filter_all. apply Forall_seqZ. intros s Hs'. unfold occurrence. simpl.
  split_and!; [lia|lia|constructor|constructor].
Qed.

Lemma sample_wildcards :
  exists h0 h,
    buildForestFromPattern (wildcard_pattern 3) = Done (h0, 0%nat)
    /\ forestIntoStateMachine (pattern_fuel (wildcard_pattern 3) + 0) h0 0 = Done h
    /\ getTotalMatches (pattern_fuel (wildcard_pattern 3) + 0) h 0
         (wildcard_pattern 3) sample_text
       = Done (seqZ 0 (Z.of_nat (length sample_text) - 3 + 1)).
Proof.
  apply (wildcards_match_everywhere 3 sample_text 0).
  - lia.
  - unfold in_memory. simpl. lia.
Defined.

(** C10.  Under the invariants of the pattern no unsigned subtraction of the
    scanner wraps around: run with the subtraction that refuses to compute
    [a - b] when [a < b], the scan still finishes, with the result of the
    program.  This covers [pat_idx - n_parts], [offset + length - 1],
    [i - total_off], [pat.length + match_shift - total_off] and
    [i + 1 - pat.length]. *)
Theorem scanner_subtractions_do_not_wrap pat text k :
  Pattern_ok pat -> in_memory pat text ->
  exists h0 h ms,
    buildForestFromPattern pat = Done (h0, 0%nat)
    /\ forestIntoStateMachine (pattern_fuel pat + k) h0 0 = Done h
    /\ getTotalMatches_with sub_trap (pattern_fuel pat + k) h 0 pat text = Done ms
    /\ getTotalMatches (pattern_fuel pat + k) h 0 pat text = Done ms.
Proof.
  intros Hok Hmem.
  destruct (scan_spec sub_trap pat text k sub_trap_ok Hok Hmem) as (h0 & h & Hb & Hc & Hs).
  destruct (scan_spec sub_wrap pat text k sub_wrap_ok Hok Hmem) as (h0' & h' & Hb' & Hc' & Hs').
  rewrite Hb in Hb'. injection Hb' as <-. rewrite Hc in Hc'. injection Hc' as <-.
  eexists h0, h, _. split_and!; [done|done|exact Hs|exact Hs'].
Qed.

Lemma sample_no_wrap :
  exists h0 h ms,
    buildForestFromPattern sample_pattern_not_z = Done (h0, 0%nat)
    /\ forestIntoStateMachine (pattern_fuel sample_pattern_not_z + 0) h0 0 = Done h
    /\ getTotalMatches_with sub_trap (pattern_fuel sample_pattern_not_z + 0) h 0
         sample_pattern_not_z sample_text = Done ms
    /\ getTotalMatches (pattern_fuel sample_pattern_not_z + 0) h 0
         sample_pattern_not_z sample_text = Done ms.
Proof.
  exact (scanner_subtractions_do_not_wrap sample_pattern_not_z sample_text 0
           sample_pattern_not_z_ok (sample_in_memory sample_pattern_not_z eq_refl)).
Defined.

(** ** The naive search *)

Lemma starts_with_take (w t : list byte) :
  starts_with w t = true <-> take (length w) t = w.
Proof.
  revert t. induction w as [|a w IH]; intros t; simpl.
  - by rewrite take_0.
  - destruct t as [|b t]; simpl; [done|].
    rewrite andb_true_iff, bool_decide_eq_true, IH. split.
    + by intros [-> ->].
    + intros [= -> Ht]. by rewrite Ht.
Qed.

Lemma naive_search_occurrences (w pre t : list byte) :
  w <> [] ->
  naive_search w t (Z.of_nat (length pre))
  = filter (occurrence (literal_pattern w) (pre ++ t))
      (seqZ (Z.of_nat (length pre)) (Z.of_nat (length t) - Z.of_nat (length w) + 1)).
Proof.
  intros Hw. assert (Hlw : 0 < Z.of_nat (length w)) by (destruct w; [done|simpl; lia]).
  revert pre. induction t as [|b t IH]; intros pre.
  - simpl. by rewrite seqZ_nil by lia.
  - specialize (IH (pre ++ [b])). rewrite <- app_assoc, length_app in IH. simpl in IH.
    rewrite Nat2Z.inj_add in IH. change (Z.of_nat 1) with 1 in IH.
    cbn [naive_search]. rewrite IH. clear IH.
    assert (Hocc : occurrence (literal_pattern w) (pre ++ b :: t) (Z.of_nat (length pre))
                   <-> starts_with w (b :: t) = true).
    { rewrite starts_with_take. unfold occurrence, part_at, at_pos. simpl.
      rewrite Forall_singleton. simpl.
      rewrite Z.add_0_r, Nat2Z.id, drop_app_length. split.
      - intros (_ & _ & [_ Hall] & _). done.
      - intros Heq. split_and!; [lia| |lia|done|constructor].
        rewrite length_app. simpl.
        assert (length w <= length (b :: t))%nat; [|simpl in *; lia].
        rewrite <- Heq at 1. rewrite length_take. lia. }
    destruct (decide (0 < Z.of_nat (length (b :: t)) - Z.of_nat (length w) + 1)) as [Hpos|Hneg].
    + rewrite (seqZ_cons (Z.of_nat (length pre))) by done.
      replace (Z.pred (Z.of_nat (length (b :: t)) - Z.of_nat (length w) + 1))
        with (Z.of_nat (length t) - Z.of_nat (length w) + 1) by (simpl; lia).
      replace (Z.succ (Z.of_nat (length pre))) with (Z.of_nat (length pre) + 1) by lia.
      destruct (starts_with w (b :: t)) eqn:Hsw.
      * rewrite filter_cons_True by (by apply Hocc). done.
      * rewrite filter_cons_False; [done|]. intros Ho. by apply Hocc in Ho.
    + rewrite (seqZ_nil _ (Z.of_nat (length (b :: t)) - _ + 1)) by lia.
      rewrite (seqZ_nil _ (Z.of_nat (length t) - _ + 1)) by (simpl in Hneg; lia).
      destruct (starts_with w (b :: t)) eqn:Hsw; [|done].
      exfalso. destruct (proj2 Hocc eq_refl) as (_ & Hend & _). simpl in Hend.
      rewrite length_app in Hend. simpl in *. lia.
Qed.

(** C4.  For a pattern that is one literal string (a single fragment at
    offset 0 that fills the pattern, no wildcard, no complement) the scan
    returns what the naive substring search returns: the start offsets at
    which the text continues with the string, in increasing order. *)
Theorem literal_scan_is_naive_search w text k :
  w <> [] -> in_memory (literal_pattern w) text ->
  exists h0 h,
    buildForestFromPattern (literal_pattern w) = Done (h0, 0%nat)
    /\ forestIntoStateMachine (pattern_fuel (literal_pattern w) + k) h0 0 = Done h
    /\ getTotalMatches (pattern_fuel (literal_pattern w) + k) h 0 (literal_pattern w) text
       = Done (naive_search w text 0).
Proof.
  intros Hw Hmem.
  assert (Hlw : 0 < Z.of_nat (length w)) by (destruct w; [done|simpl; lia]).
  assert (Hok : Pattern_ok (literal_pattern w)).
  { split; simpl.
    - done.
    - forall_list. unfold part_ok, part_length. simpl. split_and!; [lia|done|lia].
    - constructor.
    - split; [constructor|done].
    - apply NoDup_nil_2. }
  destruct (scan_spec sub_wrap _ text k sub_wrap_ok Hok Hmem) as (h0 & h & Hb & Hc & Hs).
  exists h0, h. split_and!; [done|done|].
  unfold getTotalMatches. rewrite Hs. f_equal. symmetry.
  exact (naive_search_occurrences w [] text Hw).
Qed.

Lemma sample_literal_scan :
  exists h0 h,
    buildForestFromPattern (literal_pattern ["a"%byte; "b"%byte]) = Done (h0, 0%nat)
    /\ forestIntoStateMachine
         (pattern_fuel (literal_pattern ["a"%byte; "b"%byte]) + 0) h0 0 = Done h
    /\ getTotalMatches (pattern_fuel (literal_pattern ["a"%byte; "b"%byte]) + 0) h 0
         (literal_pattern ["a"%byte; "b"%byte]) sample_text
       = Done (naive_search ["a"%byte; "b"%byte] sample_text 0).
Proof.
  apply (literal_scan_is_naive_search ["a"%byte; "b"%byte] sample_text 0).
  - done.
  - unfold in_memory. simpl. lia.
Defined.

(** ** Failure links and record lists of the compiled automaton *)

(** C6.  After compilation the fallback of every non-root state, reached
    from the root by the byte string [w], is the state reached by the
    longest proper suffix of [w] that is a path from the root; it is the root
    when no non-empty proper suffix of [w] is such a path.  The fallback of
    the root is left null. *)
Theorem fallback_is_longest_proper_suffix pat k :
  exists h0 h,
    buildForestFromPattern pat = Done (h0, 0%nat)
    /\ forestIntoStateMachine (pattern_fuel pat + k) h0 0 = Done h
    /\ (exists st0, states h !! 0%nat = Some st0 /\ fallback st0 = None)
    /\ forall w d, w <> [] -> run h 0 w = Some d ->
         exists st f u,
           states h !! d = Some st /\ fallback st = Some f
           /\ run h 0 u = Some f
           /\ u `suffix_of` w /\ u <> w
           /\ (forall v, v `suffix_of` w -> v <> w -> is_Some (run h 0 v) ->
                         (length v <= length u)%nat)
           /\ ((forall v, v `suffix_of` w -> v <> w -> v <> [] -> run h 0 v = None) ->
               f = 0%nat).
Proof.
  destruct (compile_spec pat (pattern_fuel pat + k) ltac:(lia))
    as (h0 & h & paths & owns & Hb & Hc & _ & _ & [T Hcl] & _).
  exists h0, h. split_and!; [done|done| |].
  - destruct (trie_state _ _ _ _ _ _ T (trie_root _ _ _ _ T)) as [st0 Hst0].
    exists st0. split; [done|].
    by destruct (Hcl 0%nat st0 [] Hst0 (trie_root _ _ _ _ T)) as [[? _] _].
  - intros w d Hw Hrun. apply (run_root _ _ _ _ _ _ T) in Hrun.
    destruct (trie_state _ _ _ _ _ _ T Hrun) as [st Hst].
    destruct (Hcl d st w Hst Hrun) as [_ Hnon].
    destruct (Hnon Hw) as (f & stf & u & Hfb & Hsf & Hu & (Hsuf & Hne & Hin & Hmax) & _).
    exists st, f, u. split_and!; try done.
    + by apply (run_root _ _ _ _ _ _ T).
    + intros v Hv Hvne Hsome. apply Hmax; [done..|]. by apply (run_is_Some _ _ _ _ _ T).
    + intros Hnone. destruct (decide (u = [])) as [->|Hune].
      * by eapply trie_root_unique.
      * apply (run_root _ _ _ _ _ _ T) in Hu. rewrite Hnone in Hu; done.
Qed.

Lemma scan_state_spec h paths owns ws fuel text s w :
  automaton h paths owns ws -> (length (states h) < fuel)%nat ->
  paths !! s = Some w ->
  exists cs v, scan_state fuel h s text = Done cs /\ paths !! cs = Some v.
Proof.
  intros A Hfuel. pose proof A as [T _]. revert s w.
  induction text as [|c text IH]; intros s w Hw; [by exists s, w|].
  destruct (stepMatching_spec h paths owns ws fuel s w c A Hw) as (cs' & v & Hstep & Hv & _).
  { pose proof (trie_short _ _ _ _ T _ _ Hw). lia. }
  destruct (IH cs' v Hv) as (cs & v' & Hrun & Hv'). exists cs, v'.
  simpl. rewrite Hstep. done.
Qed.

(** C9.  [stepMatching] terminates: on the automaton of any pattern, in any
    state [cs] the scanner can be in (the state reached by scanning some
    text) and for any byte, it returns.  A fallback hop goes to a state
    strictly nearer to the root, and only the root has a null fallback. *)
Theorem stepMatching_terminates pat k text c :
  exists h0 h cs,
    buildForestFromPattern pat = Done (h0, 0%nat)
    /\ forestIntoStateMachine (pattern_fuel pat + k) h0 0 = Done h
    /\ scan_state (pattern_fuel pat + k) h 0 text = Done cs
    /\ (exists cs' found, stepMatching (pattern_fuel pat + k) h cs c = Done (cs', found))
    /\ (forall s st f w u,
          states h !! s = Some st -> fallback st = Some f ->
          run h 0 w = Some s -> run h 0 u = Some f -> (length u < length w)%nat)
    /\ (forall s st, states h !! s = Some st -> fallback st = None <-> s = 0%nat).
Proof.
  destruct (compile_spec pat (pattern_fuel pat + k) ltac:(lia))
    as (h0 & h & paths & owns & Hb & Hc & _ & _ & A & Hlt).
  pose proof A as [T Hcl].
  destruct (scan_state_spec h paths owns _ (pattern_fuel pat + k) text 0%nat [] A Hlt
              (trie_root _ _ _ _ T)) as (cs & v & Hscan & Hv).
  exists h0, h, cs. split_and!; [done|done|done| | |].
  - destruct (stepMatching_spec h paths owns _ (pattern_fuel pat + k) cs v c A Hv)
      as (cs' & v' & Hstep & _).
    { pose proof (trie_short _ _ _ _ T _ _ Hv). lia. }
    eauto.
  - intros s st f w u Hs Hfb Hw Hu.
    apply (run_root _ _ _ _ _ _ T) in Hw, Hu.
    destruct (Hcl s st w Hs Hw) as [Hroot Hnon].
    destruct (decide (w = [])) as [->|Hne].
    + destruct (Hroot eq_refl) as [Hnull _]. congruence.
    + destruct (Hnon Hne) as (f' & stf & u' & Hfb' & _ & Hu' & Hlps & _).
      assert (f' = f) as -> by congruence. assert (u' = u) as -> by congruence.
      by eapply is_lps_shorter.
  - intros s st Hs. destruct (trie_path _ _ _ _ _ _ T Hs) as [w Hw].
    destruct (Hcl s st w Hs Hw) as [Hroot Hnon]. split.
    + intros Hnull. destruct (decide (w = [])) as [->|Hne].
      * by eapply trie_root_unique.
      * destruct (Hnon Hne) as (f & _ & _ & Hfb & _). congruence.
    + intros ->. rewrite (trie_root _ _ _ _ T) in Hw. injection Hw as <-.
      by destruct (Hroot eq_refl).
Qed.

(** The records a state owns, as the list starts with them. *)
Lemma own_chain h paths owns ws s st w rest :
  trie h paths owns ws -> states h !! s = Some st -> paths !! s = Some w ->
  chain h (tail_ptr h st) rest ->
  exists own, chain h (results st) (own ++ rest)
    /\ payload <$> own = word_payload <$> filter (fun iw => iw.2 = w) ws.
Proof.
  intros T Hs Hw Hrest.
  destruct (lookup_lt_is_Some_2 owns s) as [ids Ho].
  { rewrite (trie_olen _ _ _ _ T). by eapply lookup_lt_Some. }
  pose proof (trie_own_seg _ _ _ _ T _ _ _ Hs Ho) as Hsg.
  destruct (own_values_records _ _ _ _ (trie_own_values _ _ _ _ T _ _ _ Ho Hw))
    as (own & Hown & Hpay).
  exists own. split; [|done]. by apply (seg_chain h _ ids (tail_ptr h st) own rest).
Qed.

(** Before compilation the list of a state holds its own records only. *)
Lemma collect_fresh h0 paths owns ws fuel s st0 w :
  trie h0 paths owns ws -> fresh h0 -> (length ws < fuel)%nat ->
  states h0 !! s = Some st0 -> paths !! s = Some w ->
  collect fuel h0 (results st0) = Done (word_payload <$> filter (fun iw => iw.2 = w) ws).
Proof.
  intros T F Hfuel Hs Hw. destruct (F s st0 Hs) as [_ Htl].
  destruct (own_chain h0 paths owns ws s st0 w [] T Hs Hw) as (own & Hch & Hpay).
  { by rewrite Htl. }
  rewrite app_nil_r in Hch. rewrite <- Hpay. apply collect_chain; [done|].
  apply (f_equal length) in Hpay. rewrite !length_fmap in Hpay. rewrite Hpay.
  pose proof (length_filter (fun iw : Z * list byte => iw.2 = w) ws). lia.
Qed.

Lemma fallback_path_closure h0 h paths owns ws fuel :
  trie h0 paths owns ws -> fresh h0 -> automaton h paths owns ws ->
  (length ws < fuel)%nat ->
  forall n s st w,
    (length w < n)%nat -> states h !! s = Some st -> paths !! s = Some w ->
    exists path lists xs,
      fallback_path n h s = Done path /\ last path = Some 0%nat
      /\ Forall2 (fun x l => exists stx, states h0 !! x = Some stx
                                /\ collect fuel h0 (results stx) = Done l) path lists
      /\ chain h (results st) xs /\ payload <$> xs = concat lists.
Proof.
  intros T0 F0 [T Hcl] Hfuel. induction n as [|n IH]; intros s st w Hn Hs Hw; [lia|].
  destruct (trie_state _ _ _ _ _ _ T0 Hw) as [st0 Hs0].
  pose proof (collect_fresh h0 paths owns ws fuel s st0 w T0 F0 Hfuel Hs0 Hw) as Hown0.
  simpl. unfold get_state. rewrite Hs. cbn [bind].
  destruct (Hcl s st w Hs Hw) as [Hroot Hnon].
  destruct (decide (w = [])) as [->|Hne].
  - destruct (Hroot eq_refl) as [-> Htl].
    destruct (own_chain h paths owns ws s st [] [] T Hs Hw) as (own & Hch & Hpay).
    { by rewrite Htl. }
    rewrite (trie_root_unique _ _ _ _ _ T Hw) in *.
    eexists [0%nat], [_], (own ++ []).
    split_and!; [done|done| |done|].
    + constructor; [|constructor]. exists st0. split; [done|exact Hown0].
    + simpl. by rewrite !app_nil_r.
  - destruct (Hnon Hne) as (f & stf & u & -> & Hsf & Hu & Hlps & Htl).
    pose proof (is_lps_shorter _ _ _ Hlps) as Hlt.
    destruct (IH f stf u ltac:(lia) Hsf Hu) as (path & lists & xf & Hrun & Hlast & Hall & Hcf & Hpf).
    destruct (own_chain h paths owns ws s st w xf T Hs Hw) as (own & Hch & Hpay).
    { by rewrite Htl. }
    rewrite Hrun. cbn [bind].
    exists (s :: path), ((word_payload <$> filter (fun iw => iw.2 = w) ws) :: lists),
      (own ++ xf).
    split_and!; [done| | |done|].
    + destruct path; [done|]. done.
    + constructor; [|done]. exists st0. done.
    + rewrite fmap_app, Hpay, Hpf. done.
Qed.

(** C2.  After compilation the record list of every state is the list of the
    records inserted at it (its list before compilation) followed by the
    whole list of its fallback state, and so the concatenation of the
    inserted records of the states on its fallback chain up to the root.
    The lists are read as [(pat_idx, length)] pairs; the scanner reads the
    list of the current state only (see [scan_char]). *)
Theorem record_lists_are_suffix_closed pat k :
  exists h0 h,
    buildForestFromPattern pat = Done (h0, 0%nat)
    /\ forestIntoStateMachine (pattern_fuel pat + k) h0 0 = Done h
    /\ forall s st0 st,
         states h0 !! s = Some st0 -> states h !! s = Some st ->
         exists own inherited,
           collect (pattern_fuel pat + k) h0 (results st0) = Done own
           /\ collect (pattern_fuel pat + k) h (results st) = Done (own ++ inherited)
           /\ match fallback st with
              | None => s = 0%nat /\ inherited = []
              | Some f =>
                  exists stf, states h !! f = Some stf
                    /\ collect (pattern_fuel pat + k) h (results stf) = Done inherited
              end
           /\ exists path lists,
                fallback_path (pattern_fuel pat + k) h s = Done path
                /\ last path = Some 0%nat
                /\ Forall2 (fun x l =>
                      exists stx, states h0 !! x = Some stx
                        /\ collect (pattern_fuel pat + k) h0 (results stx) = Done l)
                     path lists
                /\ own ++ inherited = concat lists.
Proof.
  destruct (compile_spec pat (pattern_fuel pat + k) ltac:(lia))
    as (h0 & h & paths & owns & Hb & Hc & T0 & F0 & A & Hlt).
  pose proof A as [T Hcl]. pose proof (pattern_fuel_words pat k) as Hfw.
  exists h0, h. split_and!; [done|done|].
  intros s st0 st Hs0 Hs. destruct (trie_path _ _ _ _ _ _ T Hs) as [w Hw].
  pose proof (collect_fresh h0 paths owns _ _ s st0 w T0 F0 Hfw Hs0 Hw) as Hown0.
  destruct (fallback_path_closure h0 h paths owns _ _ T0 F0 A Hfw
              (pattern_fuel pat + k) s st w) as (path & lists & xs & Hpath & Hlast & Hall & Hch & Hpay);
    [|done|done|].
  { pose proof (trie_short _ _ _ _ T _ _ Hw). lia. }
  assert (Hcollect : forall s' st' w' ys,
            states h !! s' = Some st' -> paths !! s' = Some w' ->
            chain h (results st') ys ->
            collect (pattern_fuel pat + k) h (results st') = Done (payload <$> ys)).
  { intros s' st' w' ys Hs' Hw' Hys. apply collect_chain; [done|].
    pose proof (chain_length_bound _ _ _ _ _ _ _ _ A Hs' Hw' Hys). lia. }
  destruct (Hcl s st w Hs Hw) as [Hroot Hnon].
  destruct (decide (w = [])) as [->|Hne].
  - destruct (Hroot eq_refl) as [Hfb Htl].
    destruct (own_chain h paths owns _ s st [] [] T Hs Hw) as (own & Hch' & Hpay').
    { by rewrite Htl. }
    eexists _, [].
    rewrite app_nil_r in *.
    pose proof (chain_functional _ _ _ _ Hch Hch') as ->.
    split_and!; [exact Hown0| | |].
    + rewrite <- Hpay'. by eapply Hcollect.
    + rewrite Hfb. split; [by eapply trie_root_unique|done].
    + exists path, lists. split_and!; try done. by rewrite <- Hpay', Hpay.
  - destruct (Hnon Hne) as (f & stf & u & Hfb & Hsf & Hu & Hlps & Htl).
    destruct (closed_chain _ _ _ _ _ _ _ A Hsf Hu) as (xf & Hcf & _).
    destruct (own_chain h paths owns _ s st w xf T Hs Hw) as (own & Hch' & Hpay').
    { by rewrite Htl. }
    pose proof (chain_functional _ _ _ _ Hch Hch') as ->.
    exists (word_payload <$> filter (fun iw => iw.2 = w) (pattern_words pat)),
      (payload <$> xf).
    split_and!; [done| | |].
    + rewrite <- Hpay', <- fmap_app. by eapply Hcollect.
    + rewrite Hfb. exists stf. split; [done|]. by eapply Hcollect.
    + exists path, lists. split_and!; try done. by rewrite <- Hpay', <- fmap_app, Hpay.
Qed.

(** ** Patterns that break the data model *)

(** C7, as the claim states it, fails: a pattern with out-of-range and
    duplicate complement offsets is compiled like any other. *)
Lemma malformed_pattern_is_compiled :
  Forall (fun c => p_length malformed_pattern <= index c) (complement malformed_pattern)
  /\ ~ NoDup (index <$> complement malformed_pattern)
  /\ ~ Pattern_ok malformed_pattern
  /\ exists h0 h,
       buildForestFromPattern malformed_pattern = Done (h0, 0%nat)
       /\ forestIntoStateMachine (pattern_fuel malformed_pattern) h0 0 = Done h.
Proof.
  split_and!.
  - forall_list; simpl; lia.
  - simpl. intros Hnd. apply NoDup_cons in Hnd as [Hnin _]. apply Hnin. left.
  - intros Hok. pose proof (ok_complements _ Hok) as Hall.
    apply Forall_cons in Hall as [Hc _]. unfold complement_ok in Hc. simpl in Hc. lia.
  - eexists _, _. split; vm_compute; reflexivity.
Qed.

(** C7, amended.  [buildForestFromPattern] and [forestIntoStateMachine]
    check nothing and report nothing: every pattern, whether or not it
    satisfies the data model, gets its automaton. *)
Theorem every_pattern_is_compiled pat k :
  exists h0 h,
    buildForestFromPattern pat = Done (h0, 0%nat)
    /\ forestIntoStateMachine (pattern_fuel pat + k) h0 0 = Done h.
Proof.
  destruct (compile_spec pat (pattern_fuel pat + k) ltac:(lia))
    as (h0 & h & paths & owns & Hb & Hc & _).
  by exists h0, h.
Qed.

(** ** Empty inputs *)

(** C8.  An empty text gives the empty match sequence for every pattern,
    but an empty pattern with a text that is not empty makes the scanner
    index its bookkeeping vectors, which have no element, at position 0. *)
Theorem empty_pattern_is_out_of_range usub fuel h root c text pat :
  getTotalMatches_with usub fuel h root pat [] = Done []
  /\ getTotalMatches_with usub fuel h root empty_pattern (c :: text) = Fail OutOfRange.
Proof. split; reflexivity. Qed.


(** ** Reading the pattern line *)

(** *** The inner loops *)

Lemma c_str_at_app pre c rest : c_str_at (pre ++ c :: rest) (length pre) = Done c.
Proof. unfold c_str_at. by rewrite list_lookup_middle. Qed.

Lemma c_str_at_end pat : c_str_at pat (length pat) = Done "000"%byte.
Proof.
  unfold c_str_at. rewrite lookup_ge_None_2 by lia. by rewrite bool_decide_eq_true_2.
Qed.

Lemma c_str_at_past pat i : (length pat < i)%nat -> c_str_at pat i = Fail OutOfRange.
Proof.
  intros Hi. unfold c_str_at. rewrite lookup_ge_None_2 by lia.
  by rewrite bool_decide_eq_false_2 by lia.
Qed.

Lemma literal_split wildcard complement (l : list byte) :
  exists lits tail, l = lits ++ tail /\ Forall (literal wildcard complement) lits
                    /\ stops wildcard complement tail.
Proof.
  induction l as [|c l (lits & tail & -> & Hl & Ht)].
  - by exists [], [].
  - destruct (decide (literal wildcard complement c)) as [Hc|Hc].
    + exists (c :: lits), tail. split_and!; [done|by constructor|done].
    + by exists [], (c :: lits ++ tail).
Qed.

Lemma literal_end_spec fuel wildcard complement pre lits tail :
  Forall (literal wildcard complement) lits -> stops wildcard complement tail ->
  (length lits < fuel)%nat ->
  literal_end fuel (pre ++ lits ++ tail) wildcard complement (length pre)
  = Done (length pre + length lits)%nat.
Proof.
  intros Hl Ht. revert fuel pre. induction Hl as [|a lits Ha Hl IH]; intros fuel pre Hf.
  - destruct fuel as [|fuel]; [simpl in Hf; lia|]. simpl. rewrite Nat.add_0_r.
    destruct tail as [|c tail].
    + rewrite app_nil_r, c_str_at_end. cbn [bind].
      rewrite bool_decide_eq_true_2 by (by left). done.
    + rewrite c_str_at_app. cbn [bind]. simpl in Ht.
      rewrite bool_decide_eq_true_2; [done|].
      unfold literal in Ht. destruct (decide (c = "000"%byte)); [by left|].
      destruct (decide (c = wildcard)); [by right; left|].
      destruct (decide (c = complement)); [by right; right|]. by destruct Ht.
  - destruct fuel as [|fuel]; [simpl in Hf; lia|]. simpl in Hf.
    cbn [literal_end]. change ((a :: lits) ++ tail) with (a :: lits ++ tail).
    rewrite c_str_at_app. cbn [bind].
    rewrite bool_decide_eq_false_2 by (destruct Ha as (? & ? & ?); intros [?|[?|?]]; done).
    specialize (IH fuel (pre ++ [a]) ltac:(lia)).
    rewrite <- app_assoc, length_app in IH. simpl in IH.
    replace (length pre + 1)%nat with (S (length pre)) in IH by lia.
    rewrite IH. f_equal. simpl. lia.
Qed.

Lemma skip_wildcards_spec fuel wildcard pre j tail :
  wildcard <> "000"%byte ->
  match tail with [] => True | c :: _ => c <> wildcard end ->
  (j < fuel)%nat ->
  skip_wildcards fuel (pre ++ replicate j wildcard ++ tail) wildcard (length pre)
  = Done (length pre + j)%nat.
Proof.
  intros Hw Ht. revert fuel pre. induction j as [|j IH]; intros fuel pre Hf.
  - destruct fuel as [|fuel]; [lia|]. simpl. rewrite Nat.add_0_r.
    destruct tail as [|c tail].
    + rewrite app_nil_r, c_str_at_end. cbn [bind]. by rewrite bool_decide_eq_false_2.
    + rewrite c_str_at_app. cbn [bind]. by rewrite bool_decide_eq_false_2.
  - destruct fuel as [|fuel]; [lia|].
    cbn [skip_wildcards replicate]. change ((wildcard :: replicate j wildcard) ++ tail)
      with (wildcard :: replicate j wildcard ++ tail).
    rewrite c_str_at_app. cbn [bind]. rewrite bool_decide_eq_true_2 by done.
    specialize (IH fuel (pre ++ [wildcard]) ltac:(lia)).
    rewrite <- app_assoc, length_app in IH. simpl in IH.
    replace (length pre + 1)%nat with (S (length pre)) in IH by lia.
    rewrite IH. f_equal. lia.
Qed.

Lemma wildcard_split wildcard (l : list byte) :
  exists j tail, l = replicate j wildcard ++ tail
                 /\ match tail with [] => True | c :: _ => c <> wildcard end.
Proof.
  induction l as [|c l (j & tail & -> & Ht)].
  - by exists 0%nat, [].
  - destruct (decide (c = wildcard)) as [->|Hc].
    + by exists (S j), tail.
    + by exists 0%nat, (c :: replicate j wildcard ++ tail).
Qed.

(** *** Items and what the parser builds *)

Lemma tokenize_literals wildcard complement lits tail :
  Forall (literal wildcard complement) lits ->
  tokenize wildcard complement (lits ++ tail)
  = app (Lit <$> lits) <$> tokenize wildcard complement tail.
Proof.
  induction 1 as [|a lits (_ & Hw & Hc) _ IH]; simpl.
  - by destruct (tokenize wildcard complement tail).
  - rewrite !bool_decide_eq_false_2 by done. rewrite IH.
    by destruct (tokenize wildcard complement tail).
Qed.

Lemma tokenize_wildcards wildcard complement j tail :
  wildcard <> complement ->
  tokenize wildcard complement (replicate j wildcard ++ tail)
  = app (replicate j Any) <$> tokenize wildcard complement tail.
Proof.
  intros Hne. induction j as [|j IH]; simpl.
  - by destruct (tokenize wildcard complement tail).
  - rewrite bool_decide_eq_false_2 by done. rewrite bool_decide_eq_true_2 by done.
    rewrite IH. by destruct (tokenize wildcard complement tail).
Qed.

Lemma items_at_app text k a b :
  items_at text k (a ++ b)
  <-> items_at text k a /\ items_at text (k + Z.of_nat (length a)) b.
Proof.
  revert k. induction a as [|it a IH]; intros k; simpl.
  - rewrite Z.add_0_r. tauto.
  - rewrite IH. replace (k + 1 + Z.of_nat (length a)) with (k + Z.pos (Pos.of_succ_nat (length a)))
      by lia. tauto.
Qed.

Lemma items_at_any text k j : items_at text k (replicate j Any).
Proof. revert k. induction j as [|j IH]; intros k; simpl; [done|]. split; [done|apply IH]. Qed.

Lemma at_pos_cons (text : list byte) (k : Z) (a : byte) (w : list byte) :
  0 <= k ->
  at_pos text k (a :: w) <-> text !! Z.to_nat k = Some a /\ at_pos text (k + 1) w.
Proof.
  intros Hk. unfold at_pos. replace (Z.to_nat (k + 1)) with (Z.to_nat k + 1)%nat by lia.
  assert (text !! Z.to_nat k = drop (Z.to_nat k) text !! 0%nat) as ->.
  { rewrite lookup_drop. f_equal. lia. }
  rewrite <- drop_drop.
  destruct (drop (Z.to_nat k) text) as [|x l]; simpl.
  - split; [by intros [_ ?]|by intros [? _]].
  - rewrite drop_0. split.
    + intros [_ [= -> Hw]]. split; [done|]. split; [lia|done].
    + intros [[= ->] [_ ->]]. done.
Qed.

Lemma items_at_lits text k w :
  0 <= k -> items_at text k (Lit <$> w) <-> at_pos text k w.
Proof.
  revert k. induction w as [|a w IH]; intros k Hk.
  - simpl. unfold at_pos. simpl. split; [done|done].
  - rewrite at_pos_cons by done. csimpl. rewrite IH by lia. tauto.
Qed.

Lemma parts_disjoint_snoc ps p :
  parts_disjoint ps ->
  Forall (fun q => offset q + part_length q <= offset p) ps ->
  parts_disjoint (ps ++ [p]).
Proof.
  induction ps as [|q ps IH]; simpl.
  - intros _ _. split; [constructor|done].
  - intros [Hq Hd] Hall. apply Forall_cons in Hall as [Hqp Hall]. split.
    + apply Forall_app. split; [done|]. apply Forall_singleton. by left.
    + by apply IH.
Qed.

Lemma repr_nil : repr [] [] [].
Proof.
  split; simpl; try done; try constructor.
Qed.

Lemma part_ok_mono n m p : n <= m -> part_ok n p -> part_ok m p.
Proof. unfold part_ok. intros ? (? & ? & ?). split_and!; [done|done|lia]. Qed.

Lemma complement_ok_mono n m c : n <= m -> complement_ok n c -> complement_ok m c.
Proof. unfold complement_ok. lia. Qed.

Lemma repr_any its ps compls j :
  repr its ps compls -> repr (its ++ replicate j Any) ps compls.
Proof.
  intros [Hp Hc Hd Hn Hz Hs]. split; try done.
  - eapply Forall_impl; [exact Hp|]. intros p. apply part_ok_mono.
    rewrite length_app. lia.
  - eapply Forall_impl; [exact Hc|]. intros c. apply complement_ok_mono.
    rewrite length_app. lia.
  - rewrite length_app. lia.
  - intros text s Hs0. rewrite items_at_app, (Hs text s Hs0).
    pose proof (items_at_any text (s + Z.of_nat (length its)) j). tauto.
Qed.

Lemma repr_lits its ps compls lits :
  lits <> [] -> repr its ps compls ->
  repr (its ++ (Lit <$> lits))
       (ps ++ [ {| offset := Z.of_nat (length its); chars := lits |} ]) compls.
Proof.
  intros Hne [Hp Hc Hd Hn Hz Hs]. split; try done.
  - apply Forall_app. split.
    + eapply Forall_impl; [exact Hp|]. intros p. apply part_ok_mono.
      rewrite length_app. lia.
    + apply Forall_singleton. unfold part_ok, part_length. simpl.
      rewrite length_app, length_fmap. split_and!; [lia|done|lia].
  - eapply Forall_impl; [exact Hc|]. intros c. apply complement_ok_mono.
    rewrite length_app. lia.
  - apply parts_disjoint_snoc; [done|]. simpl.
    eapply Forall_impl; [exact Hp|]. intros p (_ & _ & ?). done.
  - rewrite sum_list_with_app, !length_app, length_fmap. simpl.
    destruct lits; [done|simpl; lia].
  - intros text s Hs0. rewrite items_at_app, items_at_lits by lia.
    rewrite Forall_app, Forall_singleton. unfold part_at at 2. simpl.
    rewrite <- (Hs text s Hs0). tauto.
Qed.

Lemma repr_not its ps compls d :
  repr its ps compls ->
  repr (its ++ [Not d]) ps (compls ++ [ {| index := Z.of_nat (length its); c_ch := d |} ]).
Proof.
  intros [Hp Hc Hd Hn Hz Hs]. split; try done.
  - eapply Forall_impl; [exact Hp|]. intros p. apply part_ok_mono.
    rewrite length_app. lia.
  - apply Forall_app. split.
    + eapply Forall_impl; [exact Hc|]. intros c. apply complement_ok_mono.
      rewrite length_app. lia.
    + apply Forall_singleton. unfold complement_ok. simpl. rewrite length_app. simpl. lia.
  - rewrite fmap_app. apply NoDup_app. split_and!; [done| |apply NoDup_singleton].
    intros x Hx Hx'. simpl in Hx'. apply list_elem_of_singleton in Hx'. subst x.
    apply list_elem_of_fmap in Hx as (c & Hc1 & Hc2).
    rewrite Forall_forall in Hc. specialize (Hc c Hc2). unfold complement_ok in Hc. lia.
  - rewrite !length_app. simpl. lia.
  - intros text s Hs0. rewrite items_at_app. simpl.
    rewrite Forall_app, Forall_singleton. unfold complement_at at 2. simpl.
    rewrite <- (Hs text s Hs0). tauto.
Qed.

(** *** The outer loop *)

Lemma literal_end_at fuel wildcard complement pat pre lits tail :
  pat = pre ++ lits ++ tail ->
  Forall (literal wildcard complement) lits -> stops wildcard complement tail ->
  (length lits < fuel)%nat ->
  literal_end fuel pat wildcard complement (length pre)
  = Done (length pre + length lits)%nat.
Proof. intros ->. apply literal_end_spec. Qed.

Lemma skip_wildcards_at fuel wildcard pat pre pc j tail :
  pat = pre ++ replicate j wildcard ++ tail -> pc = length pre ->
  wildcard <> "000"%byte ->
  match tail with [] => True | c :: _ => c <> wildcard end ->
  (j < fuel)%nat ->
  skip_wildcards fuel pat wildcard pc = Done (length pre + j)%nat.
Proof. intros -> ->. apply skip_wildcards_spec. Qed.

Lemma fmap_Some_inv {A B} (f : A -> B) (o : option A) (y : B) :
  f <$> o = Some y -> exists x, o = Some x /\ y = f x.
Proof. destruct o as [x|]; [|done]. intros [= <-]. by exists x. Qed.

Lemma parsed_app its new o r :
  parsed (its ++ new) o r -> parsed its (app new <$> o) r.
Proof.
  destruct o as [rits|]; simpl; [|done].
  intros (p & Hp & Hr & Hl). exists p. by rewrite app_assoc.
Qed.

Lemma createPattern_loop_spec wildcard cmark pat :
  "000"%byte ∉ pat -> wildcard <> "000"%byte -> wildcard <> cmark ->
  Z.of_nat (length pat) < size_max ->
  forall fuel pre rest its ps compls pc extra,
    pat = pre ++ rest ->
    repr its ps compls -> (length its <= length pre)%nat ->
    (length rest < fuel)%nat ->
    pc = length pre -> extra = Z.of_nat (length pre) - Z.of_nat (length its) ->
    parsed its (tokenize wildcard cmark rest)
      (createPattern_loop fuel pat wildcard cmark ps compls extra pc).
Proof.
  intros Hnul Hw Hwc Hsmall. induction fuel as [|fuel IH];
    intros pre rest its ps compls pc extra Hpat Hrep Hle Hfuel -> ->; [lia|].
  assert (Hlen : length pat = (length pre + length rest)%nat) by (by rewrite Hpat, length_app).
  cbn [createPattern_loop].
  destruct rest as [|c0 rest0] eqn:Hrest.
  { (* the end of the pattern *)
    rewrite bool_decide_eq_false_2 by (simpl in Hlen; lia).
    simpl. eexists. split; [done|]. simpl. rewrite app_nil_r.
    split; [done|]. simpl in Hlen. rewrite wrap_small; lia. }
  rewrite <- Hrest in *. assert (Hpos : (0 < length rest)%nat) by (rewrite Hrest; simpl; lia).
  clear c0 rest0 Hrest.
  rewrite bool_decide_eq_true_2 by lia.
  destruct (literal_split wildcard cmark rest) as (lits & tail & -> & Hlits & Hstop).
  rewrite length_app in *.
  rewrite (literal_end_at _ _ _ pat pre lits tail Hpat Hlits Hstop) by lia. cbn [bind].
  rewrite tokenize_literals by done. apply parsed_app.
  (* the fragment *)
  set (e := (length pre + length lits)%nat).
  set (ps1 := if bool_decide (e <> length pre) then _ else ps).
  assert (Hrep1 : repr (its ++ (Lit <$> lits)) ps1 compls).
  { subst ps1. destruct lits as [|a lits].
    - rewrite bool_decide_eq_false_2 by (subst e; simpl; lia). simpl. by rewrite app_nil_r.
    - rewrite bool_decide_eq_true_2 by (subst e; simpl; lia).
      replace (e - length pre)%nat with (length (a :: lits)) by (subst e; lia).
      rewrite Hpat, drop_app_length, take_app_length.
      rewrite wrap_small by lia.
      replace (Z.of_nat (length pre) - (Z.of_nat (length pre) - Z.of_nat (length its)))
        with (Z.of_nat (length its)) by lia.
      by apply repr_lits. }
  clearbody ps1.
  assert (Hpat1 : pat = (pre ++ lits) ++ tail) by (by rewrite <- app_assoc).
  assert (He : e = length (pre ++ lits)) by (by rewrite length_app).
  assert (Hlen1 : length (its ++ (Lit <$> lits)) = (length its + length lits)%nat)
    by (by rewrite length_app, length_fmap).
  destruct tail as [|c tail].
  { (* the fragment ends the pattern *)
    assert (Hce : c_str_at pat e = Done "000"%byte).
    { rewrite app_nil_r in Hpat1. rewrite He, <- Hpat1. apply c_str_at_end. }
    rewrite Hce.
    assert (Hmark : (if bool_decide (cmark <> "000"%byte)
                     then c <- Done "000"%byte ;; Done (bool_decide (c = cmark))
                     else Done false) = Done false).
    { case_bool_decide; [|done]. cbn [bind]. by rewrite bool_decide_eq_false_2. }
    rewrite Hmark. cbn [bind fst snd].
    rewrite (skip_wildcards_at _ _ pat (pre ++ lits) e 0 []); [|by rewrite app_nil_r in *|done..|lia].
    cbn [bind]. rewrite Nat.add_0_r, <- He.
    apply (IH (pre ++ lits) [] (its ++ (Lit <$> lits)) ps1 compls e
              (Z.of_nat (length pre) - Z.of_nat (length its))); try done.
    all: rewrite ?Hlen1, ?length_app; simpl in *; lia. }
  assert (Hcin : c ∈ pat) by (rewrite Hpat1; apply elem_of_app; right; left).
  assert (Hc0 : c <> "000"%byte) by (by intros ->).
  assert (Hce : c_str_at pat e = Done c) by (rewrite He, Hpat1; apply c_str_at_app).
  rewrite Hce. simpl in Hstop.
  destruct (decide (c = cmark)) as [->|Hcc].
  - (* a complement *)
    rewrite (bool_decide_eq_true_2 (cmark <> "000"%byte)) by done. cbn [bind].
    rewrite (bool_decide_eq_true_2 (cmark = cmark)) by done. cbn [bind].
    cbn [tokenize]. rewrite (bool_decide_eq_true_2 (cmark = cmark)) by done.
    destruct tail as [|d tail].
    { (* the marker is the last byte: [pc[1]] is the terminator and the
         next read is outside the string *)
      assert (Hd : c_str_at pat (S e) = Done "000"%byte).
      { replace (S e) with (length pat) by (simpl in Hlen; subst e; lia).
        apply c_str_at_end. }
      rewrite Hd. cbn [bind fst snd]. simpl.
      rewrite c_str_at_past by (simpl in Hlen; subst e; lia). done. }
    assert (Hpat2 : pat = (pre ++ lits ++ [cmark]) ++ d :: tail).
    { rewrite Hpat1. by rewrite <- !app_assoc. }
    assert (Hd : c_str_at pat (S e) = Done d).
    { replace (S e) with (length (pre ++ lits ++ [cmark]))
        by (rewrite !length_app; simpl; subst e; lia).
      rewrite Hpat2. apply c_str_at_app. }
    rewrite Hd. cbn [bind fst snd].
    destruct (wildcard_split wildcard tail) as (j & t & -> & Ht).
    rewrite (skip_wildcards_at _ _ pat (pre ++ lits ++ [cmark; d]) (e + 2) j t);
      [|by rewrite Hpat1, <- !app_assoc|rewrite !length_app; simpl; subst e; lia|done..|].
    2:{ simpl in Hfuel. rewrite length_app, length_replicate in Hfuel. lia. }
    cbn [bind].
    rewrite tokenize_wildcards by done.
    simpl in Hfuel, Hlen. rewrite !length_app, length_replicate in Hfuel, Hlen.
    rewrite wrap_small by lia. rewrite uadd_small by lia.
    rewrite <- option_fmap_compose.
    apply (parsed_app _ (Not d :: replicate j Any)).
    replace ((its ++ (Lit <$> lits)) ++ Not d :: replicate j Any)
      with (((its ++ (Lit <$> lits)) ++ [Not d]) ++ replicate j Any)
      by (by rewrite <- !app_assoc).
    apply (IH ((pre ++ lits ++ [cmark; d]) ++ replicate j wildcard) t); try done.
    + by rewrite Hpat1, <- !app_assoc.
    + apply repr_any.
      replace (Z.of_nat e - (Z.of_nat (length pre) - Z.of_nat (length its)))
        with (Z.of_nat (length (its ++ (Lit <$> lits)))) by (rewrite Hlen1; subst e; lia).
      by apply repr_not.
    + rewrite !length_app, !length_replicate, length_fmap. simpl. lia.
    + lia.
    + by rewrite !length_app, !length_replicate.
    + rewrite !length_app, !length_replicate, length_fmap. simpl. lia.
  - (* wildcards *)
    assert (c = wildcard) as ->.
    { unfold literal in Hstop. destruct (decide (c = wildcard)); [done|]. by destruct Hstop. }
    assert (Hmark : (if bool_decide (cmark <> "000"%byte)
                     then c <- Done wildcard ;; Done (bool_decide (c = cmark))
                     else Done false) = Done false).
    { case_bool_decide; [|done]. cbn [bind]. by rewrite bool_decide_eq_false_2. }
    rewrite Hmark. cbn [bind fst snd].
    destruct (wildcard_split wildcard (wildcard :: tail)) as (j & t & Hsplit & Ht).
    rewrite (skip_wildcards_at _ _ pat (pre ++ lits) e j t);
      [|by rewrite Hpat1, Hsplit|done..|].
    2:{ simpl in Hfuel. apply (f_equal length) in Hsplit.
        rewrite length_app, length_replicate in Hsplit. simpl in Hsplit. lia. }
    cbn [bind].
    rewrite Hsplit, tokenize_wildcards by done.
    assert (Hj : (0 < j)%nat).
    { destruct j; [|lia]. simpl in Hsplit. subst t. done. }
    apply (f_equal length) in Hsplit as Hsl.
    rewrite length_app, length_replicate in Hsl. simpl in Hsl, Hfuel, Hlen.
    apply parsed_app.
    apply (IH ((pre ++ lits) ++ replicate j wildcard) t); try done.
    + by rewrite Hpat1, Hsplit, <- !app_assoc.
    + by apply repr_any.
    + rewrite !length_app, !length_replicate, length_fmap. lia.
    + lia.
    + by rewrite !length_app, !length_replicate.
    + rewrite !length_app, !length_replicate, length_fmap. lia.
Qed.

Lemma createPatternStructure_parsed wildcard cmark pat k :
  "000"%byte ∉ pat -> wildcard <> "000"%byte -> wildcard <> cmark ->
  Z.of_nat (length pat) < size_max ->
  parsed [] (tokenize wildcard cmark pat)
    (createPatternStructure (S (length pat) + k) pat wildcard cmark).
Proof.
  intros Hnul Hw Hwc Hsmall. unfold createPatternStructure.
  apply (createPattern_loop_spec wildcard cmark pat Hnul Hw Hwc Hsmall
           (S (length pat) + k) [] pat [] [] [] 0%nat 0); try done.
  - apply repr_nil.
  - lia.
Qed.

Lemma repr_occurrence items p text s :
  repr items (parts p) (complement p) -> p_length p = Z.of_nat (length items) ->
  occurrence p text s <-> matches_at items text s.
Proof.
  intros Hr Hl. unfold occurrence, matches_at. rewrite Hl. split.
  - intros (Hs & Hlen & Hp & Hc). split_and!; [done|done|].
    by apply (rp_sem _ _ _ Hr text s Hs).
  - intros (Hs & Hlen & Hit). apply (rp_sem _ _ _ Hr text s Hs) in Hit as [Hp Hc]. done.
Qed.

Lemma repr_Pattern_ok items p :
  repr items (parts p) (complement p) -> p_length p = Z.of_nat (length items) ->
  items <> [] -> Pattern_ok p.
Proof.
  intros [Hp Hc Hd Hn Hz Hs] Hl Hne. split; rewrite ?Hl; try done.
  destruct items; [done|simpl; lia].
Qed.

Lemma tokenize_nonempty wildcard cmark pat items :
  tokenize wildcard cmark pat = Some items -> pat <> [] -> items <> [].
Proof.
  destruct pat as [|c pat]; [done|]. intros Htok _. simpl in Htok.
  repeat case_bool_decide; try (destruct pat as [|d pat]; [done|]);
    apply fmap_Some_inv in Htok as (? & _ & ->); done.
Qed.

(** *** A zero byte in the pattern line *)

Lemma literal_end_before fuel pat wildcard cmark z pc :
  pat !! z = Some "000"%byte -> (pc <= z)%nat ->
  literal_end fuel pat wildcard cmark pc = Fail OutOfFuel
  \/ exists e, literal_end fuel pat wildcard cmark pc = Done e /\ (pc <= e <= z)%nat.
Proof.
  intros Hz. revert pc. induction fuel as [|fuel IH]; intros pc Hpc; [by left|].
  simpl. unfold c_str_at.
  destruct (lookup_lt_is_Some_2 pat pc) as [c Hc].
  { apply lookup_lt_Some in Hz. lia. }
  rewrite Hc. cbn [bind]. case_bool_decide as Hstop.
  - right. exists pc. split; [done|lia].
  - assert (pc <> z) by (intros ->; apply Hstop; left; congruence).
    destruct (IH (S pc) ltac:(lia)) as [->|(e & -> & He)]; [by left|].
    right. exists e. split; [done|lia].
Qed.

Lemma skip_wildcards_before fuel pat wildcard z pc :
  pat !! z = Some "000"%byte -> wildcard <> "000"%byte -> (pc <= z)%nat ->
  skip_wildcards fuel pat wildcard pc = Fail OutOfFuel
  \/ exists e, skip_wildcards fuel pat wildcard pc = Done e /\ (pc <= e <= z)%nat.
Proof.
  intros Hz Hw. revert pc. induction fuel as [|fuel IH]; intros pc Hpc; [by left|].
  simpl. unfold c_str_at.
  destruct (lookup_lt_is_Some_2 pat pc) as [c Hc].
  { apply lookup_lt_Some in Hz. lia. }
  rewrite Hc. cbn [bind]. case_bool_decide as Hstop.
  - assert (pc <> z) by (intros ->; congruence).
    destruct (IH (S pc) ltac:(lia)) as [->|(e & -> & He)]; [by left|].
    right. exists e. split; [done|lia].
  - right. exists pc. split; [done|lia].
Qed.

Lemma createPattern_loop_stuck fuel pat wildcard z ps compls extra pc :
  pat !! z = Some "000"%byte -> wildcard <> "000"%byte -> (pc <= z)%nat ->
  createPattern_loop fuel pat wildcard "000"%byte ps compls extra pc = Fail OutOfFuel.
Proof.
  intros Hz Hw. revert ps compls extra pc.
  induction fuel as [|fuel IH]; intros ps compls extra pc Hpc.
  - simpl. rewrite bool_decide_eq_true_2; [done|]. apply lookup_lt_Some in Hz. lia.
  - cbn [createPattern_loop].
    rewrite bool_decide_eq_true_2 by (apply lookup_lt_Some in Hz; lia).
    destruct (literal_end_before (S fuel) pat wildcard "000"%byte z pc Hz Hpc)
      as [->|(e & -> & He)]; [done|].
    cbn [bind]. rewrite (bool_decide_eq_false_2 ("000"%byte <> "000"%byte)) by (by intros []).
    cbn [bind fst snd].
    destruct (skip_wildcards_before (S fuel) pat wildcard z e Hz Hw ltac:(lia))
      as [->|(pc2 & -> & Hpc2)]; [done|].
    cbn [bind]. apply IH. lia.
Qed.


(** ** Freeing the automaton *)

(** *** How many objects there are *)

Lemma set_state_records h s st h' : set_state h s st = Done h' -> records h' = records h.
Proof. unfold set_state. case_bool_decide; [|done]. by intros [= <-]. Qed.

Lemma set_record_length h r x h' :
  set_record h r x = Done h' ->
  length (records h') = length (records h) /\ states h' = states h.
Proof.
  unfold set_record. case_bool_decide; [|done]. intros [= <-]. simpl.
  by rewrite length_insert.
Qed.

Lemma set_state_length h s st h' :
  set_state h s st = Done h' -> length (states h') = length (states h).
Proof.
  unfold set_state. case_bool_decide; [|done]. intros [= <-]. simpl.
  by rewrite length_insert.
Qed.

Lemma store_back_length h s p h' :
  store_back h s p = Done h' ->
  length (records h') = length (records h) /\ length (states h') = length (states h).
Proof.
  unfold store_back. intros H. apply bind_Done in H as (st & _ & H).
  destruct (results_back st).
  - split; [by rewrite (set_state_records _ _ _ _ H)|by eapply set_state_length].
  - apply bind_Done in H as (x & _ & H). apply set_record_length in H as [? ->]. done.
Qed.

Lemma addResult_length h s idx len h' :
  addResult h s idx len = Done h' ->
  length (records h') = S (length (records h))
  /\ length (states h') = length (states h).
Proof.
  unfold addResult. simpl. intros H. apply bind_Done in H as (h2 & H2 & H).
  apply bind_Done in H as (st & _ & H).
  apply store_back_length in H2 as [H2 H2']. simpl in H2, H2'. rewrite length_app in H2.
  simpl in H2. split.
  - rewrite (set_state_records _ _ _ _ H). lia.
  - rewrite (set_state_length _ _ _ _ H). done.
Qed.

Lemma extendForest_walk_records h s cs h' s' :
  extendForest_walk h s cs = Done (h', s') -> records h' = records h.
Proof.
  revert h s. induction cs as [|c cs IH]; intros h s H; simpl in H.
  - by injection H as <- <-.
  - apply bind_Done in H as (st & _ & H). destruct (findTransition st c).
    + by eapply IH.
    + simpl in H. apply bind_Done in H as (h2 & H2 & H).
      apply IH in H. rewrite H. by rewrite (set_state_records _ _ _ _ H2).
Qed.

Lemma extendForest_records h root cs idx h' :
  extendForest h root cs idx = Done h' -> length (records h') = S (length (records h)).
Proof.
  unfold extendForest. intros H. apply bind_Done in H as ([h1 s1] & H1 & H).
  apply extendForest_walk_records in H1. simpl in H. apply addResult_length in H as [H _].
  by rewrite H, H1.
Qed.

Lemma build_parts_records h root i ps h' :
  build_parts h root i ps = Done h' ->
  length (records h') = (length (records h) + length ps)%nat.
Proof.
  revert h i. induction ps as [|p ps IH]; intros h i H; simpl in H.
  - injection H as <-. simpl. lia.
  - apply bind_Done in H as (h1 & H1 & H). apply IH in H.
    apply extendForest_records in H1. simpl. lia.
Qed.

Lemma build_complements_records h root n i cs h' :
  build_complements h root n i cs = Done h' ->
  length (records h') = (length (records h) + length cs)%nat.
Proof.
  revert h i. induction cs as [|c cs IH]; intros h i H; simpl in H.
  - injection H as <-. simpl. lia.
  - apply bind_Done in H as (h1 & H1 & H). apply IH in H.
    apply extendForest_records in H1. simpl. lia.
Qed.

Lemma part_words_length i ps : length (part_words i ps) = length ps.
Proof. revert i. induction ps as [|p ps IH]; intros i; simpl; [done|by rewrite IH]. Qed.

Lemma complement_words_length n i cs : length (complement_words n i cs) = length cs.
Proof. revert i. induction cs as [|c cs IH]; intros i; simpl; [done|by rewrite IH]. Qed.

Lemma pattern_words_length pat :
  length (pattern_words pat) = (length (parts pat) + length (complement pat))%nat.
Proof.
  unfold pattern_words. by rewrite length_app, part_words_length, complement_words_length.
Qed.

Lemma buildForestFromPattern_records pat h root :
  buildForestFromPattern pat = Done (h, root) ->
  length (records h) = length (pattern_words pat).
Proof.
  unfold buildForestFromPattern. simpl. intros H.
  apply bind_Done in H as (h1 & H1 & H). apply bind_Done in H as (h2 & H2 & H).
  injection H as <- <-. apply build_parts_records in H1.
  apply build_complements_records in H2. rewrite pattern_words_length. simpl in H1. lia.
Qed.

Lemma forest_link_length fuel root sf hq t hq' :
  forest_link fuel root sf hq t = Done hq' ->
  length (records hq'.1) = length (records hq.1)
  /\ length (states hq'.1) = length (states hq.1).
Proof.
  destruct hq as [h q]. unfold forest_link. intros H.
  apply bind_Done in H as (df & _ & H). apply bind_Done in H as (dst & _ & H).
  apply bind_Done in H as (h1 & H1 & H). apply bind_Done in H as (fst' & _ & H).
  apply bind_Done in H as (h2 & H2 & H). injection H as <-. simpl.
  apply store_back_length in H2 as [-> ->].
  by rewrite (set_state_records _ _ _ _ H1), (set_state_length _ _ _ _ H1).
Qed.

Lemma forest_links_length fuel root sf hq ts hq' :
  forest_links fuel root sf hq ts = Done hq' ->
  length (records hq'.1) = length (records hq.1)
  /\ length (states hq'.1) = length (states hq.1).
Proof.
  revert hq. induction ts as [|t ts IH]; intros hq H; simpl in H.
  - by injection H as <-.
  - apply bind_Done in H as (hq1 & H1 & H). apply IH in H as [-> ->].
    by apply forest_link_length in H1.
Qed.

Lemma forest_bfs_length fuel budget root h q h' :
  forest_bfs fuel budget root h q = Done h' ->
  length (records h') = length (records h) /\ length (states h') = length (states h).
Proof.
  revert h q. induction budget as [|budget IH]; intros h q H; destruct q as [|s q];
    simpl in H; try done; try (by injection H as <-).
  apply bind_Done in H as (st & _ & H). apply bind_Done in H as (hq & H1 & H).
  apply IH in H as [-> ->]. by apply forest_links_length in H1.
Qed.

Lemma forestIntoStateMachine_length fuel h root h' :
  forestIntoStateMachine fuel h root = Done h' ->
  length (records h') = length (records h) /\ length (states h') = length (states h).
Proof. apply forest_bfs_length. Qed.

(** *** The loop over the records of a state *)

Lemma delete_results_spec fuel hp fs ids : forall fr p,
  seg hp p ids None -> NoDup ids -> (forall r, r ∈ ids -> r ∉ fr) ->
  (length ids < fuel)%nat ->
  delete_results fuel {| heap := hp; freed_states := fs; freed_records := fr |} p
  = Done {| heap := hp; freed_states := fs; freed_records := fr ++ ids |}.
Proof.
  revert fuel. induction ids as [|r ids IH]; intros fuel fr p Hseg Hnd Hlive Hfuel.
  - simpl in Hseg. subst p. destruct fuel; simpl; by rewrite app_nil_r.
  - destruct Hseg as (-> & x & Hx & Hseg). destruct fuel as [|fuel]; [simpl in Hfuel; lia|].
    apply NoDup_cons in Hnd as [Hr Hnd].
    assert (Hlr : live_record {| heap := hp; freed_states := fs; freed_records := fr |} r
                  = Done x).
    { unfold live_record. simpl. rewrite bool_decide_eq_false_2 by (apply Hlive; left).
      by apply get_record_Done. }
    cbn [delete_results]. rewrite Hlr. cbn [bind]. unfold delete_record. rewrite Hlr.
    cbn [bind heap freed_states freed_records].
    rewrite (IH fuel (fr ++ [r]) (next x)); [by rewrite <- app_assoc|done|done| |simpl in Hfuel; lia].
    intros r' Hr' Hin. apply elem_of_app in Hin as [Hin|Hin].
    + apply (Hlive r'); [by right|done].
    + apply list_elem_of_singleton in Hin as ->. done.
Qed.

Lemma owned_snoc owns D s ids :
  owns !! s = Some ids -> owned owns (D ++ [s]) = owned owns D ++ ids.
Proof.
  intros Ho. unfold owned. rewrite fmap_app, join_app. simpl. by rewrite Ho, app_nil_r.
Qed.

Lemma elem_of_owned owns D r :
  r ∈ owned owns D <-> exists s ids, s ∈ D /\ owns !! s = Some ids /\ r ∈ ids.
Proof.
  unfold owned. rewrite list_elem_of_join. split.
  - intros (l & Hr & Hl). apply list_elem_of_fmap in Hl as (s & -> & Hs).
    destruct (owns !! s) as [ids|] eqn:Ho; simpl in Hr; [|by apply elem_of_nil in Hr].
    by exists s, ids.
  - intros (s & ids & Hs & Ho & Hr). exists ids. split; [done|].
    apply list_elem_of_fmap. exists s. by rewrite Ho.
Qed.

Lemma destroy_inv_valid paths owns ws m D q x :
  trie (heap m) paths owns ws -> destroy_inv owns m D q -> x ∈ D ++ q ->
  (x < length (states (heap m)))%nat.
Proof.
  intros T I Hx. rewrite <- (trie_len _ _ _ _ T).
  destruct (di_origin _ _ _ _ I x Hx) as [->|(p & st & t & Hp & Hst & Ht & <-)].
  - eapply lookup_lt_Some, T.
  - destruct (trie_path _ _ _ _ _ _ T Hst) as [wp Hwp].
    eapply lookup_lt_Some, (trie_trans _ _ _ _ T); done.
Qed.

Lemma destroy_inv_final paths owns ws m D :
  trie (heap m) paths owns ws -> destroy_inv owns m D [] ->
  D ≡ₚ seq 0 (length (states (heap m))).
Proof.
  intros T I.
  assert (Hroot : 0%nat ∈ D).
  { pose proof (di_root _ _ _ _ I) as H0. by rewrite app_nil_r in H0. }
  assert (Hch : forall p st t, p ∈ D -> states (heap m) !! p = Some st -> t ∈ transitions st ->
                               dest t ∈ D).
  { intros p st t Hp Hst Ht. pose proof (di_children _ _ _ _ I p st t Hp Hst Ht) as Hc.
    by rewrite app_nil_r in Hc. }
  assert (Hall : forall n y wy, paths !! y = Some wy -> (length wy < n)%nat -> y ∈ D).
  { intros n. induction n as [|n IHn]; intros y wy Hy Hl; [lia|].
    eapply (complete_from_children (heap m) paths owns ws D D n T Hroot Hch IHn);
      [exact Hy|lia]. }
  apply NoDup_Permutation.
  - pose proof (di_nodup _ _ _ _ I) as Hnd. by rewrite app_nil_r in Hnd.
  - apply NoDup_seq.
  - intros x. rewrite elem_of_seq. split.
    + intros Hx. pose proof (destroy_inv_valid paths owns ws m D [] x T I) as Hv.
      rewrite app_nil_r in Hv. specialize (Hv Hx). lia.
    + intros [_ Hx]. simpl in Hx.
      destruct (lookup_lt_is_Some_2 paths x) as [w Hw]; [by rewrite (trie_len _ _ _ _ T)|].
      apply (Hall (S (length w)) x w Hw). lia.
Qed.

(** *** The loop over the states *)

Lemma destroy_bfs_spec paths owns ws fuel budget m D q :
  trie (heap m) paths owns ws -> destroy_inv owns m D q ->
  (length ws < fuel)%nat ->
  (length (states (heap m)) <= budget + length D)%nat ->
  exists m', destroy_bfs fuel budget m q = Done m'
    /\ freed_states m' ≡ₚ seq 0 (length (states (heap m)))
    /\ freed_records m' = owned owns (freed_states m').
Proof.
  revert m D q. induction budget as [|budget IH]; intros m D q T I Hfuel Hbud.
  all: destruct q as [|s q];
    [exists m; split; [done|]; rewrite (di_states _ _ _ _ I); split;
       [by eapply destroy_inv_final|apply I]|].
  all: pose proof (NoDup_bounded_length _ _ (di_nodup _ _ _ _ I)
                     (fun x => destroy_inv_valid _ _ _ _ _ _ x T I)) as Hcount;
    rewrite length_app in Hcount; simpl in Hcount.
  { lia. }
  destruct m as [h fs fr]. simpl in *.
  pose proof (di_states _ _ _ _ I) as Hfs. pose proof (di_records _ _ _ _ I) as Hfr.
  simpl in Hfs, Hfr. subst fs fr.
  assert (Hvalid : forall x, x ∈ D ++ s :: q -> (x < length (states h))%nat).
  { intros x Hx.
    exact (destroy_inv_valid paths owns ws (mkMemory h D (owned owns D)) D (s :: q) x T I Hx). }
  pose proof (di_nodup _ _ _ _ I) as Hnd.
  assert (HsL : s ∈ D ++ s :: q) by (apply elem_of_app; right; left).
  destruct (lookup_lt_is_Some_2 (states h) s (Hvalid s HsL)) as [st Hs].
  destruct (trie_path _ _ _ _ _ _ T Hs) as [w Hw].
  assert (HsD : s ∉ D).
  { apply NoDup_app in Hnd as (_ & Hnd & _). intros Hin. apply (Hnd s Hin). left. }
  destruct (lookup_lt_is_Some_2 owns s) as [ids Ho].
  { rewrite (trie_olen _ _ _ _ T). by eapply lookup_lt_Some. }
  assert (Hlive : forall r, r ∈ ids -> r ∉ owned owns D).
  { intros r Hr Hin. apply elem_of_owned in Hin as (s' & ids' & Hs' & Ho' & Hr').
    assert (s' = s) as -> by (by eapply (trie_own_disj _ _ _ _ T)). done. }
  assert (Hfresh : forall t, t ∈ transitions st -> dest t ∉ D ++ s :: q).
  { intros t Ht Hin. pose proof (trie_trans _ _ _ _ T _ _ _ _ Hs Hw Ht) as Hdt.
    destruct (di_origin _ _ _ _ I _ Hin) as [H0|(p & stp & t' & Hp & Hstp & Ht' & Heq)].
    - rewrite H0, (trie_root _ _ _ _ T) in Hdt. injection Hdt as Hdt. by destruct w.
    - simpl in Hstp. destruct (trie_path _ _ _ _ _ _ T Hstp) as [wp Hwp].
      pose proof (trie_trans _ _ _ _ T _ _ _ _ Hstp Hwp Ht') as Hdt'.
      rewrite Heq, Hdt in Hdt'. injection Hdt' as Hdt'.
      apply app_inj_tail in Hdt' as [-> _].
      assert (p = s) as -> by (eapply NoDup_lookup; [apply T|done..]). done. }
  (* the state is read *)
  set (m := {| heap := h; freed_states := D; freed_records := owned owns D |}).
  assert (Hls : live_state m s = Done st).
  { unfold live_state. simpl. rewrite bool_decide_eq_false_2 by done.
    by apply get_state_Done. }
  (* its list is cut off after its own records *)
  assert (Hcb : clear_back m s
                = Done {| heap := stored h s st None; freed_states := D;
                          freed_records := owned owns D |}).
  { unfold clear_back. rewrite Hls. cbn [bind].
    pose proof (trie_own_back _ _ _ _ T _ _ _ Hs Ho) as Hb.
    assert (Hchk : match results_back st with
                   | BackOwn => Done st
                   | BackNext r => _ <- live_record m r ;; Done st
                   end = Done st).
    { destruct (list_nil_or_snoc ids) as [->|(l & r & ->)].
      - by rewrite Hb, back_of_nil.
      - rewrite Hb, back_of_snoc. unfold live_record. simpl.
        assert (Hrin : r ∈ l ++ [r]) by (apply elem_of_app; right; left).
        rewrite bool_decide_eq_false_2 by (by apply Hlive).
        destruct (lookup_lt_is_Some_2 (records h) r) as [x Hx].
        { by eapply (trie_own_valid _ _ _ _ T). }
        apply get_record_Done in Hx. rewrite Hx. done. }
    rewrite Hchk. cbn [bind]. simpl.
    rewrite (store_back_Done h paths owns ws s st None T Hs). done. }
  destruct (stored_spec h paths owns ws s st None T Hs) as [T1 Hfr1].
  set (h1 := stored h s st None) in *.
  destruct (Hfr1 s st Hs) as (st1 & Hs1 & Htr1 & _ & _ & Htl1).
  specialize (Htl1 eq_refl).
  assert (Hlen1 : length (states h1) = length (states h)).
  { by rewrite <- (trie_len _ _ _ _ T1), (trie_len _ _ _ _ T). }
  assert (Hback : forall x stx1, states h1 !! x = Some stx1 ->
            exists stx, states h !! x = Some stx /\ transitions stx1 = transitions stx).
  { intros x stx1 Hx1. destruct (lookup_lt_is_Some_2 (states h) x) as [stx Hx].
    { rewrite <- Hlen1. by eapply lookup_lt_Some. }
    destruct (Hfr1 _ _ Hx) as (stx' & Hx' & Htr & _). simplify_eq. eauto. }
  pose proof (trie_own_seg _ _ _ _ T1 _ _ _ Hs1 Ho) as Hseg. rewrite Htl1 in Hseg.
  assert (Hids : (length ids <= length ws)%nat).
  { pose proof (trie_own_values _ _ _ _ T _ _ _ Ho Hw) as Hov. unfold own_values in Hov.
    apply Forall2_length in Hov. rewrite Hov. apply length_filter. }
  set (m3 := {| heap := h1; freed_states := D ++ [s];
                freed_records := owned owns D ++ ids |}).
  destruct (IH m3 (D ++ [s]) (q ++ (dest <$> transitions st)) T1) as (m' & Hrun & Hst' & Hrec').
  - assert (Hre : (D ++ [s]) ++ q ++ (dest <$> transitions st)
                  = (D ++ s :: q) ++ (dest <$> transitions st)).
    { by rewrite <- !app_assoc. }
    split; rewrite ?Hre; simpl.
    + apply NoDup_app. split_and!; [done| |apply (trie_dest_nodup _ _ _ _ _ _ T Hs)].
      intros x Hx Hx'. apply list_elem_of_fmap in Hx' as (t & -> & Ht).
      by apply (Hfresh t Ht).
    + apply elem_of_app. left. apply I.
    + intros x Hx. apply elem_of_app in Hx as [Hx|Hx].
      * destruct (di_origin _ _ _ _ I x Hx) as [->|(p & stp & t & Hp & Hstp & Ht & <-)];
          [by left|right].
        simpl in Hstp. destruct (Hfr1 _ _ Hstp) as (stp1 & Hstp1 & Htr & _).
        exists p, stp1, t. split_and!; [apply elem_of_app; by left|done|by rewrite Htr|done].
      * right. apply list_elem_of_fmap in Hx as (t & -> & Ht).
        exists s, st1, t. split_and!; [apply elem_of_app; right; left|done|by rewrite Htr1|done].
    + intros p stp1 t Hp Hstp1 Ht. destruct (Hback _ _ Hstp1) as (stp & Hstp & Htr).
      rewrite Htr in Ht. apply elem_of_app. apply elem_of_app in Hp as [Hp|Hp].
      * left. by eapply (di_children _ _ _ _ I).
      * apply list_elem_of_singleton in Hp as ->. simplify_eq. right.
        by apply list_elem_of_fmap_2.
    + done.
    + by rewrite (owned_snoc _ _ _ _ Ho).
  - done.
  - simpl. rewrite length_app. simpl. lia.
  - exists m'. simpl in Hst'. rewrite Hlen1 in Hst'. split; [|done].
    cbn [destroy_bfs]. rewrite Hls. cbn [bind]. rewrite Hcb. cbn [bind].
    assert (Hls1 : live_state {| heap := h1; freed_states := D;
                                 freed_records := owned owns D |} s = Done st1).
    { unfold live_state. simpl. rewrite bool_decide_eq_false_2 by done.
      by apply get_state_Done. }
    rewrite Hls1. cbn [bind].
    rewrite (delete_results_spec fuel h1 D ids (owned owns D) (results st1) Hseg
               (trie_own_nodup _ _ _ _ T _ _ Ho) Hlive) by lia.
    cbn [bind]. unfold delete_state, live_state. simpl.
    rewrite bool_decide_eq_false_2 by done.
    apply get_state_Done in Hs1. rewrite Hs1. cbn [bind]. exact Hrun.
Qed.

(** *** Every record belongs to one state *)

Lemma sum_list_indicator (paths : list (list byte)) (w : list byte) :
  NoDup paths -> w ∈ paths ->
  sum_list ((fun v => if decide (w = v) then 1 else 0)%nat <$> paths) = 1%nat.
Proof.
  induction 1 as [|v paths Hv Hnd IH]; intros Hin; [by apply elem_of_nil in Hin|].
  csimpl. destruct (decide (w = v)) as [->|Hne].
  - assert (sum_list ((fun v0 => if decide (v = v0) then 1 else 0)%nat <$> paths) = 0%nat)
      as ->; [|done].
    clear IH Hnd Hin. induction paths as [|u paths IH]; [done|]. csimpl.
    apply not_elem_of_cons in Hv as [Hu Hv]. rewrite decide_False by done. by apply IH.
  - apply elem_of_cons in Hin as [->|Hin]; [done|]. by rewrite IH.
Qed.

Lemma sum_list_filter_words (paths : list (list byte)) (ws : list (Z * list byte)) :
  NoDup paths -> (forall iw, iw ∈ ws -> iw.2 ∈ paths) ->
  sum_list ((fun w => length (filter (fun iw : Z * list byte => iw.2 = w) ws)) <$> paths)
  = length ws.
Proof.
  intros Hnd. induction ws as [|iw ws IH]; intros Hin.
  - clear Hnd Hin. induction paths as [|w paths IH]; [done|]. csimpl. exact IH.
  - assert (Hstep : forall ps : list (list byte),
      sum_list ((fun w => length (filter (fun iw : Z * list byte => iw.2 = w) (iw :: ws)))
                  <$> ps)
      = (sum_list ((fun v => if decide (iw.2 = v) then 1 else 0)%nat <$> ps)
         + sum_list ((fun w => length (filter (fun iw : Z * list byte => iw.2 = w) ws))
                       <$> ps))%nat).
    { induction ps as [|v ps IHps]; [done|]. csimpl. rewrite IHps.
      destruct (decide (iw.2 = v)) as [Heq|Hne].
      - rewrite filter_cons_True by done. simpl. lia.
      - rewrite filter_cons_False by done. lia. }
    rewrite Hstep, IH, sum_list_indicator; [done|done| |].
    + apply Hin. left.
    + intros iw' Hiw'. apply Hin. by right.
Qed.

Lemma owns_cover h paths owns ws :
  trie h paths owns ws -> length (mjoin owns) = length ws.
Proof.
  intros T. rewrite length_join.
  assert (length <$> owns
          = (fun w => length (filter (fun iw : Z * list byte => iw.2 = w) ws)) <$> paths)
    as ->.
  { apply list_eq. intros i. rewrite !list_lookup_fmap.
    destruct (owns !! i) as [ids|] eqn:Ho, (paths !! i) as [w|] eqn:Hw; simpl.
    - f_equal. pose proof (trie_own_values _ _ _ _ T _ _ _ Ho Hw) as Hov.
      by apply Forall2_length in Hov.
    - apply lookup_lt_Some in Ho. apply lookup_ge_None in Hw.
      rewrite (trie_len _ _ _ _ T) in Hw. rewrite (trie_olen _ _ _ _ T) in Ho. lia.
    - apply lookup_lt_Some in Hw. apply lookup_ge_None in Ho.
      rewrite (trie_len _ _ _ _ T) in Hw. rewrite (trie_olen _ _ _ _ T) in Ho. lia.
    - done. }
  apply sum_list_filter_words; [apply T|]. apply (trie_words _ _ _ _ T).
Qed.

Lemma NoDup_join {A} (ls : list (list A)) :
  (forall i l, ls !! i = Some l -> NoDup l) ->
  (forall i j li lj x, ls !! i = Some li -> ls !! j = Some lj -> x ∈ li -> x ∈ lj -> i = j) ->
  NoDup (mjoin ls).
Proof.
  induction ls as [|l ls IH]; intros Hnd Hdisj; [constructor|]. simpl.
  apply NoDup_app. split_and!.
  - by apply (Hnd 0%nat).
  - intros x Hx Hin. apply list_elem_of_join in Hin as (l' & Hx' & Hl').
    apply list_elem_of_lookup in Hl' as [j Hj].
    by specialize (Hdisj 0%nat (S j) l l' x eq_refl Hj Hx Hx').
  - apply IH.
    + intros i l'. apply (Hnd (S i)).
    + intros i j li lj x Hi Hj Hxi Hxj.
      by injection (Hdisj (S i) (S j) li lj x Hi Hj Hxi Hxj).
Qed.

Lemma owned_all (owns : list (list nat)) : owned owns (seq 0 (length owns)) = mjoin owns.
Proof.
  unfold owned. f_equal. apply list_eq. intros i. rewrite list_lookup_fmap.
  destruct (owns !! i) as [ids|] eqn:Ho.
  - rewrite (lookup_seq_lt _ _ i) by (by eapply lookup_lt_Some). simpl. by rewrite Ho.
  - rewrite lookup_seq_ge; [done|]. by apply lookup_ge_None.
Qed.

Lemma trie_records_owned h paths owns ws :
  trie h paths owns ws -> length (records h) = length ws ->
  mjoin owns ≡ₚ seq 0 (length (records h)).
Proof.
  intros T Hlen. apply submseteq_length_Permutation.
  - apply NoDup_submseteq.
    + apply NoDup_join; [apply T|]. intros i j li lj x Hi Hj Hxi Hxj.
      by eapply (trie_own_disj _ _ _ _ T).
    + intros r Hr. apply list_elem_of_join in Hr as (ids & Hr & Hids).
      apply list_elem_of_lookup in Hids as [s Hs]. apply elem_of_seq.
      pose proof (trie_own_valid _ _ _ _ T _ _ _ Hs Hr). lia.
  - rewrite length_seq, Hlen, (owns_cover _ _ _ _ T). done.
Qed.

(** [destroyStateMachine] on a heap that holds the trie of [ws] and nothing
    else. *)
Lemma destroyStateMachine_spec h paths owns ws fuel :
  trie h paths owns ws -> length (records h) = length ws ->
  (length ws < fuel)%nat -> (length (states h) < fuel)%nat ->
  exists m, destroyStateMachine fuel h 0 = Done m
    /\ freed_states m ≡ₚ seq 0 (length (states h))
    /\ freed_records m ≡ₚ seq 0 (length (records h)).
Proof.
  intros T Hlen Hws Hfuel. unfold destroyStateMachine.
  destruct (destroy_bfs_spec paths owns ws fuel fuel
              {| heap := h; freed_states := []; freed_records := [] |} [] [0%nat])
    as (m & Hrun & Hst & Hrec); simpl; try done; try lia.
  - split; simpl; try done.
    + apply NoDup_singleton.
    + left.
    + intros x Hx. apply list_elem_of_singleton in Hx. by left.
    + intros p st t Hp. by apply elem_of_nil in Hp.
  - exists m. split_and!; [done|done|]. rewrite Hrec.
    rewrite <- (trie_records_owned h paths owns ws T Hlen), <- owned_all.
    unfold owned. apply join_Permutation, fmap_Permutation.
    by rewrite Hst, (trie_olen _ _ _ _ T).
Qed.


(** ** The program from its input to its output *)

Lemma tokenize_length wildcard cmark : forall n l its,
  (length l <= n)%nat -> tokenize wildcard cmark l = Some its ->
  (length its <= length l)%nat.
Proof.
  induction n as [|n IH]; intros l its Hn Htok.
  - destruct l; [|simpl in Hn; lia]. by injection Htok as <-.
  - destruct l as [|c l]; [by injection Htok as <-|]. simpl in Htok, Hn.
    case_bool_decide; [|case_bool_decide].
    + destruct l as [|d l]; [done|]. apply fmap_Some_inv in Htok as (r & Hr & ->).
      apply IH in Hr; simpl in *; lia.
    + apply fmap_Some_inv in Htok as (r & Hr & ->). apply IH in Hr; simpl in *; lia.
    + apply fmap_Some_inv in Htok as (r & Hr & ->). apply IH in Hr; simpl in *; lia.
Qed.

Lemma total_length_part_words i ps :
  total_length (part_words i ps) = sum_list_with (fun q => length (chars q)) ps.
Proof. revert i. induction ps as [|p ps IH]; intros i; simpl; [done|by rewrite IH]. Qed.

Lemma total_length_complement_words n i cs :
  total_length (complement_words n i cs) = length cs.
Proof. revert i. induction cs as [|c cs IH]; intros i; simpl; [done|by rewrite IH]. Qed.

Lemma repr_fuel items p :
  repr items (parts p) (complement p) -> (pattern_fuel p <= 2 + 2 * length items)%nat.
Proof.
  intros Hr. pose proof (rp_size _ _ _ Hr) as Hz. unfold pattern_fuel, pattern_words.
  rewrite total_length_app, total_length_part_words, total_length_complement_words.
  rewrite length_app, part_words_length, complement_words_length. lia.
Qed.

Lemma to_int_small z : 0 <= z < 2 ^ 31 -> to_int z = z.
Proof. intros Hz. unfold to_int. rewrite Z.mod_small; lia. Qed.

Lemma print_matches_small (ms : list Z) :
  Forall (fun m => 0 <= m < 2 ^ 31 - 1) ms ->
  print_matches ms = Some ((fun m => m + 1) <$> ms).
Proof.
  induction 1 as [|m ms Hm _ IH]; [done|]. simpl.
  rewrite to_int_small by lia. rewrite bool_decide_eq_false_2 by lia. by rewrite IH.
Qed.


(** ** More on the automaton *)

(** The state of the scanner follows the longest suffix of the text read that
    is a path of the trie. *)
Lemma scan_state_longest h paths owns ws fuel :
  automaton h paths owns ws -> (length (states h) < fuel)%nat ->
  forall text pre s w,
    paths !! s = Some w -> longest_suffix paths pre w ->
    exists cs v, scan_state fuel h s text = Done cs /\ paths !! cs = Some v
                 /\ longest_suffix paths (pre ++ text) v.
Proof.
  intros A Hfuel. pose proof A as [T _].
  induction text as [|c text IH]; intros pre s w Hw Hlong.
  - exists s, w. rewrite app_nil_r. done.
  - destruct (stepMatching_spec h paths owns ws fuel s w c A Hw) as (cs' & v & Hstep & Hv & Hl).
    { pose proof (trie_short _ _ _ _ T _ _ Hw). lia. }
    pose proof (longest_suffix_step h paths owns ws pre w c v T Hlong Hl) as Hl'.
    destruct (IH (pre ++ [c]) cs' v Hv Hl') as (cs & v' & Hrun & Hv' & Hlv).
    exists cs, v'. rewrite <- app_assoc in Hlv. split_and!; [|done|done].
    simpl. rewrite Hstep. done.
Qed.

(** Two heaps that hold the same trie have the same transitions. *)
Lemma run_same_trie h h0 paths owns ws s w :
  trie h paths owns ws -> trie h0 paths owns ws -> run h s w = run h0 s w.
Proof.
  intros T T0. destruct (paths !! s) as [u|] eqn:Hu.
  - destruct (run h s w) as [d|] eqn:Hd.
    + apply (run_path _ _ _ _ _ _ _ _ T Hu) in Hd. symmetry.
      by apply (run_path _ _ _ _ _ _ _ _ T0 Hu).
    + destruct (run h0 s w) as [d|] eqn:Hd0; [|done].
      apply (run_path _ _ _ _ _ _ _ _ T0 Hu) in Hd0.
      apply (run_path _ _ _ _ _ _ _ _ T Hu) in Hd0. congruence.
  - destruct w as [|c w]; [done|]. simpl.
    apply lookup_ge_None in Hu.
    rewrite (lookup_ge_None_2 (states h)) by (by rewrite <- (trie_len _ _ _ _ T)).
    rewrite (lookup_ge_None_2 (states h0)) by (by rewrite <- (trie_len _ _ _ _ T0)).
    done.
Qed.

(** A word that is already a path is inserted without a new state. *)
Lemma extendForest_walk_run h s cs d :
  run h s cs = Some d -> extendForest_walk h s cs = Done (h, d).
Proof.
  revert s. induction cs as [|c cs IH]; intros s; simpl.
  - by intros [= ->].
  - unfold get_state. destruct (states h !! s) as [st|]; [|done]. simpl.
    destruct (findTransition st c) as [t|]; [|done]. apply IH.
Qed.

(** An occurrence only depends on the window of the text it covers. *)
Lemma at_pos_app_l (text more : list byte) (k : Z) (w : list byte) :
  0 <= k -> k + Z.of_nat (length w) <= Z.of_nat (length text) ->
  at_pos (text ++ more) k w <-> at_pos text k w.
Proof.
  intros Hk Hlen. unfold at_pos.
  rewrite drop_app_le by lia. rewrite take_app_le; [done|].
  rewrite length_drop. lia.
Qed.

Lemma occurrence_app_l pat text more s :
  Pattern_ok pat -> s + p_length pat <= Z.of_nat (length text) ->
  occurrence pat (text ++ more) s <-> occurrence pat text s.
Proof.
  intros Hok Hs. unfold occurrence. rewrite length_app.
  assert (Hparts : 0 <= s ->
            Forall (part_at (text ++ more) s) (parts pat)
            <-> Forall (part_at text s) (parts pat)).
  { intros Hs0. rewrite !Forall_forall. apply forall_proper. intros p.
    apply forall_proper. intros Hp.
    pose proof (ok_parts _ Hok) as Hall. rewrite Forall_forall in Hall.
    destruct (Hall p Hp) as (Ho & _ & Hl). unfold part_at, part_length in *.
    apply at_pos_app_l; lia. }
  assert (Hcomp : 0 <= s ->
            Forall (fun c => ~ complement_at (text ++ more) s c) (complement pat)
            <-> Forall (fun c => ~ complement_at text s c) (complement pat)).
  { intros Hs0. rewrite !Forall_forall. apply forall_proper. intros c.
    apply forall_proper. intros Hc.
    pose proof (ok_complements _ Hok) as Hall. rewrite Forall_forall in Hall.
    specialize (Hall c Hc). unfold complement_ok in Hall. unfold complement_at.
    rewrite lookup_app_l by lia. done. }
  split.
  - intros (Hs0 & _ & Hp & Hc). split_and!; [done|done|by apply Hparts|by apply Hcomp].
  - intros (Hs0 & _ & Hp & Hc). split_and!; [done|lia|by apply Hparts|by apply Hcomp].
Qed.


(** ** Properties of the parser, of [main] and of [destroyStateMachine] *)

Lemma createPattern_loop_end fuel pat wildcard cmark ps compls extra pc :
  (length pat <= pc)%nat ->
  createPattern_loop fuel pat wildcard cmark ps compls extra pc
  = Done {| parts := ps; complement := compls;
            p_length := wrap (Z.of_nat (length pat) - extra) |}.
Proof.
  intros Hpc. destruct fuel; simpl; by rewrite bool_decide_eq_false_2 by lia.
Qed.

Lemma sample_line_no_zero :
  "000"%byte ∉ ["a"; "b"; "!"; "z"; "?"; "c"]%byte.
Proof. apply (bool_decide_unpack _). vm_compute. exact I. Defined.

(** X1.  [createPatternStructure] reads a pattern line that holds no zero
    byte and in which every complement marker is followed by a byte into a
    pattern that satisfies the invariants of the data model, has one
    position for each item of the line, and occurs in a text exactly where
    the items match: a literal byte asks for that byte, a wildcard for any
    byte, a marker followed by [c] for any byte but [c]. *)
Theorem createPatternStructure_reads_the_items pattern wildcard cmark items k :
  "000"%byte ∉ pattern -> wildcard <> "000"%byte -> wildcard <> cmark ->
  pattern <> [] -> Z.of_nat (length pattern) < 2 ^ 64 ->
  tokenize wildcard cmark pattern = Some items ->
  exists p,
    createPatternStructure (S (length pattern) + k) pattern wildcard cmark = Done p
    /\ Pattern_ok p /\ p_length p = Z.of_nat (length items)
    /\ forall text s, occurrence p text s <-> matches_at items text s.
Proof.
  intros Hnul Hw Hwc Hne Hlen Htok.
  pose proof (createPatternStructure_parsed wildcard cmark pattern k Hnul Hw Hwc Hlen) as Hp.
  rewrite Htok in Hp. destruct Hp as (p & Hp & Hr & Hl). simpl in Hr, Hl.
  exists p. split_and!; [done| |done|].
  - apply (repr_Pattern_ok items); [done|done|]. by eapply tokenize_nonempty.
  - intros text s. by apply repr_occurrence.
Qed.

Lemma sample_items :
  exists p,
    createPatternStructure (S 6 + 0) ["a"; "b"; "!"; "z"; "?"; "c"]%byte "?"%byte "!"%byte
    = Done p
    /\ Pattern_ok p /\ p_length p = 5
    /\ forall text s,
         occurrence p text s
         <-> matches_at [Lit "a"; Lit "b"; Not "z"; Any; Lit "c"]%byte text s.
Proof.
  apply (createPatternStructure_reads_the_items
           ["a"; "b"; "!"; "z"; "?"; "c"]%byte "?"%byte "!"%byte
           [Lit "a"; Lit "b"; Not "z"; Any; Lit "c"]%byte 0).
  - exact sample_line_no_zero.
  - done.
  - done.
  - done.
  - simpl. lia.
  - reflexivity.
Defined.

(** X2.  When the pattern line ends in a complement marker that has no byte
    after it, [createPatternStructure] takes the terminator as the forbidden
    byte, steps over it and reads the byte after the terminator, outside the
    string. *)
Theorem createPatternStructure_reads_past_a_final_marker pattern wildcard cmark k :
  "000"%byte ∉ pattern -> wildcard <> "000"%byte -> wildcard <> cmark ->
  Z.of_nat (length pattern) < 2 ^ 64 ->
  tokenize wildcard cmark pattern = None ->
  createPatternStructure (S (length pattern) + k) pattern wildcard cmark = Fail OutOfRange.
Proof.
  intros Hnul Hw Hwc Hlen Htok.
  pose proof (createPatternStructure_parsed wildcard cmark pattern k Hnul Hw Hwc Hlen) as Hp.
  by rewrite Htok in Hp.
Qed.

Lemma sample_final_marker :
  createPatternStructure (S 3 + 0) ["a"; "?"; "!"]%byte "?"%byte "!"%byte = Fail OutOfRange.
Proof.
  apply (createPatternStructure_reads_past_a_final_marker
           ["a"; "?"; "!"]%byte "?"%byte "!"%byte 0).
  - apply (bool_decide_unpack _). vm_compute. exact I.
  - done.
  - done.
  - simpl. lia.
  - reflexivity.
Defined.

(** X3.  A zero byte in the pattern line, when no complement character is
    in use, stops [createPatternStructure] for good: the loop reaches the
    byte, can neither take it as a literal nor step over it, and never
    ends. *)
Theorem createPatternStructure_loops_on_a_zero_byte pattern wildcard fuel :
  "000"%byte ∈ pattern -> wildcard <> "000"%byte ->
  createPatternStructure fuel pattern wildcard "000"%byte = Fail OutOfFuel.
Proof.
  intros Hin Hw. apply list_elem_of_lookup in Hin as [z Hz].
  unfold createPatternStructure.
  apply (createPattern_loop_stuck fuel pattern wildcard z [] [] 0 0%nat Hz Hw). apply Nat.le_0_l.
Qed.

Lemma sample_zero_byte :
  createPatternStructure 1000 ["a"; "000"; "b"]%byte "?"%byte "000"%byte = Fail OutOfFuel.
Proof.
  apply (createPatternStructure_loops_on_a_zero_byte ["a"; "000"; "b"]%byte "?"%byte 1000).
  - apply (bool_decide_unpack _). vm_compute. exact I.
  - done.
Defined.

(** X4.  A pattern line made of literal bytes only is read as one fragment
    at offset 0 that fills the pattern. *)
Theorem createPatternStructure_literal w wildcard cmark k :
  w <> [] -> Forall (literal wildcard cmark) w -> wildcard <> "000"%byte ->
  Z.of_nat (length w) < 2 ^ 64 ->
  createPatternStructure (S (length w) + k) w wildcard cmark = Done (literal_pattern w).
Proof.
  intros Hne Hlit Hw Hlen. unfold createPatternStructure.
  assert (Hpos : (0 < length w)%nat) by (destruct w; [done|simpl; lia]).
  cbn [createPattern_loop Nat.add]. rewrite bool_decide_eq_true_2 by done.
  rewrite (literal_end_at _ _ _ w [] w []); [|by rewrite app_nil_r|done|done|lia].
  cbn [bind]. change (length (@nil byte) + length w)%nat with (length w).
  rewrite (bool_decide_eq_true_2 (length w <> 0%nat)) by lia.
  rewrite c_str_at_end.
  assert (Hmark : (if bool_decide (cmark <> "000"%byte)
                   then c <- Done "000"%byte ;; Done (bool_decide (c = cmark))
                   else Done false) = Done false).
  { case_bool_decide; [|done]. cbn [bind]. by rewrite bool_decide_eq_false_2. }
  rewrite Hmark. cbn [bind fst snd].
  rewrite (skip_wildcards_at _ _ w w (length w) 0 []); [|by rewrite app_nil_r|done..|lia].
  cbn [bind]. rewrite Nat.add_0_r.
  rewrite createPattern_loop_end by done.
  unfold literal_pattern. rewrite Nat.sub_0_r, drop_0, firstn_all.
  rewrite !wrap_small by (unfold size_max; lia). simpl. do 2 f_equal. lia.
Qed.

Lemma sample_literal_line :
  createPatternStructure (S 2 + 0) ["a"; "b"]%byte "?"%byte "!"%byte
  = Done (literal_pattern ["a"; "b"]%byte).
Proof.
  apply (createPatternStructure_literal ["a"; "b"]%byte "?"%byte "!"%byte 0).
  - done.
  - repeat (apply Forall_cons_2 || apply Forall_nil_2); by split_and!.
  - done.
  - simpl. lia.
Defined.

(** X5.  The program as a whole: for a text shorter than 2^31 bytes and a
    pattern line that holds no zero byte and in which every complement
    marker is followed by a byte, [main] builds, compiles and scans without
    a fault, writes the start positions of the matches of the line's items,
    counted from 1 and in increasing order, and releases the automaton. *)
Theorem main_prints_the_matches search_s pattern wildcard cmark items k :
  "000"%byte ∉ pattern -> wildcard <> "000"%byte -> wildcard <> cmark ->
  pattern <> [] ->
  Z.of_nat (length pattern) < 2 ^ 63 -> Z.of_nat (length search_s) < 2 ^ 31 ->
  tokenize wildcard cmark pattern = Some items ->
  main (2 * length pattern + 3 + k) search_s pattern wildcard cmark
  = Output ((fun s => s + 1) <$> item_matches items search_s).
Proof.
  intros Hnul Hw Hwc Hne Hlen Htext Htok.
  pose proof (tokenize_length wildcard cmark _ _ _ (Nat.le_refl _) Htok) as Hil.
  pose proof (createPatternStructure_parsed wildcard cmark pattern (length pattern + 2 + k)
                Hnul Hw Hwc) as Hp.
  rewrite Htok in Hp. destruct Hp as (p & Hp & Hr & Hl).
  { unfold size_max. lia. }
  simpl in Hr, Hl.
  replace (S (length pattern) + (length pattern + 2 + k))%nat
    with (2 * length pattern + 3 + k)%nat in Hp by lia.
  unfold main. rewrite Hp.
  pose proof (repr_fuel items p Hr) as Hpf.
  assert (Hok : Pattern_ok p).
  { apply (repr_Pattern_ok items); [done|done|]. by eapply tokenize_nonempty. }
  assert (Hmem : in_memory p search_s) by (unfold in_memory; lia).
  destruct (compile_spec p (2 * length pattern + 3 + k) ltac:(lia))
    as (h0 & h & paths & owns & Hb & Hc & _ & _ & A & Hlt).
  rewrite Hb, Hc. unfold getTotalMatches.
  rewrite (getTotalMatches_with_spec sub_wrap p search_s h paths owns _ sub_wrap_ok Hok Hmem A Hlt)
    by (unfold pattern_fuel in Hpf; lia).
  assert (Hms : filter (occurrence p search_s)
                  (seqZ 0 (Z.of_nat (length search_s) - p_length p + 1))
                = item_matches items search_s).
  { unfold item_matches. rewrite Hl. apply list_filter_iff. intros s.
    by apply repr_occurrence. }
  rewrite Hms, print_matches_small.
  2:{ apply Forall_forall. intros s Hs. unfold item_matches in Hs.
      apply list_elem_of_filter in Hs as [(Hs0 & Hs1 & _) _].
      assert (0 < Z.of_nat (length items)); [|lia].
      assert (items <> []) by (by eapply tokenize_nonempty). destruct items; [done|simpl; lia]. }
  destruct A as [T Hcl].
  destruct (destroyStateMachine_spec h paths owns (pattern_words p) (2 * length pattern + 3 + k) T)
    as (m & -> & _); [|unfold pattern_fuel in Hpf; lia|done|done].
  apply forestIntoStateMachine_length in Hc as [-> _].
  by apply buildForestFromPattern_records in Hb.
Qed.

Lemma sample_main :
  main (2 * 6 + 3 + 0) sample_text ["a"; "b"; "!"; "z"; "?"; "c"]%byte "?"%byte "!"%byte
  = Output ((fun s => s + 1)
              <$> item_matches [Lit "a"; Lit "b"; Not "z"; Any; Lit "c"]%byte sample_text).
Proof.
  apply (main_prints_the_matches sample_text
           ["a"; "b"; "!"; "z"; "?"; "c"]%byte "?"%byte "!"%byte
           [Lit "a"; Lit "b"; Not "z"; Any; Lit "c"]%byte 0).
  - exact sample_line_no_zero.
  - done.
  - done.
  - done.
  - simpl. lia.
  - simpl. lia.
  - reflexivity.
Defined.

(** X6.  [destroyStateMachine], run on the compiled automaton of any
    pattern, finishes without touching a released object and releases every
    state and every match record exactly once: cutting each list after the
    state's own records keeps the shared tails from being released twice. *)
Theorem destroyStateMachine_frees_everything_once pat k :
  exists h0 h m,
    buildForestFromPattern pat = Done (h0, 0%nat)
    /\ forestIntoStateMachine (pattern_fuel pat + k) h0 0 = Done h
    /\ destroyStateMachine (pattern_fuel pat + k) h 0 = Done m
    /\ freed_states m ≡ₚ seq 0 (length (states h))
    /\ freed_records m ≡ₚ seq 0 (length (records h)).
Proof.
  destruct (compile_spec pat (pattern_fuel pat + k) ltac:(lia))
    as (h0 & h & paths & owns & Hb & Hc & _ & _ & [T _] & Hlt).
  destruct (destroyStateMachine_spec h paths owns (pattern_words pat) (pattern_fuel pat + k) T)
    as (m & Hm & Hs & Hr); [|unfold pattern_fuel; lia|done|].
  - pose proof (forestIntoStateMachine_length _ _ _ _ Hc) as [-> _].
    by apply buildForestFromPattern_records in Hb.
  - by exists h0, h, m.
Qed.

(** ** Properties of the trie and of the scanner *)

(** X7.  The size of the automaton: [buildForestFromPattern] allocates one
    match record for each fragment and each complement and, besides the
    root, at most one state for each byte of their words;
    [forestIntoStateMachine] allocates nothing. *)
Theorem automaton_size pat k :
  exists h0 h,
    buildForestFromPattern pat = Done (h0, 0%nat)
    /\ forestIntoStateMachine (pattern_fuel pat + k) h0 0 = Done h
    /\ length (records h0) = (length (parts pat) + length (complement pat))%nat
    /\ (1 <= length (states h0) <= 1 + total_length (pattern_words pat))%nat
    /\ length (states h) = length (states h0)
    /\ length (records h) = length (records h0).
Proof.
  destruct (compile_spec pat (pattern_fuel pat + k) ltac:(lia))
    as (h0 & h & paths & owns & Hb & Hc & T0 & _ & _ & _).
  destruct (buildForestFromPattern_spec pat) as (h0' & paths' & owns' & Hb' & _ & _ & Hbound).
  rewrite Hb in Hb'. injection Hb' as <-.
  exists h0, h. split_and!; [done|done| | |done| |].
  - rewrite <- pattern_words_length. by eapply buildForestFromPattern_records.
  - rewrite <- (trie_len _ _ _ _ T0).
    pose proof (lookup_lt_Some _ _ _ (trie_root _ _ _ _ T0)). lia.
  - by apply forestIntoStateMachine_length in Hc as [_ ?].
  - by apply forestIntoStateMachine_length in Hc as [? _].
Qed.

(** X8.  Insertion and lookup: in the trie that [buildForestFromPattern]
    returns, the word of every fragment and of every complement leads from
    the root to a state, and the record list of the state reached by a byte
    string [w] holds exactly the identifiers (with the length of [w]) of the
    words equal to [w], in the order of their insertion. *)
Theorem built_trie_finds_every_word pat k :
  exists h0,
    buildForestFromPattern pat = Done (h0, 0%nat)
    /\ (forall iw, iw ∈ pattern_words pat -> is_Some (run h0 0 iw.2))
    /\ forall w s st,
         run h0 0 w = Some s -> states h0 !! s = Some st ->
         collect (pattern_fuel pat + k) h0 (results st)
         = Done (word_payload <$> filter (fun iw => iw.2 = w) (pattern_words pat)).
Proof.
  destruct (buildForestFromPattern_spec pat) as (h0 & paths & owns & Hb & T0 & F0 & _).
  exists h0. split_and!; [done| |].
  - intros iw Hiw. apply (run_is_Some _ _ _ _ _ T0). by apply (trie_words _ _ _ _ T0).
  - intros w s st Hrun Hs. apply (run_root _ _ _ _ _ _ T0) in Hrun.
    exact (collect_fresh h0 paths owns _ _ s st w T0 F0 (pattern_fuel_words pat k) Hs Hrun).
Qed.

(** X9.  [forestIntoStateMachine] leaves the trie as it is: after
    compilation every byte string leads from every state to the state it led
    to before. *)
Theorem compilation_keeps_the_transitions pat k :
  exists h0 h,
    buildForestFromPattern pat = Done (h0, 0%nat)
    /\ forestIntoStateMachine (pattern_fuel pat + k) h0 0 = Done h
    /\ forall s w, run h s w = run h0 s w.
Proof.
  destruct (compile_spec pat (pattern_fuel pat + k) ltac:(lia))
    as (h0 & h & paths & owns & Hb & Hc & T0 & _ & [T _] & _).
  exists h0, h. split_and!; [done|done|]. intros s w. by eapply run_same_trie.
Qed.

(** X10.  The state of the scanner: after reading any text from the root,
    the scanner is in the state reached by the longest suffix of the text
    that is a path of the trie.  [stepMatching] then returns [false] exactly
    when it ends in the root, in which case the root has no transition on
    the byte read; when it returns [true] it has taken a transition on that
    byte. *)
Theorem scanner_follows_the_longest_suffix pat k text c :
  exists h0 h cs v cs' found,
    buildForestFromPattern pat = Done (h0, 0%nat)
    /\ forestIntoStateMachine (pattern_fuel pat + k) h0 0 = Done h
    /\ scan_state (pattern_fuel pat + k) h 0 text = Done cs
    /\ run h 0 v = Some cs /\ v `suffix_of` text
    /\ (forall v', v' `suffix_of` text -> is_Some (run h 0 v') ->
                   (length v' <= length v)%nat)
    /\ stepMatching (pattern_fuel pat + k) h cs c = Done (cs', found)
    /\ (found = false <-> cs' = 0%nat)
    /\ (found = false -> run h 0 [c] = None)
    /\ (found = true -> exists u, run h 0 (u ++ [c]) = Some cs').
Proof.
  destruct (compile_spec pat (pattern_fuel pat + k) ltac:(lia))
    as (h0 & h & paths & owns & Hb & Hc & _ & _ & A & Hlt).
  pose proof A as [T Hcl].
  destruct (scan_state_longest h paths owns _ (pattern_fuel pat + k) A Hlt text [] 0%nat []
              (trie_root _ _ _ _ T) (longest_suffix_nil _ _ _ _ T))
    as (cs & v & Hscan & Hv & Hsuf & Hin & Hmax).
  destruct (stepMatching_spec h paths owns _ (pattern_fuel pat + k) cs v c A Hv)
    as (cs' & u & Hstep & Hu & Hsuf' & Hin' & Hmax').
  { pose proof (trie_short _ _ _ _ T _ _ Hv). lia. }
  exists h0, h, cs, v, cs', (bool_decide (u <> [])).
  split_and!; [done|done|done|by apply (run_root _ _ _ _ _ _ T)|done| |done| | |].
  - intros v' Hv' Hsome. apply Hmax; [done|]. by apply (run_is_Some _ _ _ _ _ T).
  - rewrite bool_decide_eq_false. split.
    + intros Hnil. apply dec_stable in Hnil. subst u. by eapply trie_root_unique.
    + intros ->. rewrite (trie_root _ _ _ _ T) in Hu. injection Hu as <-. by intros H.
  - rewrite bool_decide_eq_false. intros Hnil. apply dec_stable in Hnil. subst u.
    destruct (run h 0 [c]) as [d|] eqn:Hd; [|done].
    assert (Hc1 : [c] ∈ paths) by (apply (run_is_Some _ _ _ _ _ T); by rewrite Hd).
    assert (Hsc : [c] `suffix_of` v ++ [c]) by (by exists v).
    specialize (Hmax' [c] Hsc Hc1). simpl in Hmax'. lia.
  - rewrite bool_decide_eq_true. intros Hne.
    destruct (list_nil_or_snoc u) as [->|(u' & c' & ->)]; [done|].
    apply suffix_snoc_inv_1 in Hsuf' as Heq. subst c'.
    exists u'. by apply (run_root _ _ _ _ _ _ T).
Qed.

(** X11.  The output of a compiled state: after compilation the record
    list of the state reached by a byte string [w] holds, up to their order,
    exactly the identifiers of the pattern's words that are suffixes of
    [w]. *)
Theorem compiled_list_holds_the_suffix_words pat k :
  exists h0 h,
    buildForestFromPattern pat = Done (h0, 0%nat)
    /\ forestIntoStateMachine (pattern_fuel pat + k) h0 0 = Done h
    /\ forall w s st,
         run h 0 w = Some s -> states h !! s = Some st ->
         exists l,
           collect (pattern_fuel pat + k) h (results st) = Done l
           /\ l ≡ₚ word_payload <$> filter (fun iw => iw.2 `suffix_of` w) (pattern_words pat).
Proof.
  destruct (compile_spec pat (pattern_fuel pat + k) ltac:(lia))
    as (h0 & h & paths & owns & Hb & Hc & _ & _ & A & Hlt).
  pose proof A as [T Hcl].
  exists h0, h. split_and!; [done|done|]. intros w s st Hrun Hs.
  apply (run_root _ _ _ _ _ _ T) in Hrun.
  destruct (closed_chain _ _ _ _ _ _ _ A Hs Hrun) as (xs & Hch & Hperm).
  exists (payload <$> xs). split; [|done]. apply collect_chain; [done|].
  pose proof (chain_length_bound _ _ _ _ _ _ _ _ A Hs Hrun Hch).
  pose proof (pattern_fuel_words pat k). lia.
Qed.

(** X12.  The scan is online: the matches reported for a text are the first
    matches reported for any longer text that starts with it, and the
    further ones start too late to fit into the shorter text. *)
Theorem scan_is_online pat text more k :
  Pattern_ok pat -> in_memory pat (text ++ more) ->
  exists h0 h ms ms',
    buildForestFromPattern pat = Done (h0, 0%nat)
    /\ forestIntoStateMachine (pattern_fuel pat + k) h0 0 = Done h
    /\ getTotalMatches (pattern_fuel pat + k) h 0 pat text = Done ms
    /\ getTotalMatches (pattern_fuel pat + k) h 0 pat (text ++ more) = Done (ms ++ ms')
    /\ Forall (fun s => Z.of_nat (length text) < s + p_length pat) ms'.
Proof.
  intros Hok Hmem.
  assert (Hmem' : in_memory pat text).
  { destruct Hmem as [? Hl]. rewrite length_app in Hl. split; [done|lia]. }
  destruct (scan_spec sub_wrap pat text k sub_wrap_ok Hok Hmem') as (h0 & h & Hb & Hc & Hs).
  destruct (scan_spec sub_wrap pat (text ++ more) k sub_wrap_ok Hok Hmem)
    as (h0' & h' & Hb' & Hc' & Hs').
  rewrite Hb in Hb'. injection Hb' as <-. rewrite Hc in Hc'. injection Hc' as <-.
  pose proof (ok_length _ Hok) as Hpos.
  set (n := Z.of_nat (length text) - p_length pat + 1) in *.
  set (n' := Z.of_nat (length (text ++ more)) - p_length pat + 1) in *.
  assert (Hnn : n <= n') by (subst n n'; rewrite length_app; lia).
  exists h0, h, (filter (occurrence pat text) (seqZ 0 n)),
    (filter (occurrence pat (text ++ more)) (seqZ (Z.max 0 n) (n' - Z.max 0 n))).
  split_and!; [done|done|exact Hs| |].
  - unfold getTotalMatches. rewrite Hs'. f_equal.
    destruct (decide (0 <= n)) as [Hn|Hn].
    + replace n' with (n + (n' - n)) at 1 by lia.
      rewrite seqZ_app by lia. rewrite filter_app, Z.max_r by lia. f_equal.
      apply filter_ext_elem. intros s Hin.
      apply elem_of_seqZ in Hin. apply occurrence_app_l; [done|]. subst n. lia.
    + rewrite (seqZ_nil 0 n) by lia. rewrite Z.max_l by lia. simpl.
      by rewrite Z.sub_0_r.
  - apply Forall_forall. intros s Hin. apply list_elem_of_filter in Hin as [_ Hin].
    apply elem_of_seqZ in Hin. subst n. lia.
Qed.

Lemma sample_online :
  exists h0 h ms ms',
    buildForestFromPattern sample_pattern_not_z = Done (h0, 0%nat)
    /\ forestIntoStateMachine (pattern_fuel sample_pattern_not_z + 0) h0 0 = Done h
    /\ getTotalMatches (pattern_fuel sample_pattern_not_z + 0) h 0
         sample_pattern_not_z (take 6 sample_text) = Done ms
    /\ getTotalMatches (pattern_fuel sample_pattern_not_z + 0) h 0
         sample_pattern_not_z (take 6 sample_text ++ drop 6 sample_text) = Done (ms ++ ms')
    /\ Forall (fun s => Z.of_nat (length (take 6 sample_text))
                        < s + p_length sample_pattern_not_z) ms'.
Proof.
  apply (scan_is_online sample_pattern_not_z (take 6 sample_text) (drop 6 sample_text) 0).
  - exact sample_pattern_not_z_ok.
  - unfold in_memory. simpl. lia.
Defined.

(** X13.  [findTransition] returns the first transition of the state on the
    byte, and nothing exactly when the state has no transition on it. *)
Theorem findTransition_first st c :
  (findTransition st c = None <-> forall t, t ∈ transitions st -> t_ch t <> c)
  /\ forall t, findTransition st c = Some t ->
       exists before after,
         transitions st = before ++ t :: after /\ t_ch t = c
         /\ forall t', t' ∈ before -> t_ch t' <> c.
Proof.
  unfold findTransition. split.
  - rewrite findTransition_in_None. split.
    + intros Hn t Ht Heq. apply Hn. rewrite <- Heq. by apply list_elem_of_fmap_2.
    + intros Hall Hin. apply list_elem_of_fmap in Hin as (t & -> & Ht). by apply (Hall t).
  - induction (transitions st) as [|t0 ts IH]; intros t; simpl; [done|].
    case_bool_decide as Hc.
    + intros [= ->]. exists [], ts. split_and!; [done|done|].
      intros t' Ht'. by apply elem_of_nil in Ht'.
    + intros Hf. destruct (IH t Hf) as (before & after & -> & Ht & Hb).
      exists (t0 :: before), after. split_and!; [done|done|].
      intros t' Ht'. apply elem_of_cons in Ht' as [->|Ht']; [done|by apply Hb].
Qed.

(** X14.  A word that is already a path of the trie is inserted without a
    new state: [extendForest] walks to the state of the word and does what
    [addResult] does there, which adds one match record and no state. *)
Theorem extendForest_shares_existing_paths h root w d idx :
  run h root w = Some d ->
  extendForest h root w idx = addResult h d idx (Z.of_nat (length w))
  /\ forall h', extendForest h root w idx = Done h' ->
       length (states h') = length (states h)
       /\ length (records h') = S (length (records h)).
Proof.
  intros Hrun.
  assert (Heq : extendForest h root w idx = addResult h d idx (Z.of_nat (length w))).
  { unfold extendForest. by rewrite (extendForest_walk_run _ _ _ _ Hrun). }
  split; [done|]. intros h' Hh'. rewrite Heq in Hh'.
  apply addResult_length in Hh' as [? ?]. done.
Qed.

Lemma sample_shared_path :
  let h := {| states := [ {| transitions := [ {| t_ch := "a"%byte; dest := 1%nat |} ];
                            fallback := None; results := None; results_back := BackOwn |};
                          State_new ];
              records := [] |} in
  extendForest h 0 ["a"%byte] 7 = addResult h 1 7 (Z.of_nat (length ["a"%byte]))
  /\ forall h', extendForest h 0 ["a"%byte] 7 = Done h' ->
       length (states h') = length (states h)
       /\ length (records h') = S (length (records h)).
Proof.
  intros h. apply (extendForest_shares_existing_paths h 0%nat ["a"%byte] 1%nat 7).
  reflexivity.
Defined.


(** ** The Knuth-Morris-Pratt search *)

Local Open Scope result_scope.

Lemma int_wrap_small z : - 2 ^ 63 <= z < 2 ^ 63 -> Kmp.int_wrap z = z.
Proof. intros Hz. unfold Kmp.int_wrap. rewrite Z.mod_small; lia. Qed.

Lemma add_small a b : - 2 ^ 63 <= a + b < 2 ^ 63 -> Kmp.add a b = a + b.
Proof. apply int_wrap_small. Qed.

Lemma sub_small a b : - 2 ^ 63 <= a - b < 2 ^ 63 -> Kmp.sub a b = a - b.
Proof. apply int_wrap_small. Qed.

Lemma int_wrap_add_l a b : Kmp.int_wrap (Kmp.int_wrap a + b) = Kmp.int_wrap (a + b).
Proof.
  unfold Kmp.int_wrap. f_equal.
  replace ((a + 2 ^ 63) mod 2 ^ 64 - 2 ^ 63 + b + 2 ^ 63)
    with ((a + 2 ^ 63) mod 2 ^ 64 + b) by lia.
  rewrite Zplus_mod_idemp_l. f_equal. lia.
Qed.

Lemma at_index_Ok {A} (s : list A) (i : nat) x :
  s !! i = Some x -> Kmp.at_index s (Z.of_nat i) = Ok x.
Proof.
  intros Hx. unfold Kmp.at_index. rewrite bool_decide_eq_true_2 by lia.
  by rewrite Nat2Z.id, Hx.
Qed.

Lemma store_Ok {A} (s : list A) (i : nat) x :
  (i < length s)%nat -> Kmp.store s (Z.of_nat i) x = Ok (<[i := x]> s).
Proof.
  intros Hi. unfold Kmp.store, Kmp.len. rewrite bool_decide_eq_true_2 by lia.
  by rewrite Nat2Z.id.
Qed.

(** *** Prefixes of the needle that end a text *)

Lemma pre_suf_0 n t : pre_suf n t 0.
Proof. split; [lia|]. rewrite take_0. apply suffix_nil. Qed.

Lemma pre_suf_snoc n t c k :
  pre_suf n (t ++ [c]) (S k) <-> pre_suf n t k /\ n !! k = Some c.
Proof.
  unfold pre_suf. split.
  - intros [Hk Hs]. destruct (lookup_lt_is_Some_2 n k ltac:(lia)) as [x Hx].
    rewrite (take_S_r _ _ _ Hx) in Hs.
    pose proof (suffix_snoc_inv_1 _ _ _ _ Hs) as ->.
    apply suffix_snoc_inv_2 in Hs. split_and!; [lia|done|done].
  - intros [[Hk Hs] Hx]. split; [apply lookup_lt_Some in Hx; lia|].
    rewrite (take_S_r _ _ _ Hx). by apply suffix_snoc.
Qed.

Lemma pre_suf_length n t k : pre_suf n t k -> (k <= length t)%nat.
Proof.
  intros [Hk Hs]. apply suffix_length in Hs. rewrite length_take in Hs. lia.
Qed.

Lemma suffix_drop_1 {A} (u w : list A) :
  u `suffix_of` w -> (length u < length w)%nat -> u `suffix_of` drop 1 w.
Proof.
  intros [p ->] Hl. rewrite length_app in Hl. destruct p as [|a p]; [simpl in Hl; lia|].
  simpl. rewrite drop_0. by exists p.
Qed.

(** A shorter prefix that ends the text is a proper border of a longer
    one. *)
Lemma pre_suf_border n t i k :
  pre_suf n t i -> pre_suf n t k -> (k < i)%nat -> pre_suf n (drop 1 (take i n)) k.
Proof.
  intros [Hi Hsi] [Hk Hsk] Hlt. split; [done|].
  apply suffix_drop_1.
  - apply (suffix_shorter _ _ t); [done|done|]. rewrite !length_take. lia.
  - rewrite !length_take. lia.
Qed.

Lemma border_pre_suf n t i b :
  pre_suf n t i -> pre_suf n (drop 1 (take i n)) b -> pre_suf n t b.
Proof.
  intros [Hi Hsi] [Hb Hsb]. split; [done|].
  etrans; [exact Hsb|]. etrans; [apply suffix_drop|done].
Qed.

Lemma border_len_lt n j b : (1 <= j)%nat -> border_len n j b -> (b < j)%nat.
Proof.
  intros Hj [Hp _]. apply pre_suf_length in Hp. rewrite length_drop, length_take in Hp. lia.
Qed.

Lemma lsp_unique n t k1 k2 : lsp n t k1 -> lsp n t k2 -> k1 = k2.
Proof.
  intros [H1 M1] [H2 M2]. specialize (M1 _ H2). specialize (M2 _ H1). lia.
Qed.

Lemma pi_ok_mono n np m m' : (m' <= m)%nat -> pi_ok n np m -> pi_ok n np m'.
Proof. intros Hle Hpi j Hj. apply Hpi. lia. Qed.

(** *** [prefixAt] *)

Lemma prefixAt_spec n np c t :
  Z.of_nat (length n) < 2 ^ 62 ->
  forall fuel i,
    pre_suf n t i ->
    (forall k, pre_suf n t k -> n !! k = Some c -> (k <= i)%nat) ->
    pi_ok n np i -> (i < fuel)%nat ->
    exists r, Kmp.prefixAt fuel n np c (Z.of_nat i) = Ok (Z.of_nat r)
              /\ lsp n (t ++ [c]) r.
Proof.
  intros Hsmall. induction fuel as [|fuel IH]; intros i Hi Hmax Hpi Hfuel; [lia|].
  pose proof Hi as [Hin _].
  cbn [Kmp.prefixAt].
  destruct (decide (n !! i = Some c)) as [Hhit|Hno].
  - (* the next byte of the needle is the byte read *)
    exists (S i). split.
    + unfold Kmp.len. rewrite bool_decide_eq_true_2 by (apply lookup_lt_Some in Hhit; lia).
      rewrite (at_index_Ok _ _ _ Hhit). cbn [rbind].
      rewrite bool_decide_eq_true_2 by done. rewrite add_small by lia. f_equal. lia.
    + split; [by apply pre_suf_snoc|].
      intros [|k] Hk; [lia|]. apply pre_suf_snoc in Hk as [Hk Hc].
      specialize (Hmax k Hk Hc). lia.
  - assert (Hmiss : (if bool_decide (Z.of_nat i < Kmp.len n)
                     then x <- Kmp.at_index n (Z.of_nat i) ;; Ok (bool_decide (c = x))
                     else Ok false) = Ok false).
    { unfold Kmp.len. case_bool_decide as Hlt; [|done].
      destruct (lookup_lt_is_Some_2 n i ltac:(lia)) as [x Hx].
      rewrite (at_index_Ok _ _ _ Hx). cbn [rbind].
      rewrite bool_decide_eq_false_2; [done|]. intros ->. done. }
    rewrite Hmiss. cbn [rbind].
    assert (Hlt : forall k, pre_suf n t k -> n !! k = Some c -> (k < i)%nat).
    { intros k Hk Hc. specialize (Hmax k Hk Hc).
      destruct (decide (k = i)) as [->|]; [done|lia]. }
    destruct (decide (i = 0%nat)) as [->|Hpos].
    + (* nothing is matched *)
      exists 0%nat. split; [done|]. split; [apply pre_suf_0|].
      intros [|k] Hk; [lia|]. apply pre_suf_snoc in Hk as [Hk Hc].
      specialize (Hlt k Hk Hc). lia.
    + (* fall back to the longest border *)
      rewrite bool_decide_eq_false_2 by lia.
      destruct (Hpi i ltac:(lia)) as (b & Hb & Hbl).
      pose proof (border_len_lt n i b ltac:(lia) Hbl) as Hbi.
      rewrite sub_small by lia.
      replace (Z.of_nat i - 1) with (Z.of_nat (i - 1)) by lia.
      rewrite (at_index_Ok _ _ _ Hb). cbn [rbind].
      destruct Hbl as [Hbp Hbmax].
      apply (IH b).
      * by eapply border_pre_suf.
      * intros k Hk Hc. apply Hbmax. apply (pre_suf_border n t i k Hi Hk). by apply Hlt.
      * apply (pi_ok_mono n np i); [lia|done].
      * lia.
Qed.

(** *** [prefix] *)

Lemma prefix_loop_spec s fuel :
  Z.of_nat (length s) < 2 ^ 62 -> (length s < fuel)%nat ->
  forall d m pre,
    (1 <= m)%nat -> (m + d = length s)%nat -> length pre = length s -> pi_ok s pre m ->
    exists pre', Kmp.prefix_loop fuel s pre (seqZ (Z.of_nat m) (Z.of_nat d)) = Ok pre'
                 /\ length pre' = length s /\ pi_ok s pre' (length s).
Proof.
  intros Hsmall Hfuel. induction d as [|d IH]; intros m pre Hm Hmd Hlen Hpi.
  - exists pre. rewrite seqZ_nil by lia. split_and!; [done|done|].
    by replace (length s) with m by lia.
  - rewrite seqZ_cons by lia. cbn [Kmp.prefix_loop].
    destruct (Hpi m ltac:(lia)) as (b & Hb & Hbl).
    pose proof (border_len_lt s m b Hm Hbl) as Hbm.
    rewrite sub_small by lia.
    replace (Z.of_nat m - 1) with (Z.of_nat (m - 1)) by lia.
    rewrite (at_index_Ok _ _ _ Hb). cbn [rbind].
    destruct (lookup_lt_is_Some_2 s m ltac:(lia)) as [c Hc].
    rewrite (at_index_Ok _ _ _ Hc). cbn [rbind].
    destruct (prefixAt_spec s pre c (drop 1 (take m s)) Hsmall fuel b) as (r & Hr & Hlsp).
    + apply Hbl.
    + intros k Hk _. by apply Hbl.
    + apply (pi_ok_mono s pre m); [lia|done].
    + lia.
    + rewrite Hr. cbn [rbind]. rewrite store_Ok by lia. cbn [rbind].
      replace (Z.succ (Z.of_nat m)) with (Z.of_nat (S m)) by lia.
      replace (Z.pred (Z.of_nat (S d))) with (Z.of_nat d) by lia.
      apply IH; [lia|lia|by rewrite length_insert|].
      intros j Hj. destruct (decide (j = S m)) as [->|Hne].
      * exists r. split.
        -- replace (S m - 1)%nat with m by lia. apply list_lookup_insert_eq. lia.
        -- unfold border_len. rewrite (take_S_r _ _ _ Hc).
           rewrite drop_app_le by (rewrite length_take; lia). done.
      * destruct (Hpi j ltac:(lia)) as (b' & Hb' & Hbl'). exists b'. split; [|done].
        rewrite list_lookup_insert_ne by lia. done.
Qed.

Lemma prefix_spec s fuel :
  s <> [] -> Z.of_nat (length s) < 2 ^ 62 -> (length s < fuel)%nat ->
  exists pre, Kmp.prefix fuel s = Ok pre /\ length pre = length s
              /\ pi_ok s pre (length s).
Proof.
  intros Hne Hsmall Hfuel. unfold Kmp.prefix, Kmp.len.
  assert (Hpos : (0 < length s)%nat) by (destruct s; [done|simpl; lia]).
  rewrite bool_decide_eq_false_2 by lia.
  rewrite (store_Ok _ 0) by (rewrite length_replicate; lia). cbn [rbind].
  replace (Z.of_nat (length s) - 1) with (Z.of_nat (length s - 1)) by lia.
  apply (prefix_loop_spec s fuel Hsmall Hfuel (length s - 1) 1); [lia|lia| |].
  - by rewrite length_insert, length_replicate.
  - intros j Hj. assert (j = 1%nat) as -> by lia. exists 0%nat. split.
    + simpl. destruct (length s); [lia|done].
    + split; [apply pre_suf_0|]. intros k' Hk'. apply pre_suf_length in Hk'.
      rewrite length_drop, length_take in Hk'. lia.
Qed.

(** *** [findMatches] *)

Lemma lsp_full n t p : lsp n t p -> (p = length n <-> n `suffix_of` t).
Proof.
  intros [[Hp Hs] Hmax]. split.
  - intros ->. by rewrite take_ge in Hs by lia.
  - intros Hn. assert (pre_suf n t (length n)) as Hfull.
    { split; [lia|]. by rewrite take_ge by lia. }
    specialize (Hmax _ Hfull). lia.
Qed.

Lemma found_in_snoc haystack needle (q : Z) :
  0 <= q ->
  found_in haystack needle 0 (q + 1)
  = found_in haystack needle 0 q
    ++ (if stands_at haystack q needle then [q] else []).
Proof.
  intros Hq. unfold found_in. rewrite seqZ_app by lia. rewrite filter_app. f_equal.
Qed.

Lemma findMatches_loop_spec needle np fuel hay offset :
  (length needle < fuel)%nat -> pi_ok needle np (length needle) ->
  Z.of_nat (length needle) < 2 ^ 62 ->
  0 <= offset -> offset + Z.of_nat (length hay) < 2 ^ 62 ->
  forall rest seen p,
    hay = seen ++ rest -> lsp needle seen p ->
    exists p',
      Kmp.findMatches_loop fuel rest needle np offset (Z.of_nat (length seen))
        (Z.add offset
           <$> found_in hay needle 0 (Z.of_nat (length seen) - Z.of_nat (length needle) + 1))
        (Z.of_nat p)
      = Ok (Z.add offset
              <$> found_in hay needle 0 (Z.of_nat (length hay) - Z.of_nat (length needle) + 1),
            Z.of_nat p')
      /\ lsp needle hay p'.
Proof.
  intros Hfuel Hpi Hsmall Hoff Hlen.
  induction rest as [|c rest IH]; intros seen p Hhay Hp.
  - rewrite app_nil_r in Hhay. subst seen. exists p. done.
  - cbn [Kmp.findMatches_loop].
    pose proof Hp as [Hpp Hpmax]. pose proof Hpp as [Hple _].
    destruct (prefixAt_spec needle np c seen Hsmall fuel p Hpp) as (r & Hr & Hlsp).
    { intros k Hk _. by apply Hpmax. }
    { apply (pi_ok_mono needle np (length needle)); [lia|done]. }
    { lia. }
    rewrite Hr. cbn [rbind].
    assert (Hlh : length hay = (length seen + S (length rest))%nat).
    { rewrite Hhay, length_app. done. }
    rewrite (add_small (Z.of_nat (length seen)) 1) by lia.
    replace (Z.of_nat (length seen) + 1) with (Z.of_nat (length (seen ++ [c])))
      by (rewrite length_app; simpl; lia).
    set (q := Z.of_nat (length (seen ++ [c])) - Z.of_nat (length needle)).
    assert (Hq : q = Z.of_nat (length seen) - Z.of_nat (length needle) + 1).
    { subst q. rewrite length_app. simpl. lia. }
    assert (Hms : (if bool_decide (Z.of_nat r = Kmp.len needle)
                   then (Z.add offset <$> found_in hay needle 0
                           (Z.of_nat (length seen) - Z.of_nat (length needle) + 1))
                        ++ [Kmp.add (Kmp.sub (Kmp.add offset (Z.of_nat (length seen)))
                                       (Kmp.len needle)) 1]
                   else Z.add offset <$> found_in hay needle 0
                          (Z.of_nat (length seen) - Z.of_nat (length needle) + 1))
                  = Z.add offset <$> found_in hay needle 0 (q + 1)).
    { pose proof (lsp_full _ _ _ Hlsp) as Hfull. unfold Kmp.len.
      destruct (decide (0 <= q)) as [Hq0|Hq0].
      - rewrite (found_in_snoc _ _ q Hq0), fmap_app, <- Hq.
        assert (Hat : at_pos hay q needle <-> needle `suffix_of` seen ++ [c]).
        { rewrite <- (suffix_take_at_pos hay needle q) by lia.
          replace (Z.to_nat (q + Z.of_nat (length needle))) with (length (seen ++ [c]))
            by lia.
          rewrite Hhay. rewrite (cons_middle c seen rest), app_assoc.
          by rewrite take_app_length. }
        case_bool_decide as Hrn.
        + destruct (stands_at hay q needle) as [_|Hn]; [|exfalso; apply Hn, Hat, Hfull; lia].
          f_equal. simpl. f_equal.
          rewrite (add_small offset) by lia. rewrite sub_small by lia.
          rewrite add_small by lia. lia.
        + destruct (stands_at hay q needle) as [Ha|_]; [|by rewrite app_nil_r].
          exfalso. apply Hrn. apply Hat, Hfull in Ha. lia.
      - assert (Hnot : Z.of_nat r <> Z.of_nat (length needle)).
        { intros Heq. assert (r = length needle) as Hrn by lia.
          apply Hfull in Hrn. apply suffix_length in Hrn. lia. }
        rewrite bool_decide_eq_false_2 by done.
        unfold found_in. rewrite !seqZ_nil by lia. done. }
    rewrite Hms. replace (q + 1)
      with (Z.of_nat (length (seen ++ [c])) - Z.of_nat (length needle) + 1) by lia.
    apply IH; [|done]. by rewrite <- app_assoc.
Qed.

Lemma naive_search_found needle hay :
  needle <> [] ->
  naive_search needle hay 0
  = found_in hay needle 0 (Z.of_nat (length hay) - Z.of_nat (length needle) + 1).
Proof.
  intros Hne. pose proof (naive_search_occurrences needle [] hay Hne) as Heq.
  change (Z.of_nat (length (@nil byte))) with 0 in Heq. rewrite app_nil_l in Heq.
  rewrite Heq.
  unfold found_in. apply filter_ext_elem. intros q Hq. apply elem_of_seqZ in Hq.
  unfold occurrence, part_at. simpl. rewrite Forall_singleton. simpl.
  rewrite Z.add_0_r. split.
  - by intros (_ & _ & ? & _).
  - intros Hat. split_and!; [lia|lia|done|constructor].
Qed.

Lemma naive_search_shift needle hay (a b : Z) :
  naive_search needle hay (a + b) = Z.add a <$> naive_search needle hay b.
Proof.
  revert b. induction hay as [|c hay IH]; intros b; [done|].
  cbn [naive_search]. rewrite fmap_app. f_equal.
  - by destruct (starts_with needle (c :: hay)).
  - rewrite <- IH. f_equal. lia.
Qed.

(** One call of [findMatches] from the start of a text. *)
Lemma findMatches_spec needle np fuel hay offset :
  needle <> [] -> (length needle < fuel)%nat -> pi_ok needle np (length needle) ->
  Z.of_nat (length needle) < 2 ^ 62 ->
  0 <= offset -> offset + Z.of_nat (length hay) < 2 ^ 62 ->
  exists p', Kmp.findMatches fuel hay needle np 0 offset
             = Ok (naive_search needle hay offset, Z.of_nat p')
             /\ lsp needle hay p'.
Proof.
  intros Hne Hfuel Hpi Hsmall Hoff Hlen. unfold Kmp.findMatches.
  destruct (findMatches_loop_spec needle np fuel hay offset Hfuel Hpi Hsmall Hoff Hlen
              hay [] 0%nat eq_refl) as (p' & Hrun & Hp').
  { split; [apply pre_suf_0|]. intros k' Hk'. apply pre_suf_length in Hk'. simpl in Hk'. lia. }
  exists p'. split; [|done].
  assert (Hempty : found_in hay needle 0 (0 - Z.of_nat (length needle) + 1) = []).
  { unfold found_in. rewrite seqZ_nil; [done|]. destruct needle; [done|simpl; lia]. }
  change (Z.of_nat (length (@nil byte))) with 0 in Hrun. rewrite Hempty in Hrun.
  change (Z.of_nat 0) with 0 in Hrun. change (Z.add offset <$> []) with (@nil Z) in Hrun.
  rewrite Hrun. do 2 f_equal.
  replace offset with (offset + 0) at 2 by lia.
  by rewrite naive_search_shift, naive_search_found.
Qed.

(** *** Chaining calls of [findMatches] *)

Lemma int_wrap_add_r a b : Kmp.int_wrap (a + Kmp.int_wrap b) = Kmp.int_wrap (a + b).
Proof. rewrite Z.add_comm, int_wrap_add_l. f_equal. lia. Qed.

Lemma int_wrap_idemp a : Kmp.int_wrap (Kmp.int_wrap a) = Kmp.int_wrap a.
Proof.
  replace (Kmp.int_wrap a) with (Kmp.int_wrap a + 0) at 1 by lia.
  rewrite int_wrap_add_l. f_equal. lia.
Qed.

Lemma findMatches_loop_acc fuel rest needle np offset : forall i ms prev,
  Kmp.findMatches_loop fuel rest needle np offset i ms prev
  = (r <- Kmp.findMatches_loop fuel rest needle np offset i [] prev ;;
     Ok (ms ++ r.1, r.2)).
Proof.
  induction rest as [|c rest IH]; intros i ms prev.
  - simpl. by rewrite app_nil_r.
  - cbn [Kmp.findMatches_loop].
    destruct (Kmp.prefixAt fuel needle np c prev) as [prev1|e]; [|done]. cbn [rbind].
    rewrite IH. rewrite (IH _ (if bool_decide (prev1 = Kmp.len needle) then [] ++ _ else [])).
    destruct (Kmp.findMatches_loop fuel rest needle np offset (Kmp.add i 1) [] prev1)
      as [[m p]|e]; [|done].
    cbn [rbind fst snd]. case_bool_decide; simpl; by rewrite <- ?app_assoc.
Qed.

Lemma findMatches_loop_shift fuel rest needle np offset a : forall i ms prev,
  Kmp.findMatches_loop fuel rest needle np offset (Kmp.int_wrap (a + i)) ms prev
  = Kmp.findMatches_loop fuel rest needle np (Kmp.add offset a) (Kmp.int_wrap i) ms prev.
Proof.
  induction rest as [|c rest IH]; intros i ms prev; [done|].
  cbn [Kmp.findMatches_loop].
  destruct (Kmp.prefixAt fuel needle np c prev) as [prev1|e]; [|done]. cbn [rbind].
  assert (Hidx : Kmp.add offset (Kmp.int_wrap (a + i))
                 = Kmp.add (Kmp.add offset a) (Kmp.int_wrap i)).
  { unfold Kmp.add. rewrite int_wrap_add_r, int_wrap_add_l, int_wrap_add_r. f_equal. lia. }
  rewrite Hidx.
  assert (Hnext : Kmp.add (Kmp.int_wrap (a + i)) 1 = Kmp.int_wrap (a + (i + 1))).
  { unfold Kmp.add. rewrite int_wrap_add_l. f_equal. lia. }
  assert (Hnext' : Kmp.add (Kmp.int_wrap i) 1 = Kmp.int_wrap (i + 1)).
  { unfold Kmp.add. by rewrite int_wrap_add_l. }
  rewrite Hnext, Hnext'. apply IH.
Qed.

Lemma findMatches_loop_app fuel h1 h2 needle np offset : forall i ms prev,
  Kmp.findMatches_loop fuel (h1 ++ h2) needle np offset (Kmp.int_wrap i) ms prev
  = (r1 <- Kmp.findMatches_loop fuel h1 needle np offset (Kmp.int_wrap i) ms prev ;;
     Kmp.findMatches_loop fuel h2 needle np offset
       (Kmp.int_wrap (i + Z.of_nat (length h1))) r1.1 r1.2).
Proof.
  induction h1 as [|c h1 IH]; intros i ms prev.
  - simpl. by rewrite Z.add_0_r.
  - cbn [Kmp.findMatches_loop app].
    destruct (Kmp.prefixAt fuel needle np c prev) as [prev1|e]; [|done]. cbn [rbind].
    assert (Hnext : Kmp.add (Kmp.int_wrap i) 1 = Kmp.int_wrap (i + 1)).
    { unfold Kmp.add. by rewrite int_wrap_add_l. }
    rewrite Hnext, IH.
    replace (i + 1 + Z.of_nat (length h1)) with (i + Z.of_nat (length (c :: h1)))
      by (simpl length; lia).
    done.
Qed.

(** *** [splitKmpWork] *)

Lemma split_loop_acc todo rm pre : forall off ml acc,
  Kmp.split_loop todo rm pre off ml acc = acc ++ Kmp.split_loop todo rm pre off ml [].
Proof.
  induction todo as [|i todo IH]; intros off ml acc; simpl.
  - by rewrite app_nil_r.
  - rewrite IH. rewrite (IH _ _ [_]). by rewrite <- app_assoc.
Qed.

Lemma split_loop_tiles q r pre n :
  0 <= r < n -> 1 <= q -> 0 <= pre -> n * q + r + pre < 2 ^ 62 ->
  forall d i off ml,
    0 <= i -> i + Z.of_nat d = n ->
    (i <= r -> ml = q + 1 /\ off = i * (q + 1)) ->
    (r < i -> ml = q /\ off = i * q + r) ->
    let ranges := Kmp.split_loop (seqZ i (Z.of_nat d)) r pre off ml [] in
    tiles pre ranges off (n * q + r) /\ length ranges = d
    /\ Forall (fun rg => q <= Kmp.rg_length rg - pre <= q + 1) ranges.
Proof.
  intros Hr Hq Hpre Hsmall. assert (Hqb : q < 2 ^ 62) by nia.
  induction d as [|d IH]; intros i off ml Hi Hid Hlow Hhigh.
  - rewrite seqZ_nil by lia. simpl. split_and!; [|done|constructor].
    destruct (Hhigh ltac:(lia)) as [-> ->]. lia.
  - rewrite seqZ_cons by lia. cbn [Kmp.split_loop]. rewrite split_loop_acc.
    set (ml1 := if bool_decide (i = r) then Kmp.sub ml 1 else ml).
    assert (Hml1 : ml1 = (if decide (i < r) then q + 1 else q)
                   /\ off + ml1 = (if decide (i < r) then (i + 1) * (q + 1)
                                   else (i + 1) * q + r)
                   /\ 0 <= off /\ off + ml1 <= n * q + r).
    { subst ml1. destruct (decide (i < r)) as [Hlt|Hge].
      - destruct (Hlow ltac:(lia)) as [-> ->]. rewrite bool_decide_eq_false_2 by lia.
        split_and!; [done|lia|nia|nia].
      - destruct (decide (i = r)) as [->|Hne].
        + destruct (Hlow ltac:(lia)) as [-> ->]. rewrite bool_decide_eq_true_2 by done.
          rewrite sub_small by lia. split_and!; [lia|lia|nia|nia].
        + destruct (Hhigh ltac:(lia)) as [-> ->]. rewrite bool_decide_eq_false_2 by done.
          split_and!; [done|lia|nia|nia]. }
    destruct Hml1 as (Hml1 & Hoff1 & Hoff0 & Hoffle). clearbody ml1.
    assert (Hmlq : q <= ml1 <= q + 1) by (destruct (decide (i < r)); lia).
    rewrite (add_small off ml1) by lia. rewrite (add_small ml1 pre) by lia.
    replace (Z.pred (Z.of_nat (S d))) with (Z.of_nat d) by lia.
    destruct (IH (Z.succ i) (off + ml1) ml1) as (Ht & Hl & Hb); [lia|lia| | |].
    + intros Hle. rewrite decide_True in Hml1, Hoff1 by lia. split; [done|]. rewrite Hoff1. lia.
    + intros Hlt. rewrite decide_False in Hml1, Hoff1 by lia. split; [done|]. rewrite Hoff1. lia.
    + cbn zeta. simpl. split_and!.
      * done.
      * lia.
      * replace (off + (ml1 + pre - pre)) with (off + ml1) by lia. exact Ht.
      * by rewrite Hl.
      * constructor; [simpl; lia|done].
Qed.

Lemma splitKmpWork_spec len_s len_substr n_ranges :
  1 <= len_substr -> len_substr <= len_s -> len_s < 2 ^ 62 ->
  1 <= n_ranges -> n_ranges < 2 ^ 62 ->
  exists ranges q,
    Kmp.splitKmpWork len_s len_substr n_ranges = Ok ranges
    /\ Z.of_nat (length ranges) = Z.min n_ranges (len_s - len_substr + 1)
    /\ tiles (len_substr - 1) ranges 0 (len_s - len_substr + 1)
    /\ Forall (fun rg => q <= Kmp.rg_length rg - (len_substr - 1) <= q + 1) ranges.
Proof.
  intros Hsub Hle Hsmall Hn Hnsmall.
  set (pre := len_substr - 1). set (area := len_s - pre).
  set (n := Z.min n_ranges (len_s - len_substr + 1)).
  assert (Hn1 : 1 <= n <= area) by (subst n area pre; lia).
  pose proof (Z.quot_rem' area n) as Hqr.
  pose proof (Z.rem_bound_pos area n ltac:(lia) ltac:(lia)) as Hrb.
  set (q := Z.quot area n) in *. set (r := Z.rem area n) in *.
  assert (Hq1 : 1 <= q) by nia.
  assert (Hqs : q <= area) by nia.
  assert (Hrun : Kmp.splitKmpWork len_s len_substr n_ranges
                 = Ok (Kmp.split_loop (seqZ 0 n) r pre 0 (q + 1) [])).
  { unfold Kmp.splitKmpWork.
    rewrite (sub_small len_substr 1) by lia. fold pre. rewrite sub_small by (subst pre; lia).
    fold area.
    assert ((if bool_decide (n_ranges > area) then area else n_ranges) = n) as ->.
    { subst n area pre. case_bool_decide; lia. }
    unfold Kmp.div, Kmp.rem. rewrite !bool_decide_eq_false_2 by lia. cbn [rbind].
    fold q r. rewrite (int_wrap_small q) by (subst area pre; lia).
    rewrite add_small by (subst area pre; lia). done. }
  destruct (split_loop_tiles q r pre n ltac:(lia) Hq1 ltac:(subst pre; lia)
              ltac:(subst area pre; nia) (Z.to_nat n) 0 0 (q + 1))
    as (Ht & Hl & Hb); [lia|lia| | |].
  - intros _. split; [done|lia].
  - intros Hlt. lia.
  - rewrite Z2Nat.id in Ht, Hl, Hb by lia.
    exists (Kmp.split_loop (seqZ 0 n) r pre 0 (q + 1) []), q. split_and!; [done| | |done].
    + rewrite Hl. lia.
    + replace (len_s - len_substr + 1) with (n * q + r) by (subst area pre; lia). exact Ht.
Qed.

(** *** The pieces of the haystack *)

Lemma tiles_le pre ranges start stop : tiles pre ranges start stop -> start <= stop.
Proof.
  revert start. induction ranges as [|r rs IH]; intros start; simpl.
  - lia.
  - intros (_ & Hlt & Ht). apply IH in Ht. lia.
Qed.

Lemma at_pos_piece (hay : list byte) (off len q : nat) (w : list byte) :
  (q + length w <= len)%nat ->
  at_pos (take len (drop off hay)) (Z.of_nat q) w
  <-> at_pos hay (Z.of_nat (off + q)) w.
Proof.
  intros Hq. unfold at_pos. rewrite !Nat2Z.id.
  rewrite skipn_firstn_comm, take_take, drop_drop.
  rewrite Nat.min_l by lia. split; intros [_ H]; (split; [lia|done]).
Qed.

Lemma filter_shift (P Q : Z -> Prop) (decP : forall q, Decision (P q))
    (decQ : forall q, Decision (Q q)) (a : Z) (l : list Z) :
  (forall q, q ∈ l -> (P q <-> Q (a + q))) ->
  Z.add a <$> @filter _ _ list_filter P decP l
  = @filter _ _ list_filter Q decQ (Z.add a <$> l).
Proof.
  induction l as [|q l IH]; intros Hiff; [done|].
  assert (IH' : Z.add a <$> @filter _ _ list_filter P decP l
                = @filter _ _ list_filter Q decQ (Z.add a <$> l)).
  { apply IH. intros x Hx. apply Hiff. by right. }
  specialize (Hiff q ltac:(left)). csimpl.
  destruct (decide (P q)) as [HP|HP].
  - rewrite (filter_cons_True P) by done. rewrite (filter_cons_True Q) by (by apply Hiff).
    csimpl. by rewrite IH'.
  - rewrite (filter_cons_False P) by done.
    rewrite (filter_cons_False Q) by (by rewrite <- Hiff). done.
Qed.

Lemma found_in_piece (hay needle : list byte) (off len : nat) (ml : Z) :
  0 <= ml -> ml + Z.of_nat (length needle) - 1 <= Z.of_nat len ->
  Z.add (Z.of_nat off) <$> found_in (take len (drop off hay)) needle 0 ml
  = found_in hay needle (Z.of_nat off) ml.
Proof.
  intros Hml Hlen. unfold found_in.
  replace (seqZ (Z.of_nat off) ml) with (Z.add (Z.of_nat off) <$> seqZ 0 ml)
    by (rewrite fmap_add_seqZ; f_equal; lia).
  apply filter_shift. intros q Hq. apply elem_of_seqZ in Hq.
  replace q with (Z.of_nat (Z.to_nat q)) by lia.
  rewrite <- Nat2Z.inj_add. apply at_pos_piece. lia.
Qed.

Lemma found_in_app hay needle (a n1 n2 : Z) :
  0 <= n1 -> 0 <= n2 ->
  found_in hay needle a (n1 + n2)
  = found_in hay needle a n1 ++ found_in hay needle (a + n1) n2.
Proof.
  intros H1 H2. unfold found_in. by rewrite seqZ_app, filter_app by done.
Qed.

Lemma search_ranges_spec fuel hay needle np :
  needle <> [] -> (length needle < fuel)%nat -> pi_ok needle np (length needle) ->
  Z.of_nat (length hay) < 2 ^ 62 ->
  forall ranges start,
    0 <= start ->
    tiles (Z.of_nat (length needle) - 1) ranges start
      (Z.of_nat (length hay) - Z.of_nat (length needle) + 1) ->
    exists mats,
      Kmp.search_ranges fuel hay needle np ranges = Ok mats
      /\ length mats = length ranges
      /\ mjoin mats
         = found_in hay needle start
             (Z.of_nat (length hay) - Z.of_nat (length needle) + 1 - start).
Proof.
  intros Hne Hfuel Hpi Hsmall.
  assert (Hnpos : 0 < Z.of_nat (length needle)) by (destruct needle; [done|simpl; lia]).
  induction ranges as [|rg ranges IH]; intros start Hstart Ht.
  - simpl in Ht. exists []. split_and!; [done|done|]. simpl.
    unfold found_in. by rewrite seqZ_nil by lia.
  - destruct Ht as (Hoff & Hlen & Ht). pose proof (tiles_le _ _ _ _ Ht) as Hle.
    set (L := Kmp.rg_length rg) in *.
    set (ml := L - (Z.of_nat (length needle) - 1)) in *.
    cbn [Kmp.search_ranges]. rewrite Hoff. fold L.
    rewrite (add_small start L) by lia.
    assert (Hslice : Kmp.slice hay start (start + L)
                     = Ok (take (Z.to_nat L) (drop (Z.to_nat start) hay))).
    { unfold Kmp.slice, Kmp.len. rewrite bool_decide_eq_true_2 by lia.
      do 2 f_equal. lia. }
    rewrite Hslice. cbn [rbind].
    set (piece := take (Z.to_nat L) (drop (Z.to_nat start) hay)).
    assert (Hpl : length piece = Z.to_nat L).
    { subst piece. rewrite length_take, length_drop. lia. }
    destruct (findMatches_spec needle np fuel piece start Hne Hfuel Hpi ltac:(lia) Hstart)
      as (p' & Hfm & _); [lia|].
    rewrite Hfm. cbn [rbind fst].
    destruct (IH (start + ml) ltac:(lia) Ht) as (mats & Hrun & Hlm & Hjoin).
    rewrite Hrun. cbn [rbind].
    exists (naive_search needle piece start :: mats). split_and!; [done|simpl; lia|].
    simpl. rewrite Hjoin.
    replace (Z.of_nat (length hay) - Z.of_nat (length needle) + 1 - start)
      with (ml + (Z.of_nat (length hay) - Z.of_nat (length needle) + 1 - (start + ml)))
      by lia.
    rewrite found_in_app by lia. f_equal.
    replace start with (start + 0) at 1 by lia.
    rewrite naive_search_shift, naive_search_found by done.
    rewrite Hpl. replace (Z.of_nat (Z.to_nat L) - Z.of_nat (length needle) + 1) with ml by lia.
    subst piece. replace start with (Z.of_nat (Z.to_nat start)) at 1 3 by lia.
    apply found_in_piece; lia.
Qed.

(** *** The results of the goroutines *)

Lemma results_lookup (mats : list (list Z)) (order : list nat) : forall res j,
  length res = length mats ->
  foldl (fun res idx => <[idx := default [] (mats !! idx)]> res) res order !! j
  = if bool_decide (j ∈ order) then mats !! j else res !! j.
Proof.
  induction order as [|i order IH]; intros res j Hlen; cbn [foldl].
  - rewrite bool_decide_eq_false_2; [done|]. apply not_elem_of_nil.
  - rewrite IH by (by rewrite length_insert).
    destruct (decide (j ∈ order)) as [Hin|Hnin].
    + rewrite !bool_decide_eq_true_2; [done|by right|done].
    + rewrite (bool_decide_eq_false_2 (j ∈ order)) by done.
      destruct (decide (j = i)) as [->|Hne].
      * rewrite bool_decide_eq_true_2 by left.
        destruct (mats !! i) as [x|] eqn:Hx; simpl.
        -- apply list_lookup_insert_eq. rewrite Hlen. by eapply lookup_lt_Some.
        -- apply lookup_ge_None in Hx. apply lookup_ge_None. rewrite length_insert. lia.
      * rewrite bool_decide_eq_false_2
          by (intros Hin; apply elem_of_cons in Hin as [?|?]; done).
        by rewrite list_lookup_insert_ne.
Qed.

Lemma results_in_order (mats : list (list Z)) (order : list nat) :
  order ≡ₚ seq 0 (length mats) ->
  foldl (fun res idx => <[idx := default [] (mats !! idx)]> res)
        (replicate (length mats) []) order
  = mats.
Proof.
  intros Hperm. apply list_eq. intros j.
  rewrite results_lookup by (by rewrite length_replicate).
  case_bool_decide as Hnin; [done|].
  assert (Hj : (length mats <= j)%nat).
  { destruct (decide (j < length mats)%nat) as [Hlt|]; [|lia].
    exfalso. apply Hnin. rewrite Hperm. apply elem_of_seq. lia. }
  rewrite (lookup_ge_None_2 mats) by done.
  apply lookup_ge_None. by rewrite length_replicate.
Qed.

Lemma tiles_inside pre ranges start stop :
  tiles pre ranges start stop ->
  Forall (fun rg => start <= Kmp.rg_offset rg
                    /\ Kmp.rg_offset rg + Kmp.rg_length rg <= stop + pre) ranges.
Proof.
  revert start. induction ranges as [|r rs IH]; intros start; simpl; [constructor|].
  intros (Hoff & Hlt & Ht). pose proof (tiles_le _ _ _ _ Ht) as Hle. constructor.
  - lia.
  - eapply Forall_impl; [apply (IH _ Ht)|]. simpl. intros rg. lia.
Qed.

(** The empty needle. *)
Lemma findMatches_loop_empty fuel np offset : forall rest i ms,
  0 <= offset -> 0 <= i -> offset + i + Z.of_nat (length rest) < 2 ^ 62 ->
  Kmp.findMatches_loop (S fuel) rest [] np offset i ms 0
  = Ok (ms ++ seqZ (offset + i + 1) (Z.of_nat (length rest)), 0).
Proof.
  induction rest as [|c rest IH]; intros i ms Hoff Hi Hlen.
  - simpl. by rewrite app_nil_r.
  - cbn [Kmp.findMatches_loop Kmp.prefixAt]. unfold Kmp.len. simpl length.
    rewrite (bool_decide_eq_false_2 (0 < Z.of_nat 0)) by lia. cbn [rbind].
    rewrite (bool_decide_eq_true_2 (0 = 0)) by done. cbn [rbind].
    rewrite (bool_decide_eq_true_2 (0 = Z.of_nat 0)) by done.
    simpl length in Hlen. change (Z.of_nat 0) with 0.
    rewrite (add_small offset i) by lia. rewrite sub_small by lia.
    rewrite !add_small by lia.
    rewrite IH by lia. rewrite <- app_assoc. do 2 f_equal.
    rewrite (seqZ_cons (offset + i + 1)) by lia.
    replace (offset + i - 0 + 1) with (offset + i + 1) by lia.
    replace (offset + (i + 1) + 1) with (Z.succ (offset + i + 1)) by lia.
    repeat f_equal. lia.
Qed.


(** *** Properties of the Knuth-Morris-Pratt search *)

Lemma suffix_drop_eq {A} (w x : list A) :
  w `suffix_of` x <-> (length w <= length x)%nat /\ w = drop (length x - length w) x.
Proof.
  split.
  - intros [p ->]. rewrite length_app. split; [lia|].
    replace (length p + length w - length w)%nat with (length p) by lia.
    by rewrite drop_app_length.
  - intros [Hl ->]. apply suffix_drop.
Qed.

Lemma border_pre_suf_iff (s : list byte) (j b : nat) :
  (j < length s)%nat ->
  pre_suf s (drop 1 (take (S j) s)) b <-> border (take (S j) s) b.
Proof.
  intros Hj. unfold pre_suf, border. rewrite suffix_drop_eq.
  rewrite !length_drop, !length_take, drop_drop, take_take.
  replace (S j `min` length s)%nat with (S j) by lia. split.
  - intros (Hb & Hl & Heq). rewrite Nat.min_l in Hl by lia. split; [lia|].
    rewrite Nat.min_l by lia. rewrite Heq at 1. f_equal. lia.
  - intros (Hb & Heq). rewrite Nat.min_l in Heq by lia. split; [lia|].
    rewrite Nat.min_l by lia. split; [lia|]. rewrite Heq at 1. f_equal. lia.
Qed.

(** X15.  [prefix] computes the prefix function: for a string that is not
    empty it returns a slice of the same length whose entry [j] is the length
    of the longest proper border of the first [j + 1] bytes. *)
Theorem prefix_computes_the_longest_borders s k :
  s <> [] -> Z.of_nat (length s) < 2 ^ 62 ->
  exists pre,
    Kmp.prefix (S (length s) + k) s = Ok pre /\ length pre = length s
    /\ forall j, (j < length s)%nat ->
         exists b, pre !! j = Some (Z.of_nat b)
                   /\ border (take (S j) s) b
                   /\ forall b', border (take (S j) s) b' -> (b' <= b)%nat.
Proof.
  intros Hne Hsmall.
  destruct (prefix_spec s (S (length s) + k) Hne Hsmall ltac:(lia)) as (pre & Hrun & Hlen & Hpi).
  exists pre. split_and!; [done|done|]. intros j Hj.
  destruct (Hpi (S j) ltac:(lia)) as (b & Hb & Hp & Hmax).
  exists b. replace (S j - 1)%nat with j in Hb by lia. split_and!; [done| |].
  - by apply border_pre_suf_iff.
  - intros b' Hb'. apply Hmax. by apply border_pre_suf_iff.
Qed.

Lemma sample_borders :
  exists pre,
    Kmp.prefix (S 5 + 0) ["a"; "b"; "a"; "b"; "c"]%byte = Ok pre /\ length pre = 5%nat
    /\ forall j, (j < 5)%nat ->
         exists b, pre !! j = Some (Z.of_nat b)
                   /\ border (take (S j) ["a"; "b"; "a"; "b"; "c"]%byte) b
                   /\ forall b', border (take (S j) ["a"; "b"; "a"; "b"; "c"]%byte) b'
                                 -> (b' <= b)%nat.
Proof.
  apply (prefix_computes_the_longest_borders ["a"; "b"; "a"; "b"; "c"]%byte 0).
  - done.
  - simpl. lia.
Defined.

(** X16.  [findMatches], started with no match and with the prefix function
    of a needle that is not empty, returns the start offsets of the
    occurrences of the needle in the haystack, each shifted by [offset], in
    increasing order - what the naive search returns - and the length of the
    longest prefix of the needle that ends the haystack. *)
Theorem findMatches_finds_the_occurrences haystack needle offset k :
  needle <> [] -> Z.of_nat (length needle) < 2 ^ 62 ->
  0 <= offset -> offset + Z.of_nat (length haystack) < 2 ^ 62 ->
  exists n_prefix p,
    Kmp.prefix (S (length needle) + k) needle = Ok n_prefix
    /\ Kmp.findMatches (S (length needle) + k) haystack needle n_prefix 0 offset
       = Ok (naive_search needle haystack offset, Z.of_nat p)
    /\ lsp needle haystack p.
Proof.
  intros Hne Hsmall Hoff Hlen.
  destruct (prefix_spec needle (S (length needle) + k) Hne Hsmall ltac:(lia))
    as (np & Hrun & _ & Hpi).
  destruct (findMatches_spec needle np (S (length needle) + k) haystack offset Hne
              ltac:(lia) Hpi Hsmall Hoff Hlen) as (p & Hfm & Hp).
  by exists np, p.
Qed.

Lemma sample_findMatches :
  exists n_prefix p,
    Kmp.prefix (S 2 + 0) ["a"; "b"]%byte = Ok n_prefix
    /\ Kmp.findMatches (S 2 + 0) sample_text ["a"; "b"]%byte n_prefix 0 10
       = Ok (naive_search ["a"; "b"]%byte sample_text 10, Z.of_nat p)
    /\ lsp ["a"; "b"]%byte sample_text p.
Proof.
  apply (findMatches_finds_the_occurrences sample_text ["a"; "b"]%byte 10 0).
  - done.
  - simpl. lia.
  - lia.
  - simpl. lia.
Defined.

(** X17.  Calls of [findMatches] chain: searching a text in one call gives
    the same matches and the same final match length as searching a first
    part and then the rest, when the second call starts from the match
    length the first one returned and adds the length of the first part to
    the offset.  This holds for every input, panics included. *)
Theorem findMatches_chains fuel h1 h2 needle n_prefix initial offset :
  Kmp.findMatches fuel (h1 ++ h2) needle n_prefix initial offset
  = (r1 <- Kmp.findMatches fuel h1 needle n_prefix initial offset ;;
     r2 <- Kmp.findMatches fuel h2 needle n_prefix r1.2 (Kmp.add offset (Kmp.len h1)) ;;
     Ok (r1.1 ++ r2.1, r2.2)).
Proof.
  unfold Kmp.findMatches.
  change 0 with (Kmp.int_wrap 0). rewrite findMatches_loop_app.
  destruct (Kmp.findMatches_loop fuel h1 needle n_prefix offset (Kmp.int_wrap 0) [] initial)
    as [[m1 p1]|e]; [|done].
  cbn [rbind fst snd].
  replace (0 + Z.of_nat (length h1)) with (Z.of_nat (length h1) + 0) by lia.
  rewrite findMatches_loop_shift, findMatches_loop_acc. done.
Qed.

(** X18.  [splitKmpWork], for a needle that is not longer than the haystack
    and at least one range, returns as many ranges as asked for, or one for
    each possible start offset when there are fewer of those; the ranges cut
    the possible start offsets into consecutive pieces that are not empty
    and whose sizes differ by at most one, and each range is extended by
    [len_substr - 1] bytes so that a match can end in it. *)
Theorem splitKmpWork_tiles_the_haystack len_s len_substr n_ranges :
  1 <= len_substr -> len_substr <= len_s -> len_s < 2 ^ 62 ->
  1 <= n_ranges -> n_ranges < 2 ^ 62 ->
  exists ranges q,
    Kmp.splitKmpWork len_s len_substr n_ranges = Ok ranges
    /\ Z.of_nat (length ranges) = Z.min n_ranges (len_s - len_substr + 1)
    /\ tiles (len_substr - 1) ranges 0 (len_s - len_substr + 1)
    /\ Forall (fun rg => q <= Kmp.rg_length rg - (len_substr - 1) <= q + 1) ranges
    /\ Forall (fun rg => 0 <= Kmp.rg_offset rg
                         /\ Kmp.rg_offset rg + Kmp.rg_length rg <= len_s) ranges.
Proof.
  intros H1 H2 H3 H4 H5.
  destruct (splitKmpWork_spec len_s len_substr n_ranges H1 H2 H3 H4 H5)
    as (ranges & q & Hrun & Hlen & Ht & Hb).
  exists ranges, q. split_and!; [done..|].
  eapply Forall_impl; [apply (tiles_inside _ _ _ _ Ht)|]. simpl. intros rg. lia.
Qed.

Lemma sample_split :
  exists ranges q,
    Kmp.splitKmpWork 9 3 3 = Ok ranges
    /\ Z.of_nat (length ranges) = Z.min 3 (9 - 3 + 1)
    /\ tiles (3 - 1) ranges 0 (9 - 3 + 1)
    /\ Forall (fun rg => q <= Kmp.rg_length rg - (3 - 1) <= q + 1) ranges
    /\ Forall (fun rg => 0 <= Kmp.rg_offset rg
                         /\ Kmp.rg_offset rg + Kmp.rg_length rg <= 9) ranges.
Proof. apply (splitKmpWork_tiles_the_haystack 9 3 3); lia. Defined.

(** X19.  [ParallelSearchSubstring], for a needle that is not empty and not
    longer than the haystack and at least one range, returns the start
    offsets of all occurrences of the needle in increasing order, as the
    naive search does, in whatever order the results of the goroutines
    arrive. *)
Theorem ParallelSearchSubstring_is_naive_search haystack needle n_ranges order k :
  needle <> [] -> (length needle <= length haystack)%nat ->
  Z.of_nat (length haystack) < 2 ^ 62 -> 1 <= n_ranges -> n_ranges < 2 ^ 62 ->
  order ≡ₚ seq 0 (Z.to_nat (Z.min n_ranges
                              (Z.of_nat (length haystack) - Z.of_nat (length needle) + 1))) ->
  Kmp.ParallelSearchSubstring (S (length needle) + k) haystack needle n_ranges order
  = Ok (naive_search needle haystack 0).
Proof.
  intros Hne Hle Hsmall Hn Hns Horder.
  assert (Hnpos : 0 < Z.of_nat (length needle)) by (destruct needle; [done|simpl; lia]).
  unfold Kmp.ParallelSearchSubstring.
  destruct (prefix_spec needle (S (length needle) + k) Hne ltac:(lia) ltac:(lia))
    as (np & -> & _ & Hpi).
  cbn [rbind]. unfold Kmp.len.
  destruct (splitKmpWork_spec (Z.of_nat (length haystack)) (Z.of_nat (length needle)) n_ranges
              ltac:(lia) ltac:(lia) Hsmall Hn Hns)
    as (ranges & q & -> & Hlen & Ht & _).
  cbn [rbind]. unfold Kmp.parallelFindMatches.
  destruct (search_ranges_spec (S (length needle) + k) haystack needle np Hne ltac:(lia) Hpi
              Hsmall ranges 0 ltac:(lia) Ht) as (mats & -> & Hlm & Hjoin).
  cbn [rbind]. rewrite <- Hlm, results_in_order.
  - rewrite Hjoin, Z.sub_0_r. by rewrite naive_search_found.
  - replace (length mats)
      with (Z.to_nat (Z.min n_ranges
                        (Z.of_nat (length haystack) - Z.of_nat (length needle) + 1)))
      by lia.
    done.
Qed.

Lemma sample_parallel_search :
  Kmp.ParallelSearchSubstring (S 2 + 0) sample_text ["a"; "b"]%byte 3 [2; 0; 1]%nat
  = Ok (naive_search ["a"; "b"]%byte sample_text 0).
Proof.
  apply (ParallelSearchSubstring_is_naive_search sample_text ["a"; "b"]%byte 3 [2; 0; 1]%nat 0).
  - done.
  - simpl. lia.
  - simpl. lia.
  - lia.
  - lia.
  - simpl. by apply (Permutation_cons_append [0; 1]%nat 2%nat).
Defined.

(** X20.  A needle that is longer than the haystack makes
    [ParallelSearchSubstring] panic instead of returning no match: with a
    needle one byte longer there is no possible start offset, the number of
    ranges becomes 0 and the division by it panics; with a longer needle
    the number of ranges becomes negative and [make] panics. *)
Theorem ParallelSearchSubstring_panics_on_a_long_needle haystack needle n_ranges order k :
  (length haystack < length needle)%nat -> Z.of_nat (length needle) < 2 ^ 62 ->
  1 <= n_ranges ->
  Kmp.ParallelSearchSubstring (S (length needle) + k) haystack needle n_ranges order
  = Panic (if bool_decide (length needle = S (length haystack))
           then IntegerDivideByZero else MakesliceCapOutOfRange).
Proof.
  intros Hlong Hsmall Hn.
  assert (Hne : needle <> []) by (intros ->; simpl in Hlong; lia).
  unfold Kmp.ParallelSearchSubstring.
  destruct (prefix_spec needle (S (length needle) + k) Hne ltac:(lia) ltac:(lia))
    as (np & -> & _ & _).
  cbn [rbind]. unfold Kmp.splitKmpWork, Kmp.len.
  rewrite (sub_small (Z.of_nat (length needle)) 1) by lia. rewrite sub_small by lia.
  rewrite bool_decide_eq_true_2 by lia.
  unfold Kmp.div, Kmp.rem.
  destruct (decide (length needle = S (length haystack))) as [Hone|Hone].
  - rewrite (bool_decide_eq_true_2 (length needle = S (length haystack))) by done.
    rewrite !bool_decide_eq_true_2 by lia. done.
  - rewrite (bool_decide_eq_false_2 (length needle = S (length haystack))) by done.
    rewrite !bool_decide_eq_false_2 by lia. cbn [rbind].
    rewrite bool_decide_eq_true_2 by lia. done.
Qed.

Lemma sample_long_needle :
  Kmp.ParallelSearchSubstring (S 3 + 0) ["a"; "b"]%byte ["a"; "b"; "c"]%byte 1 [0%nat]
  = Panic (if bool_decide (length ["a"; "b"; "c"]%byte = S (length ["a"; "b"]%byte))
           then IntegerDivideByZero else MakesliceCapOutOfRange).
Proof.
  apply (ParallelSearchSubstring_panics_on_a_long_needle
           ["a"; "b"]%byte ["a"; "b"; "c"]%byte 1 [0%nat] 0).
  - simpl. lia.
  - simpl. lia.
  - lia.
Defined.

(** X21.  The empty needle: [findMatches] then reports a match after every
    byte of the haystack, at [offset + 1], ..., [offset + len(haystack)], and
    none at [offset] itself; it does not read the prefix function. *)
Theorem findMatches_of_the_empty_needle fuel haystack n_prefix offset :
  0 <= offset -> offset + Z.of_nat (length haystack) < 2 ^ 62 ->
  Kmp.findMatches (S fuel) haystack [] n_prefix 0 offset
  = Ok (seqZ (offset + 1) (Z.of_nat (length haystack)), 0).
Proof.
  intros Hoff Hlen. unfold Kmp.findMatches.
  rewrite findMatches_loop_empty by lia. simpl. do 3 f_equal. lia.
Qed.

Lemma sample_empty_needle :
  Kmp.findMatches (S 0) sample_text [] [] 0 0
  = Ok (seqZ (0 + 1) (Z.of_nat (length sample_text)), 0).
Proof.
  apply (findMatches_of_the_empty_needle 0 sample_text [] 0).
  - lia.
  - simpl. lia.
Defined.

(** X22.  [ParallelSearchSubstring] needs a positive number of ranges: with
    [n_ranges = 0] the division in [splitKmpWork] panics, and with a
    negative [n_ranges] the call of [make] does. *)
Theorem ParallelSearchSubstring_needs_a_positive_range_count
    haystack needle n_ranges order k :
  needle <> [] -> (length needle <= length haystack)%nat ->
  Z.of_nat (length haystack) < 2 ^ 62 -> - 2 ^ 62 < n_ranges <= 0 ->
  Kmp.ParallelSearchSubstring (S (length needle) + k) haystack needle n_ranges order
  = Panic (if bool_decide (n_ranges = 0)
           then IntegerDivideByZero else MakesliceCapOutOfRange).
Proof.
  intros Hne Hle Hsmall Hn.
  assert (Hnpos : 0 < Z.of_nat (length needle)) by (destruct needle; [done|simpl; lia]).
  unfold Kmp.ParallelSearchSubstring.
  destruct (prefix_spec needle (S (length needle) + k) Hne ltac:(lia) ltac:(lia))
    as (np & -> & _ & _).
  cbn [rbind]. unfold Kmp.splitKmpWork, Kmp.len.
  rewrite (sub_small (Z.of_nat (length needle)) 1) by lia. rewrite sub_small by lia.
  rewrite (bool_decide_eq_false_2 (n_ranges > _)) by lia.
  unfold Kmp.div, Kmp.rem.
  destruct (decide (n_ranges = 0)) as [Hz|Hz].
  - rewrite !(bool_decide_eq_true_2 (n_ranges = 0)) by done. done.
  - rewrite !(bool_decide_eq_false_2 (n_ranges = 0)) by done. cbn [rbind].
    rewrite bool_decide_eq_true_2 by lia. done.
Qed.

Lemma sample_no_ranges :
  Kmp.ParallelSearchSubstring (S 2 + 0) sample_text ["a"; "b"]%byte 0 []
  = Panic (if bool_decide (0 = 0) then IntegerDivideByZero else MakesliceCapOutOfRange).
Proof.
  apply (ParallelSearchSubstring_needs_a_positive_range_count
           sample_text ["a"; "b"]%byte 0 [] 0).
  - done.
  - simpl. lia.
  - simpl. lia.
  - lia.
Defined.

Local Close Scope result_scope.
